(** * pyquarkchain: cluster bring-up, process supervision, peer refresh
      and the overlay database

    A shallow embedding of
      - [quarkchain/db.py]               ([InMemoryDb], [OverlayDb]),
      - [quarkchain/p2p/p2p_network.py]  ([P2PNetwork.refreshConnections]),
      - [quarkchain/cluster/cluster.py]  (the process supervisor),
      - [quarkchain/cluster/master.py]   (the master's bring-up),
    with the properties of each stated and proved next to its model. *)

From Stdlib Require Import ZArith Ascii String List Bool Lia.
From stdpp Require Import base decidable option list gmap strings pretty sorting.
From Stdlib.Strings Require Byte.

Local Open Scope string_scope.
Local Open Scope list_scope.
Local Open Scope Z_scope.

(* ===================================================================== *)
(** * Python values, exceptions and string methods the sources rely on *)
(* ===================================================================== *)

Module Py.

(** The exceptions the modelled code can raise. *)
Inductive Exn :=
| NameError (name : string)
| KeyError (key : string)
| IndexError
| ValueError
| AssertionError
| NoSuchProcess (pid : Z)
| ZombieProcess (pid : Z).

#[export] Instance Exn_eq_dec : EqDecision Exn.
Proof. solve_decision. Defined.

(** A call returns or raises. *)
Inductive Result (A : Type) :=
| Ok (a : A)
| Raise (e : Exn).
Arguments Ok {A} a.
Arguments Raise {A} e.

(** Python's [s.split(sep)] for a one-character separator: the pieces
    between the separators, one more than there are separators. *)
Fixpoint split (sep : ascii) (s : string) : list string :=
  match s with
  | EmptyString => [EmptyString]
  | String c rest =>
      if Ascii.eqb c sep then EmptyString :: split sep rest
      else match split sep rest with
           | [] => [String c EmptyString]
           | piece :: pieces => String c piece :: pieces
           end
  end.

(** [sep.join(pieces)] for a one-character separator. *)
Fixpoint join (sep : ascii) (pieces : list string) : string :=
  match pieces with
  | [] => EmptyString
  | [piece] => piece
  | piece :: rest => piece +:+ String sep (join sep rest)
  end.

Lemma split_not_nil sep s : split sep s ≠ [].
Proof.
  destruct s as [|c s]; cbn; [done|].
  destruct (Ascii.eqb c sep); [done|]. by destruct (split sep s).
Qed.

Lemma join_split sep s : join sep (split sep s) = s.
Proof.
  induction s as [|c s IH]; [done|]. cbn [split].
  destruct (Ascii.eqb_spec c sep) as [->|Hne].
  - pose proof (split_not_nil sep s) as Hnil.
    destruct (split sep s) as [|piece pieces]; [done|].
    cbn [join]. cbn. by rewrite <- IH.
  - pose proof (split_not_nil sep s) as Hnil.
    destruct (split sep s) as [|piece pieces]; [done|].
    rewrite <- IH. by destruct pieces.
Qed.

(** The Python values the command lines are built from. *)
Inductive Value :=
| VBool (b : bool)
| VInt (n : Z)
| VStr (s : string)
| VObject (name : string).

(** [str(v)], which is what [str.format] puts in place of a [{}]. *)
Definition str (v : Value) : string :=
  match v with
  | VBool true => "True"
  | VBool false => "False"
  | VInt n => pretty n
  | VStr s => s
  | VObject name => "<" +:+ name +:+ ">"
  end.

(** Truth value of [v] in an [if]. *)
Definition truthy (v : Value) : bool :=
  match v with
  | VBool b => b
  | VInt n => negb (n =? 0)
  | VStr s => negb (String.eqb s "")
  | VObject _ => true
  end.

(** [template.format(...)] for a template whose replacement fields are
    all the automatic [{}]: the fields take the arguments in order, and a
    field with no argument left raises [IndexError]. *)
Fixpoint format (template : string) (args : list Value) : Result string :=
  match template with
  | EmptyString => Ok EmptyString
  | String "{" (String "}" rest) =>
      match args with
      | [] => Raise IndexError
      | a :: args' =>
          match format rest args' with
          | Ok r => Ok (str a +:+ r)
          | Raise e => Raise e
          end
      end
  | String c rest =>
      match format rest args with
      | Ok r => Ok (String c r)
      | Raise e => Raise e
      end
  end.

(** [d[key]] on a dict with string keys. *)
Definition subscript (d : list (string * Value)) (key : string) : Result Value :=
  match list_find (λ entry, entry.1 = key) d with
  | Some (_, (_, v)) => Ok v
  | None => Raise (KeyError key)
  end.

Example format_ex :
  format "--node_port={} --node_id={}" [VInt 38000; VStr "S0"]
    = Ok "--node_port=38000 --node_id=S0".
Proof. vm_compute. reflexivity. Qed.

End Py.

(* ===================================================================== *)
(** * quarkchain/db.py *)
(* ===================================================================== *)

Module Db.

Section WithKeys.

(** Keys are byte strings in the callers; the dictionaries of [db.py]
    only hash and compare them, so the model is generic in the key. *)
Context {K : Type} `{Countable K}.
Context {V : Type}.

(** The [get] contract every database class of [db.py] offers, and the
    only thing [OverlayDb] ever asks of the database it wraps. *)
Class DbGet (D : Type) := db_get : D → K → option V.

(** [class InMemoryDb]: [self.kv = dict()]. *)
Record InMemoryDb := mkInMemoryDb { kv : gmap K V }.

(** [InMemoryDb.get(key, default=None)] with the default left at [None]:
    [self.kv.get(key, default)]. *)
Definition InMemoryDb_get (d : InMemoryDb) (key : K) : option V :=
  kv d !! key.

#[export] Instance InMemoryDb_DbGet : DbGet InMemoryDb := InMemoryDb_get.

Section Overlay.

Context {D : Type} `{DbGet D}.

(** [class OverlayDb]: [self._db = db], [self.overlay = {}].  The
    overlay's values are Python values that may be [None]; a key bound
    to [None] is a key deleted through the overlay. *)
Record OverlayDb := mkOverlayDb {
  _db : D;
  overlay : gmap K (option V)
}.

(** [OverlayDb.__init__(self, db)]. *)
Definition OverlayDb_init (db : D) : OverlayDb :=
  {| _db := db; overlay := ∅ |}.

(** [OverlayDb.get(self, key)]:
<<
    if key in self.overlay:
        return self.overlay[key]
    return self._db.get(key)
>> *)
Definition get (o : OverlayDb) (key : K) : option V :=
  match overlay o !! key with
  | Some v => v
  | None => db_get (_db o) key
  end.

(** [OverlayDb.put(self, key, value)]: [self.overlay[key] = value]. *)
Definition put (o : OverlayDb) (key : K) (value : V) : OverlayDb :=
  {| _db := _db o; overlay := <[key := Some value]> (overlay o) |}.

(** [OverlayDb.delete(self, key)]: [self.overlay[key] = None]. *)
Definition delete (o : OverlayDb) (key : K) : OverlayDb :=
  {| _db := _db o; overlay := <[key := None]> (overlay o) |}.

(** [OverlayDb._has_key] and [__contains__]. *)
Definition _has_key (o : OverlayDb) (key : K) : bool :=
  match overlay o !! key with
  | Some v => bool_decide (is_Some v)
  | None => bool_decide (is_Some (db_get (_db o) key))
  end.

(** A call made through the overlay. *)
Inductive Op :=
| OpPut (key : K) (value : V)
| OpDelete (key : K).

Definition op_key (op : Op) : K :=
  match op with OpPut k _ => k | OpDelete k => k end.

Definition run_op (o : OverlayDb) (op : Op) : OverlayDb :=
  match op with
  | OpPut k v => put o k v
  | OpDelete k => delete o k
  end.

(** The calls of [ops], oldest first. *)
Definition run_ops (o : OverlayDb) (ops : list Op) : OverlayDb :=
  foldl run_op o ops.

(** What the last call on [key] in [ops] left behind, if there is one:
    [Some (Some v)] after a put of [v], [Some None] after a delete. *)
Fixpoint last_write (key : K) (ops : list Op) : option (option V) :=
  match ops with
  | [] => None
  | op :: rest =>
      match last_write key rest with
      | Some w => Some w
      | None =>
          match op with
          | OpPut k v => if decide (k = key) then Some (Some v) else None
          | OpDelete k => if decide (k = key) then Some None else None
          end
      end
  end.

Lemma run_op_db o op : _db (run_op o op) = _db o.
Proof. by destruct op. Qed.

Lemma run_ops_db ops : ∀ o, _db (run_ops o ops) = _db o.
Proof.
  induction ops as [|op ops IH]; intros o; [done|].
  cbn. unfold run_ops in IH. by rewrite IH, run_op_db.
Qed.

Lemma run_ops_snoc o ops op :
  run_ops o (ops ++ [op]) = run_op (run_ops o ops) op.
Proof. unfold run_ops. by rewrite foldl_app. Qed.

Lemma last_write_snoc key ops op :
  last_write key (ops ++ [op]) =
    match (if decide (op_key op = key)
           then Some (match op with
                      | OpPut _ v => Some v
                      | OpDelete _ => None
                      end)
           else None) with
    | Some w => Some w
    | None => last_write key ops
    end.
Proof.
  induction ops as [|op' ops IH]; cbn.
  - destruct op; cbn; by case_decide.
  - rewrite IH. case_decide; [done|].
    by destruct (last_write key ops).
Qed.

Lemma get_run_ops o key ops :
  get (run_ops o ops) key =
    match last_write key ops with
    | Some w => w
    | None => get o key
    end.
Proof.
  induction ops as [|op ops IH] using rev_ind; [done|].
  rewrite run_ops_snoc, last_write_snoc.
  destruct op as [k v|k]; cbn [op_key]; case_decide; subst.
  - unfold get; cbn. by rewrite lookup_insert_eq.
  - rewrite <- IH. unfold get; cbn. by rewrite lookup_insert_ne.
  - unfold get; cbn. by rewrite lookup_insert_eq.
  - rewrite <- IH. unfold get; cbn. by rewrite lookup_insert_ne.
Qed.

Lemma last_write_None key ops :
  last_write key ops = None ↔ Forall (λ op, op_key op ≠ key) ops.
Proof.
  induction ops as [|op ops IH]; cbn.
  - split; [constructor|done].
  - rewrite Forall_cons. destruct (last_write key ops) eqn:E.
    + split; [done|]. intros [_ Hf]. by apply IH in Hf.
    + assert (Forall (λ op, op_key op ≠ key) ops) as Hrest by (by apply IH).
      destruct op; cbn; case_decide; subst;
        split; try done; by intros [? ?].
Qed.

Lemma last_write_app key ops1 ops2 :
  last_write key (ops1 ++ ops2) =
    match last_write key ops2 with
    | Some w => Some w
    | None => last_write key ops1
    end.
Proof.
  induction ops1 as [|op ops1 IH]; cbn.
  - by destruct (last_write key ops2).
  - rewrite IH. by destruct (last_write key ops2).
Qed.

Lemma last_write_last key before op after :
  op_key op = key →
  Forall (λ op', op_key op' ≠ key) after →
  last_write key (before ++ op :: after) =
    Some (match op with OpPut _ v => Some v | OpDelete _ => None end).
Proof.
  intros Hop Hafter. apply last_write_None in Hafter.
  rewrite last_write_app. cbn. rewrite Hafter.
  destruct op; cbn in *; by rewrite decide_True.
Qed.

(** C10.  Whatever puts and deletes are made through an overlay freshly
    laid over a database [db], the wrapped database is the one it was,
    and [get key] gives the value of the last put on [key] when no later
    call touched [key], [None] when the last call on [key] was a delete
    (whatever [db] holds there), and [db]'s own answer when [key] was
    never written or deleted through the overlay. *)
Theorem OverlayDb_frame_and_get (db : D) (ops : list Op) (key : K) :
  _db (run_ops (OverlayDb_init db) ops) = db
  ∧ (∀ before value after,
       ops = before ++ OpPut key value :: after →
       Forall (λ op, op_key op ≠ key) after →
       get (run_ops (OverlayDb_init db) ops) key = Some value)
  ∧ (∀ before after,
       ops = before ++ OpDelete key :: after →
       Forall (λ op, op_key op ≠ key) after →
       get (run_ops (OverlayDb_init db) ops) key = None)
  ∧ (Forall (λ op, op_key op ≠ key) ops →
     get (run_ops (OverlayDb_init db) ops) key = db_get db key).
Proof.
  split; [apply run_ops_db|]. rewrite get_run_ops. repeat split.
  - intros before value after -> Hafter.
    by rewrite (last_write_last key before (OpPut key value) after).
  - intros before after -> Hafter.
    by rewrite (last_write_last key before (OpDelete key) after).
  - intros Hnone. apply last_write_None in Hnone. by rewrite Hnone.
Qed.

End Overlay.
End WithKeys.

(** A store holding ["a"], overlaid and then written to: ["a"] is deleted
    through the overlay, ["b"] is put twice. *)
Definition example_db : InMemoryDb (K := string) (V := Z) :=
  {| kv := {["a" := 1]} |}.

Definition example_ops : list (Op (K := string) (V := Z)) :=
  [OpPut "b" 2; OpDelete "a"; OpPut "b" 3; OpPut "c" 4].

Example overlay_example :
  let o := run_ops (OverlayDb_init example_db) example_ops in
  get o "a" = None ∧ get o "b" = Some 3 ∧ get o "c" = Some 4
  ∧ get o "d" = None ∧ InMemoryDb_get (_db o) "a" = Some 1.
Proof. vm_compute. done. Qed.

Lemma OverlayDb_frame_and_get_witness :
  get (run_ops (OverlayDb_init example_db) example_ops) "a" = None
  ∧ get (run_ops (OverlayDb_init example_db) example_ops) "b" = Some 3.
Proof.
  split.
  - refine (proj1 (proj2 (proj2
      (OverlayDb_frame_and_get example_db example_ops "a")))
      [OpPut "b" 2] [OpPut "b" 3; OpPut "c" 4] eq_refl _).
    repeat constructor; discriminate.
  - refine (proj1 (proj2
      (OverlayDb_frame_and_get example_db example_ops "b"))
      [OpPut "b" 2; OpDelete "a"] 3 [OpPut "c" 4] eq_refl _).
    repeat constructor; discriminate.
Defined.

End Db.

(* ===================================================================== *)
(** * quarkchain/p2p/p2p_network.py *)
(* ===================================================================== *)

Module P2P.
Import Py.

(** What [refreshConnections] reads of a [Peer]: its id (the key it is
    filed under), [peer.ip] as [str] renders it, and [peer.port]. *)
Record Peer := mkPeer { peer_id : Z; peer_ip : string; peer_port : Z }.

#[export] Instance Peer_eq_dec : EqDecision Peer.
Proof. solve_decision. Defined.

(** [self.activePeerPool = dict()], peer id => peer; a dict iterates in
    insertion order, which the association list keeps. *)
Definition PeerPool := list (Z * Peer).

Record P2PNetwork := mkP2PNetwork {
  activePeerPool : PeerPool;
  ip : string;
  port : Z
}.

(** ['{}:{}'.format(ip, port)]. *)
Definition format_ip_port (ip : string) (port : Z) : string :=
  ip +:+ ":" +:+ pretty port.

Definition ip_port_of (p : Peer) : string :=
  format_ip_port (peer_ip p) (peer_port p).

(** What one call of [refreshConnections] does: the peers it closed, in
    order, the pool as the closes left it, the [(ip, port)] pairs it
    scheduled [self.connect] for, and the exception that ended it, if one
    did. *)
Record Refreshed := mkRefreshed {
  closed : list Peer;
  pool_after : PeerPool;
  connecting : list (string * string);
  raised : option Exn
}.

(** The second loop of [refreshConnections]:
<<
        for ip_port in to_be_connected:
            if self_ip_port < ip_port:
                ip, port = ip_port.split(':')
                asyncio.ensure_future(self.connect(ip, port))
            else:
                Logger.info("skipping ...")
>>
    The unpacking into [ip, port] raises [ValueError] unless the split
    gives exactly two pieces. *)
Fixpoint connect_loop (self_ip_port : string) (to_be_connected : list string)
    (scheduled : list (string * string)) : list (string * string) * option Exn :=
  match to_be_connected with
  | [] => (scheduled, None)
  | ip_port :: rest =>
      if String.ltb self_ip_port ip_port then
        match split ":" ip_port with
        | [ip; port] => connect_loop self_ip_port rest (scheduled ++ [(ip, port)])
        | _ => (scheduled, Some ValueError)
        end
      else connect_loop self_ip_port rest scheduled
  end.

Section Refresh.

(** [Peer.close()] lives in [quarkchain/cluster/simple_network.py], which
    is not among the sources: what it does to the pool is a parameter. *)
Variable Peer_close : PeerPool → Peer → PeerPool.

(** The first loop: [to_be_disconnected]. *)
Definition to_be_disconnected (pool : PeerPool) (peers : list string) : list Peer :=
  filter (λ peer, ip_port_of peer ∉ peers) (pool.*2).

(** [active = ['{}:{}'.format(p.ip, p.port) for i, p in self.activePeerPool.items()]]. *)
Definition active_of (pool : PeerPool) : list string :=
  ip_port_of <$> pool.*2.

(** [to_be_connected = set(peers) - set(active)], iterated in the set's
    own order. *)
Definition to_be_connected (peers active : list string) : list string :=
  elements ((list_to_set peers : gset string) ∖ list_to_set active).

(** [P2PNetwork.refreshConnections(self, peers)]. *)
Definition refreshConnections (net : P2PNetwork) (peers : list string) : Refreshed :=
  let disconnect := to_be_disconnected (activePeerPool net) peers in
  let pool := foldl Peer_close (activePeerPool net) disconnect in
  let active := active_of pool in
  let self_ip_port := format_ip_port (ip net) (port net) in
  let '(scheduled, exn) :=
    connect_loop self_ip_port (to_be_connected peers active) [] in
  {| closed := disconnect; pool_after := pool;
     connecting := scheduled; raised := exn |}.

End Refresh.

(** [Peer.close()] as [del self.network.activePeerPool[self.id]]. *)
Definition Peer_close_by_id (pool : PeerPool) (peer : Peer) : PeerPool :=
  filter (λ entry, entry.1 ≠ peer_id peer) pool.

(** The pair the unpacking [ip, port = ip_port.split(':')] binds, when it
    binds one. *)
Definition unpack_ip_port (ip_port : string) : option (string * string) :=
  match split ":" ip_port with
  | [ip; port] => Some (ip, port)
  | _ => None
  end.

(** An address of the shape ["ip:port"]: exactly one colon. *)
Definition well_formed (ip_port : string) : Prop :=
  ∃ ip port, split ":" ip_port = [ip; port].

Example split_one_colon : split ":" "10.0.0.2:38291" = ["10.0.0.2"; "38291"].
Proof. reflexivity. Qed.

Example split_no_colon : split ":" "localhost" = ["localhost"].
Proof. reflexivity. Qed.

Example format_ip_port_ex : format_ip_port "10.0.0.2" 38291 = "10.0.0.2:38291".
Proof. vm_compute. reflexivity. Qed.

Lemma unpack_ip_port_inj a b pair :
  unpack_ip_port a = Some pair → unpack_ip_port b = Some pair → a = b.
Proof.
  unfold unpack_ip_port. intros Ha Hb.
  rewrite <- (join_split ":" a), <- (join_split ":" b).
  destruct (split ":" a) as [|? [|? [|? ?]]]; try done.
  destruct (split ":" b) as [|? [|? [|? ?]]]; try done.
  congruence.
Qed.

Lemma connect_loop_well_formed self todo : ∀ scheduled,
  Forall (λ a, String.ltb self a = true → well_formed a) todo →
  connect_loop self todo scheduled =
    (scheduled ++ omap unpack_ip_port (filter (λ a, String.ltb self a = true) todo),
     None).
Proof.
  induction todo as [|a todo IH]; intros scheduled Hwf.
  - cbn. by rewrite app_nil_r.
  - apply Forall_cons in Hwf as [Ha Hwf]. cbn [connect_loop].
    rewrite filter_cons. destruct (String.ltb self a) eqn:Hlt.
    + destruct (Ha eq_refl) as (ip & port & Hsplit).
      assert (unpack_ip_port a = Some (ip, port)) as Hpair
        by (unfold unpack_ip_port; by rewrite Hsplit).
      rewrite decide_True by done. cbn [omap list_omap].
      rewrite Hpair, Hsplit, IH by done. by rewrite <- app_assoc.
    + rewrite decide_False by done. by apply IH.
Qed.

(** C9, amended.  Whatever [Peer.close] does to the pool and whatever the
    discovery list holds, one refresh closes exactly the active peers
    whose address is not listed.  When every listed name that is not
    active and lies strictly above the node's own address has the shape
    ["ip:port"], with one colon, the refresh raises nothing and schedules
    a connection to a listed address that is not active (in the pool as
    the closes left it) if and only if the node's own address is strictly
    below it in string order; nothing else is scheduled. *)
Theorem refreshConnections_policy
    (Peer_close : PeerPool → Peer → PeerPool) (net : P2PNetwork)
    (peers : list string) :
  let r := refreshConnections Peer_close net peers in
  let self_ip_port := format_ip_port (ip net) (port net) in
  (∀ peer, peer ∈ closed r ↔
             (peer ∈ (activePeerPool net).*2 ∧ ip_port_of peer ∉ peers))
  ∧ ((∀ a, a ∈ peers → a ∉ active_of (pool_after r) →
        String.ltb self_ip_port a = true → well_formed a) →
     raised r = None
     ∧ (∀ a, a ∈ peers → a ∉ active_of (pool_after r) →
          ((∃ pair, unpack_ip_port a = Some pair ∧ pair ∈ connecting r)
           ↔ String.ltb self_ip_port a = true))
     ∧ (∀ pair, pair ∈ connecting r →
          ∃ a, a ∈ peers ∧ (a ∉ active_of (pool_after r))
               ∧ unpack_ip_port a = Some pair)).
Proof.
  intros r self_ip_port.
  set (todo := to_be_connected peers
                 (active_of (foldl Peer_close (activePeerPool net)
                    (to_be_disconnected (activePeerPool net) peers)))).
  assert (Htodo : ∀ a, a ∈ todo ↔
            a ∈ peers ∧ a ∉ active_of (pool_after r)).
  { intros a. unfold todo, to_be_connected.
    rewrite elem_of_elements, elem_of_difference, !elem_of_list_to_set.
    subst r. unfold refreshConnections.
    by destruct (connect_loop _ _ _). }
  assert (Hclosed : closed r = to_be_disconnected (activePeerPool net) peers).
  { subst r. unfold refreshConnections. by destruct (connect_loop _ _ _). }
  split.
  { intros peer. rewrite Hclosed. unfold to_be_disconnected.
    rewrite list_elem_of_filter. tauto. }
  intros Hwf.
  assert (Hwf' : Forall (λ a, String.ltb self_ip_port a = true → well_formed a)
                   todo).
  { apply Forall_forall. intros a Ha. apply Htodo in Ha as [Ha Hna].
    by apply Hwf. }
  pose proof (connect_loop_well_formed self_ip_port todo [] Hwf') as Hloop.
  assert (Hr : connecting r =
            omap unpack_ip_port (filter (λ a, String.ltb self_ip_port a = true) todo)
          ∧ raised r = None).
  { subst r. unfold refreshConnections. fold todo. fold self_ip_port.
    by rewrite Hloop. }
  destruct Hr as (Hconn & Hraised).
  split; [done|split].
  - intros a Ha Hna. rewrite Hconn. split.
    + intros (pair & Hpair & Hin).
      apply list_elem_of_omap in Hin as (b & Hb & Hbpair).
      apply list_elem_of_filter in Hb as [Hlt _].
      by rewrite (unpack_ip_port_inj a b pair).
    + intros Hlt. destruct (Hwf a Ha Hna Hlt) as (ip0 & port0 & Hsplit).
      exists (ip0, port0). unfold unpack_ip_port at 1. rewrite Hsplit.
      split; [done|]. apply list_elem_of_omap. exists a. split.
      * apply list_elem_of_filter. split; [done|]. by apply Htodo.
      * unfold unpack_ip_port. by rewrite Hsplit.
  - intros pair Hin. rewrite Hconn in Hin.
    apply list_elem_of_omap in Hin as (a & Ha & Hpair).
    apply list_elem_of_filter in Ha as [_ Ha]. apply Htodo in Ha as [? ?].
    by exists a.
Qed.

Lemma elem_of_closed_by_id entry closed : ∀ pool,
  entry ∈ foldl Peer_close_by_id pool closed
  ↔ entry ∈ pool ∧ ∀ peer, peer ∈ closed → entry.1 ≠ peer_id peer.
Proof.
  induction closed as [|peer closed IH]; intros pool; cbn [foldl].
  - split; [|tauto]. intros Hin. split; [done|]. intros peer Hp.
    by apply elem_of_nil in Hp.
  - rewrite IH. unfold Peer_close_by_id. rewrite list_elem_of_filter. split.
    + intros [[Hne Hin] Hrest]. split; [done|]. intros peer' Hp.
      apply elem_of_cons in Hp as [->|Hp]; [done|by apply Hrest].
    + intros [Hin Hall]. split; [split; [|done]|].
      * apply Hall, list_elem_of_here.
      * intros peer' Hp. by apply Hall, list_elem_of_further.
Qed.

Lemma unique_key {A B} (l : list (A * B)) x y1 y2 :
  NoDup l.*1 → (x, y1) ∈ l → (x, y2) ∈ l → y1 = y2.
Proof.
  induction l as [|[k v] l IH]; intros Hnd H1 H2.
  - by apply elem_of_nil in H1.
  - cbn in Hnd. apply NoDup_cons in Hnd as [Hk Hnd].
    apply elem_of_cons in H1 as [H1|H1];
      apply elem_of_cons in H2 as [H2|H2].
    + congruence.
    + injection H1 as -> ->. destruct Hk.
      by apply (list_elem_of_fmap_2 fst) in H2.
    + injection H2 as -> ->. destruct Hk.
      by apply (list_elem_of_fmap_2 fst) in H1.
    + by apply IH.
Qed.

(** When [Peer.close] is the removal of the peer's own entry and the pool
    files every peer under its id, a listed address is active after the
    closes exactly when it was active before them: the closes only take
    away peers whose address is not listed. *)
Lemma listed_active_unchanged (net : P2PNetwork) (peers : list string) (a : string) :
  NoDup (activePeerPool net).*1 →
  Forall (λ entry, entry.1 = peer_id entry.2) (activePeerPool net) →
  a ∈ peers →
  a ∈ active_of (pool_after (refreshConnections Peer_close_by_id net peers))
  ↔ a ∈ active_of (activePeerPool net).
Proof.
  intros Hnd Hkeys Ha.
  assert (pool_after (refreshConnections Peer_close_by_id net peers)
          = foldl Peer_close_by_id (activePeerPool net)
              (to_be_disconnected (activePeerPool net) peers)) as ->.
  { unfold refreshConnections. by destruct (connect_loop _ _ _). }
  unfold active_of. rewrite !list_elem_of_fmap. split.
  - intros (peer & -> & Hin). exists peer. split; [done|].
    apply list_elem_of_fmap in Hin as ([k peer'] & -> & Hin).
    apply elem_of_closed_by_id in Hin as [Hin _].
    by apply (list_elem_of_fmap_2 snd) in Hin.
  - intros (peer & -> & Hin). exists peer. split; [done|].
    apply list_elem_of_fmap in Hin as ([k peer'] & -> & Hin). cbn in *.
    apply (list_elem_of_fmap_2' snd _ (k, peer')); [|done].
    apply elem_of_closed_by_id. split; [done|].
    intros gone Hgone Heq. cbn in Heq.
    apply list_elem_of_filter in Hgone as [Hunlisted Hgone].
    apply list_elem_of_fmap in Hgone as ([k' gone'] & -> & Hgone). cbn in *.
    eapply Forall_forall in Hkeys as Hk'; [|exact Hgone]. cbn in Hk'.
    subst k k'. by rewrite (unique_key _ _ _ _ Hnd Hin Hgone) in Ha.
Qed.

(** A node at 10.0.0.2:38291 with two active peers, one of them no longer
    in the discovery list, which also names a lower and a higher address
    that are not active yet. *)
Definition example_net : P2PNetwork :=
  {| activePeerPool := [(1, mkPeer 1 "10.0.0.1" 38291);
                        (2, mkPeer 2 "10.0.0.9" 38291)];
     ip := "10.0.0.2"; port := 38291 |}.

Definition example_peers : list string :=
  ["10.0.0.9:38291"; "10.0.0.0:38291"; "10.0.0.5:38291"].

Example refreshConnections_example :
  refreshConnections Peer_close_by_id example_net example_peers =
    {| closed := [mkPeer 1 "10.0.0.1" 38291];
       pool_after := [(2, mkPeer 2 "10.0.0.9" 38291)];
       connecting := [("10.0.0.5", "38291")];
       raised := None |}.
Proof. vm_compute. reflexivity. Qed.

(** A listed name without a colon above the node's own address stops the
    refresh with [ValueError]. *)
Example refreshConnections_malformed :
  raised (refreshConnections Peer_close_by_id example_net ["localhost"])
    = Some ValueError.
Proof. vm_compute. reflexivity. Qed.

(** C9 as stated does not hold for every discovery list.  The list here
    names one address, an IPv6 one with its port; it is not active and the
    node's own address is strictly below it, yet no connection is
    initiated: the unpacking of its four pieces into [ip, port] raises
    [ValueError]. *)
Lemma refreshConnections_unpack_raises :
  let r := refreshConnections Peer_close_by_id example_net ["::1:38291"] in
  String.ltb (format_ip_port (ip example_net) (port example_net)) "::1:38291"
    = true
  ∧ ("::1:38291" ∉ active_of (pool_after r))
  ∧ split ":" "::1:38291" = [""; ""; "1"; "38291"]
  ∧ connecting r = []
  ∧ raised r = Some ValueError.
Proof.
  repeat split; try (vm_compute; reflexivity).
  vm_compute. intros Hin. by apply elem_of_nil in Hin.
Qed.

(** The list of the example with a name that has no colon and lies below
    the node's own address: the name is passed over, nothing is raised. *)
Lemma refreshConnections_policy_witness :
  let r := refreshConnections Peer_close_by_id example_net
             ("#seed" :: example_peers) in
  raised r = None ∧ connecting r = [("10.0.0.5", "38291")].
Proof.
  pose proof (proj2
    (refreshConnections_policy Peer_close_by_id example_net
       ("#seed" :: example_peers))) as Hpolicy.
  cbv zeta in Hpolicy. destruct Hpolicy as (Hraised & _ & _).
  - intros a Ha _ Hlt.
    repeat (apply elem_of_cons in Ha as [->|Ha]);
      [discriminate Hlt|by eexists _, _..| |].
    + by eexists _, _.
    + by apply elem_of_nil in Ha.
  - split; [exact Hraised|]. vm_compute. reflexivity.
Defined.

(** ** More of the refresh *)

(** The second loop on any list of names: it ends without an exception
    or with [ValueError], the latter exactly when some name above the
    node's own address does not unpack, and what it schedules are unpacked
    names above the node's own address. *)
Lemma connect_loop_any self todo : ∀ scheduled,
  let r := connect_loop self todo scheduled in
  (r.2 = None ∨ r.2 = Some ValueError)
  ∧ (r.2 = Some ValueError
     ↔ ∃ a, a ∈ todo ∧ String.ltb self a = true ∧ unpack_ip_port a = None)
  ∧ (∀ pair, pair ∈ r.1 →
       pair ∈ scheduled
       ∨ ∃ a, a ∈ todo ∧ String.ltb self a = true ∧ unpack_ip_port a = Some pair).
Proof.
  induction todo as [|a todo IH]; intros scheduled; cbn [connect_loop].
  - cbn. split; [by left|]. split; [|by left]. split; [done|].
    intros (a & Ha & _). by apply elem_of_nil in Ha.
  - destruct (String.ltb self a) eqn:Hlt.
    + destruct (unpack_ip_port a) as [[ip0 port0]|] eqn:Hpair.
      * assert (split ":" a = [ip0; port0]) as ->.
        { unfold unpack_ip_port in Hpair.
          destruct (split ":" a) as [|? [|? [|? ?]]]; congruence. }
        destruct (IH (scheduled ++ [(ip0, port0)])) as (Hexn & Hvalue & Hsched).
        split; [done|]. split.
        -- rewrite Hvalue. split.
           ++ intros (b & Hb & Hrest). exists b. split; [|done].
              by apply list_elem_of_further.
           ++ intros (b & Hb & Hltb & Hnone). exists b.
              apply elem_of_cons in Hb as [->|Hb]; [congruence|done].
        -- intros pair Hin. destruct (Hsched pair Hin) as [Hold|(b & Hb & Hrest)].
           ++ apply elem_of_app in Hold as [Hold|Hnew]; [by left|].
              apply list_elem_of_singleton in Hnew as ->. right. exists a.
              split; [apply list_elem_of_here|done].
           ++ right. exists b. split; [by apply list_elem_of_further|done].
      * assert (connect_loop_stops :
                  match split ":" a with
                  | [ip; port] =>
                      connect_loop self todo (scheduled ++ [(ip, port)])
                  | _ => (scheduled, Some ValueError)
                  end = (scheduled, Some ValueError)).
        { unfold unpack_ip_port in Hpair.
          by destruct (split ":" a) as [|? [|? [|? ?]]]. }
        rewrite connect_loop_stops. cbn. split; [by right|]. split; [|by left].
        split; [|done]. intros _. exists a. split; [apply list_elem_of_here|done].
    + destruct (IH scheduled) as (Hexn & Hvalue & Hsched).
      split; [done|]. split.
      * rewrite Hvalue. split.
        -- intros (b & Hb & Hrest). exists b. split; [|done].
           by apply list_elem_of_further.
        -- intros (b & Hb & Hltb & Hnone). exists b.
           apply elem_of_cons in Hb as [->|Hb]; [congruence|done].
      * intros pair Hin. destruct (Hsched pair Hin) as [Hold|(b & Hb & Hrest)];
          [by left|].
        right. exists b. split; [by apply list_elem_of_further|done].
Qed.

Lemma ltb_irrefl (s : string) : String.ltb s s = false.
Proof.
  unfold String.ltb. assert (String.compare s s = Eq) as ->; [|done].
  induction s as [|c s IH]; cbn; [done|].
  unfold Ascii.compare. by rewrite N.compare_refl.
Qed.

(** X19.  Whatever the discovery list holds and whatever [Peer.close]
    does, a refresh closes exactly the active peers whose address is not
    listed, and then ends without an exception or with [ValueError]; it
    ends with [ValueError] exactly when some listed name that is not
    active and lies strictly above the node's own address does not split
    at [":"] into two pieces.  Every connection it schedules goes to a
    listed address that is not active and lies strictly above the node's
    own, and so never to the node itself. *)
Theorem refreshConnections_on_any_list
    (Peer_close : PeerPool → Peer → PeerPool) (net : P2PNetwork)
    (peers : list string) :
  let r := refreshConnections Peer_close net peers in
  let self_ip_port := format_ip_port (ip net) (port net) in
  (∀ peer, peer ∈ closed r ↔
             (peer ∈ (activePeerPool net).*2 ∧ ip_port_of peer ∉ peers))
  ∧ (raised r = None ∨ raised r = Some ValueError)
  ∧ (raised r = Some ValueError
     ↔ ∃ a, a ∈ peers ∧ (a ∉ active_of (pool_after r))
            ∧ String.ltb self_ip_port a = true ∧ unpack_ip_port a = None)
  ∧ (∀ pair, pair ∈ connecting r →
       ∃ a, a ∈ peers ∧ (a ∉ active_of (pool_after r))
            ∧ String.ltb self_ip_port a = true ∧ a ≠ self_ip_port
            ∧ unpack_ip_port a = Some pair).
Proof.
  intros r self_ip_port.
  set (todo := to_be_connected peers
                 (active_of (foldl Peer_close (activePeerPool net)
                    (to_be_disconnected (activePeerPool net) peers)))).
  assert (Htodo : ∀ a, a ∈ todo ↔
            a ∈ peers ∧ a ∉ active_of (pool_after r)).
  { intros a. unfold todo, to_be_connected.
    rewrite elem_of_elements, elem_of_difference, !elem_of_list_to_set.
    subst r. unfold refreshConnections.
    by destruct (connect_loop _ _ _). }
  destruct (connect_loop_any self_ip_port todo []) as (Hexn & Hvalue & Hsched).
  assert (Hr : connecting r = (connect_loop self_ip_port todo []).1
             ∧ raised r = (connect_loop self_ip_port todo []).2
             ∧ closed r = to_be_disconnected (activePeerPool net) peers).
  { subst r. unfold refreshConnections. fold todo. fold self_ip_port.
    by destruct (connect_loop self_ip_port todo []). }
  destruct Hr as (Hconn & Hraised & Hclosed).
  rewrite Hraised. split; [|split; [done|split]].
  - intros peer. rewrite Hclosed. unfold to_be_disconnected.
    rewrite list_elem_of_filter. tauto.
  - rewrite Hvalue. split.
    + intros (a & Ha & Hrest). exists a. apply Htodo in Ha as [? ?]. tauto.
    + intros (a & Ha & Hna & Hrest). exists a. split; [|done]. by apply Htodo.
  - intros pair Hin. rewrite Hconn in Hin.
    destruct (Hsched pair Hin) as [Hnil|(a & Ha & Hlt & Hpair)];
      [by apply elem_of_nil in Hnil|].
    exists a. apply Htodo in Ha as [? ?]. repeat split; try done.
    intros ->. by rewrite ltb_irrefl in Hlt.
Qed.

(** With [Peer.close] the removal of the peer's own entry and every peer
    filed under its id, only peers with a listed address are left after
    the closes. *)
Lemma pool_after_listed (net : P2PNetwork) (peers : list string) entry :
  Forall (λ entry, entry.1 = peer_id entry.2) (activePeerPool net) →
  entry ∈ pool_after (refreshConnections Peer_close_by_id net peers) →
  ip_port_of entry.2 ∈ peers.
Proof.
  intros Hkeys.
  assert (pool_after (refreshConnections Peer_close_by_id net peers)
          = foldl Peer_close_by_id (activePeerPool net)
              (to_be_disconnected (activePeerPool net) peers)) as ->.
  { unfold refreshConnections. by destruct (connect_loop _ _ _). }
  intros [Hin Hkept]%elem_of_closed_by_id.
  destruct (decide (ip_port_of entry.2 ∈ peers)) as [|Hno]; [done|].
  destruct (Hkept entry.2).
  - apply list_elem_of_filter. split; [done|].
    by apply (list_elem_of_fmap_2 snd).
  - rewrite Forall_forall in Hkeys. by apply Hkeys.
Qed.

(** X20.  With [Peer.close] the removal of the peer's own entry and every
    peer filed under its id, a refresh repeated with the same discovery
    list before any of the scheduled connections is established closes no
    one, leaves the pool as it is, and schedules the same connections once
    more (or raises the same [ValueError]). *)
Theorem refreshConnections_again (net : P2PNetwork) (peers : list string) :
  Forall (λ entry, entry.1 = peer_id entry.2) (activePeerPool net) →
  let r := refreshConnections Peer_close_by_id net peers in
  refreshConnections Peer_close_by_id
    {| activePeerPool := pool_after r; ip := ip net; port := port net |} peers
  = {| closed := []; pool_after := pool_after r;
       connecting := connecting r; raised := raised r |}.
Proof.
  intros Hkeys r.
  assert (Hnone : to_be_disconnected (pool_after r) peers = []).
  { unfold to_be_disconnected.
    destruct (filter _ _) as [|peer rest] eqn:Hf; [done|].
    assert (Hin : peer ∈ filter (λ peer, ip_port_of peer ∉ peers)
                           (pool_after r).*2)
      by (rewrite Hf; apply list_elem_of_here).
    apply list_elem_of_filter in Hin as [Hno Hpeer].
    apply list_elem_of_fmap in Hpeer as (entry & -> & Hentry).
    destruct Hno. by apply (pool_after_listed net peers entry). }
  assert (Hpool : pool_after r
                  = foldl Peer_close_by_id (activePeerPool net)
                      (to_be_disconnected (activePeerPool net) peers)).
  { subst r. unfold refreshConnections. by destruct (connect_loop _ _ _). }
  assert (Hloop : (connecting r, raised r)
                  = connect_loop (format_ip_port (ip net) (port net))
                      (to_be_connected peers (active_of (pool_after r))) []).
  { rewrite Hpool. subst r. unfold refreshConnections.
    by destruct (connect_loop _ _ _). }
  unfold refreshConnections at 1. cbn [activePeerPool ip port].
  rewrite Hnone. cbn [foldl]. by rewrite <- Hloop.
Qed.

Lemma refreshConnections_again_witness :
  refreshConnections Peer_close_by_id
    {| activePeerPool := [(2, mkPeer 2 "10.0.0.9" 38291)];
       ip := "10.0.0.2"; port := 38291 |} example_peers
  = {| closed := [];
       pool_after := [(2, mkPeer 2 "10.0.0.9" 38291)];
       connecting := [("10.0.0.5", "38291")];
       raised := None |}.
Proof.
  refine (refreshConnections_again example_net example_peers _).
  repeat constructor.
Defined.

End P2P.

(* ===================================================================== *)
(** * The cluster configuration file *)
(* ===================================================================== *)

Module Config.

(** The ["master"] object of the configuration. *)
Record MasterConfig := mkMasterConfig {
  db_path_root : string;
  server_port : Z;
  json_rpc_port : Z;
  seed_host : string;
  seed_port : Z;
  devp2p : bool;
  devp2p_port : Z;
  devp2p_bootstrap_host : string;
  devp2p_bootstrap_port : Z;
  devp2p_min_peers : Z;
  devp2p_max_peers : Z
}.

(** One entry of the ["slaves"] array. *)
Record SlaveConfig := mkSlaveConfig {
  id : string;
  ip : string;
  port : Z;
  shard_masks : list Z;
  slave_db_path_root : string
}.

(** A well-formed configuration: every key the code reads is there. *)
Record t := mkConfig {
  master : MasterConfig;
  slaves : list SlaveConfig
}.

End Config.

(* ===================================================================== *)
(** * quarkchain/cluster/cluster.py *)
(* ===================================================================== *)

Module Supervisor.
Import Py.

(** ** The operating system, as [psutil] and [asyncio.subprocess] show it *)

(** The signals of [signal]; [kill_child_processes] takes any of them and
    has [SIGTERM] for its default. *)
Inductive Signal := SIGTERM | SIGKILL | SIGINT.

(** What has become of a process that was listed when the tree was read,
    by the time the caller gets to it: it is still running; it has exited
    and its parent has not waited for it yet (a zombie, still in the
    process table); or it has exited and has been waited for, and is
    gone. *)
Inductive Status := Running | Zombie | Gone.

#[export] Instance Status_eq_dec : EqDecision Status.
Proof. solve_decision. Defined.

(** A process of the system's process tree, its children in the order the
    process table gives them. *)
#[local] Unset Elimination Schemes.
Inductive Proc :=
| mkProc (pid : Z) (cmdline : list string) (status : Status) (kids : list Proc).
#[local] Set Elimination Schemes.

Definition pid (p : Proc) : Z := let '(mkProc n _ _ _) := p in n.
Definition proc_cmdline (p : Proc) : list string := let '(mkProc _ c _ _) := p in c.
Definition status (p : Proc) : Status := let '(mkProc _ _ s _) := p in s.
Definition kids (p : Proc) : list Proc := let '(mkProc _ _ _ k) := p in k.

(** [Process.children(recursive=True)], as [psutil] computes it:
<<
    stack = [self.pid]
    while stack:
        pid = stack.pop()
        ...
        for child_pid in reverse_ppid_map[pid]:
            ...
            ret.append(child)
            stack.append(child_pid)
>>
    The children of a process are listed together when the process is
    taken off the stack, and the stack gives back the child pushed last
    first: the children of [p], then what the last child brings, then what
    the one before it brings, and so on.  (Releases of [psutil] that walk
    the same table first in, first out list the same processes, the
    children of [p] first as well.) *)
Fixpoint children_recursive (p : Proc) : list Proc :=
  match p with
  | mkProc _ _ _ ks =>
      ks ++ (fix later (l : list Proc) : list Proc :=
               match l with
               | [] => []
               | k :: l' => later l' ++ children_recursive k
               end) ks
  end.

(** The process with the given pid in the tree under [p], [p] included. *)
Fixpoint find_proc (target : Z) (p : Proc) : option Proc :=
  match p with
  | mkProc n _ _ ks =>
      if n =? target then Some p
      else (fix among (l : list Proc) : option Proc :=
              match l with
              | [] => None
              | k :: l' =>
                  match find_proc target k with
                  | Some found => Some found
                  | None => among l'
                  end
              end) ks
  end.

(** The tree with [child] added as the last child of process [parent]. *)
Fixpoint add_child (parent : Z) (child : Proc) (p : Proc) : Proc :=
  match p with
  | mkProc n c e ks =>
      let ks' := map (add_child parent child) ks in
      mkProc n c e (if n =? parent then ks' ++ [child] else ks')
  end.

Record Os := mkOs {
  getpid : Z;                      (* [os.getpid()] *)
  init : Proc;                     (* the root of the process tree *)
  next_pid : Z;                    (* the pid the next spawn gets *)
  stdout : list string;            (* the lines printed so far *)
  signals : list (Z * Signal)      (* the signals sent so far, oldest first *)
}.

(** A [asyncio.subprocess.Process] handle. *)
Record Process := mkProcess { handle_pid : Z; args : list string }.

(** ** [class Cluster] *)

Record Cluster := mkCluster {
  config : Config.t;
  configFilePath : string;
  procs : list (string * Process);
  shutdownCalled : bool;
  mine : bool;
  clean : bool;
  clusterID : string
}.

(** [Cluster.__init__(self, config, configFilePath, mine, clean, clusterID='')]. *)
Definition Cluster_init (config : Config.t) (configFilePath : string)
    (mine clean : bool) (clusterID : string) : Cluster :=
  {| config := config; configFilePath := configFilePath; procs := [];
     shutdownCalled := false; mine := mine; clean := clean;
     clusterID := clusterID |}.

(** The supervisor object and the system it runs on. *)
Record State := mkState { self : Cluster; os : Os }.

(** Code that reads and writes the state and returns or raises; what was
    printed, sent or stored before an exception stays. *)
Definition M (A : Type) : Type := State → Result A * State.

Definition ret {A} (a : A) : M A := λ st, (Ok a, st).

Definition bind {A B} (k : A → M B) (m : M A) : M B :=
  λ st, match m st with
        | (Ok a, st') => k a st'
        | (Raise e, st') => (Raise e, st')
        end.

#[export] Instance M_ret : MRet M := @ret.
#[export] Instance M_bind : MBind M := @bind.

Definition lift {A} (r : Result A) : M A := λ st, (r, st).

(** The state with [lines] printed and [sigs] sent on top of what was. *)
Definition emit (lines : list string) (sigs : list (Z * Signal)) (st : State) : State :=
  {| self := self st;
     os := {| getpid := getpid (os st); init := init (os st);
              next_pid := next_pid (os st);
              stdout := stdout (os st) ++ lines;
              signals := signals (os st) ++ sigs |} |}.

(** [print(line)]. *)
Definition print (line : string) : M unit :=
  λ st, (Ok tt, emit [line] [] st).

(** [psutil.Process(pid)]. *)
Definition psutil_Process (n : Z) : M Proc :=
  λ st, match find_proc n (init (os st)) with
        | Some p => (Ok p, st)
        | None => (Raise (NoSuchProcess n), st)
        end.

(** [process.cmdline()]: [ZombieProcess] for a zombie, [NoSuchProcess]
    for a process that is gone. *)
Definition cmdline (p : Proc) : M (list string) :=
  match status p with
  | Running => ret (proc_cmdline p)
  | Zombie => lift (Raise (ZombieProcess (pid p)))
  | Gone => lift (Raise (NoSuchProcess (pid p)))
  end.

(** [process.send_signal(sig)]: [os.kill(pid, sig)], which succeeds for
    every process still in the process table, a zombie included, and
    fails for one that is gone, for which [psutil] raises
    [NoSuchProcess]. *)
Definition send_signal (p : Proc) (sig : Signal) : M unit :=
  match status p with
  | Running | Zombie => λ st, (Ok tt, emit [] [(pid p, sig)] st)
  | Gone => lift (Raise (NoSuchProcess (pid p)))
  end.

(** [try: body except Exception: pass]. *)
Definition try_pass (body : M unit) : M unit :=
  λ st, match body st with
        | (Ok _, st') => (Ok tt, st')
        | (Raise _, st') => (Ok tt, st')
        end.

(** [for x in l: body(x)]. *)
Fixpoint for_each {A} (l : list A) (body : A → M unit) : M unit :=
  match l with
  | [] => ret tt
  | x :: rest => body x;; for_each rest body
  end.

Definition banner : string :=
  "================================ SHUTTING DOWN CLUSTER ================================".

(** The body of the loop of [kill_child_processes]:
<<
        try:
            print("SIGTERM >>> " + " ".join(process.cmdline()[1:]))
        except Exception:
            pass
        process.send_signal(sig)
>> *)
Definition kill_one (sig : Signal) (process : Proc) : M unit :=
  try_pass (c ← cmdline process;
            print ("SIGTERM >>> " +:+ join " " (tail c)));;
  send_signal process sig.

(** [kill_child_processes(parent_pid, sig=signal.SIGTERM)]:
<<
    try:
        parent = psutil.Process(parent_pid)
    except psutil.NoSuchProcess:
        return
    children = parent.children(recursive=True)
    print("==== ... SHUTTING DOWN CLUSTER ... ====")
    for process in children:
        ...
>> *)
Definition kill_child_processes (parent_pid : Z) (sig : Signal) : M unit :=
  λ st, match psutil_Process parent_pid st with
        | (Raise _, st') => (Ok tt, st')
        | (Ok parent, st') =>
            (let children := children_recursive parent in
             print banner;;
             for_each children (kill_one sig)) st'
        end.

(** [asyncio.create_subprocess_exec(argv...)]: a new child of this
    process. *)
Definition create_subprocess_exec (argv : list string) : M Process :=
  λ st,
    let o := os st in
    let child := mkProc (next_pid o) argv Running [] in
    (Ok {| handle_pid := next_pid o; args := argv |},
     {| self := self st;
        os := {| getpid := getpid o;
                 init := add_child (getpid o) child (init o);
                 next_pid := next_pid o + 1;
                 stdout := stdout o; signals := signals o |} |}).

(** The names bound at the top level of [cluster.py]: its imports, its two
    constants, its functions and its class. *)
Definition module_globals : list (string * Value) :=
  [("argparse", VObject "module argparse"); ("asyncio", VObject "module asyncio");
   ("json", VObject "module json"); ("os", VObject "module os");
   ("tempfile", VObject "module tempfile"); ("signal", VObject "module signal");
   ("psutil", VObject "module psutil");
   ("subprocess", VObject "module asyncio.subprocess");
   ("DEFAULT_ENV", VObject "DEFAULT_ENV");
   ("create_cluster_config", VObject "function create_cluster_config");
   ("is_p2", VObject "function is_p2");
   ("IP", VStr "127.0.0.1"); ("PORT", VInt 38000);
   ("kill_child_processes", VObject "function kill_child_processes");
   ("dump_config_to_file", VObject "function dump_config_to_file");
   ("run_master", VObject "function run_master");
   ("run_slave", VObject "function run_slave");
   ("print_output", VObject "function print_output");
   ("Cluster", VObject "class Cluster"); ("main", VObject "function main")].

(** A name a function body reads without binding it is looked up in the
    module (no builtin is called [dbPath]); a name found nowhere raises
    [NameError]. *)
Definition load_global (name : string) : Result Value :=
  match list_find (λ entry, entry.1 = name) module_globals with
  | Some (_, (_, v)) => Ok v
  | None => Raise (NameError name)
  end.

Definition master_template : string :=
  "python master.py --cluster_config={} --db_path_root={} " +:+
  "--server_port={} --local_port={} --seed_host={} --seed_port={} " +:+
  "--devp2p_port={} --devp2p_bootstrap_host={} " +:+
  "--devp2p_bootstrap_port={} --devp2p_min_peers={} --devp2p_max_peers={}".

(** [run_master(configFilePath, dbPathRoot, serverPort, jsonRpcPort,
    seedHost, seedPort, mine, clean, **kwargs)].  The parameters are the
    binders of the same names; the second argument of [format] is the name
    [dbPath], which is none of them, and the arguments are evaluated left
    to right before [format] is called. *)
Definition run_master (configFilePath dbPathRoot : string)
    (serverPort jsonRpcPort : Z) (seedHost : string) (seedPort : Z)
    (mine clean : bool) (kwargs : list (string * Value)) : M Process :=
  dbPath ← lift (load_global "dbPath");
  k_port ← lift (subscript kwargs "devp2p_port");
  k_host ← lift (subscript kwargs "devp2p_bootstrap_host");
  k_bport ← lift (subscript kwargs "devp2p_bootstrap_port");
  k_min ← lift (subscript kwargs "devp2p_min_peers");
  k_max ← lift (subscript kwargs "devp2p_max_peers");
  cmd ← lift (format master_template
                [VStr configFilePath; dbPath; VInt serverPort; VInt jsonRpcPort;
                 VStr seedHost; VInt seedPort;
                 k_port; k_host; k_bport; k_min; k_max]);
  let cmd := if mine then cmd +:+ " --mine=true" else cmd in
  k_devp2p ← lift (subscript kwargs "devp2p");
  let cmd := if truthy k_devp2p then cmd +:+ " --devp2p=true" else cmd in
  let cmd := if clean then cmd +:+ " --clean=true" else cmd in
  create_subprocess_exec (split " " cmd).

(** [run_slave(port, id, shardMaskList, dbPathRoot, clean)]. *)
Definition run_slave (port : Z) (id : string) (shardMaskList : list Z)
    (dbPathRoot : string) (clean : bool) : M Process :=
  mask ← lift (match shardMaskList with
               | [] => Raise IndexError
               | m :: _ => Ok m
               end);
  cmd ← lift (format
    "pypy3 slave.py --node_port={} --shard_mask={} --node_id={} --db_path_root={}"
    [VInt port; VInt mask; VStr id; VStr dbPathRoot]);
  let cmd := if clean then cmd +:+ " --clean=true" else cmd in
  create_subprocess_exec (split " " cmd).

(** [self.procs.append((prefix, proc))]. *)
Definition procs_append (prefix : string) (proc : Process) : M unit :=
  λ st,
    let c := self st in
    (Ok tt,
     {| self := {| config := config c; configFilePath := configFilePath c;
                   procs := procs c ++ [(prefix, proc)];
                   shutdownCalled := shutdownCalled c;
                   mine := mine c; clean := clean c; clusterID := clusterID c |};
        os := os st |}).

(** [Cluster.runMaster(self)].  The task that relays the child's output
    ([print_output]) touches nothing the supervisor decides on and is left
    out. *)
Definition runMaster : M unit :=
  λ st,
    let c := self st in
    let m := Config.master (config c) in
    (master ← run_master (configFilePath c) (Config.db_path_root m)
               (Config.server_port m) (Config.json_rpc_port m)
               (Config.seed_host m) (Config.seed_port m) (mine c) (clean c)
               [("devp2p", VBool (Config.devp2p m));
                ("devp2p_port", VInt (Config.devp2p_port m));
                ("devp2p_bootstrap_host", VStr (Config.devp2p_bootstrap_host m));
                ("devp2p_bootstrap_port", VInt (Config.devp2p_bootstrap_port m));
                ("devp2p_min_peers", VInt (Config.devp2p_min_peers m));
                ("devp2p_max_peers", VInt (Config.devp2p_max_peers m))];
     let prefix := clusterID c +:+ "MASTER" in
     procs_append prefix master) st.

(** [Cluster.runSlaves(self)]. *)
Definition runSlaves : M unit :=
  λ st,
    let c := self st in
    for_each (Config.slaves (config c)) (λ slave,
      s ← run_slave (Config.port slave) (Config.id slave)
            (Config.shard_masks slave) (Config.slave_db_path_root slave)
            (clean c);
      let prefix := clusterID c +:+ "SLAVE_" +:+ Config.id slave in
      procs_append prefix s) st.

(** [self.shutdownCalled = True]. *)
Definition mark_shutdown (st : State) : State :=
  {| self := {| config := config (self st);
                configFilePath := configFilePath (self st);
                procs := procs (self st); shutdownCalled := true;
                mine := mine (self st); clean := clean (self st);
                clusterID := clusterID (self st) |};
     os := os st |}.

(** [Cluster.shutdown(self)]:
<<
    self.shutdownCalled = True
    kill_child_processes(os.getpid())
>> *)
Definition shutdown : M unit :=
  λ st, kill_child_processes (getpid (os st)) SIGTERM (mark_shutdown st).

(** [Cluster.waitAndShutdown(self, prefix, proc)] from the point where
    [await proc.wait()] has returned, that is, once the process is seen to
    have exited:
<<
    if self.shutdownCalled:
        return
    print("{} is dead. Shutting down the cluster...".format(prefix))
    await self.shutdown()
>> *)
Definition waitAndShutdown (prefix : string) : M unit :=
  λ st,
    if shutdownCalled (self st) then (Ok tt, st)
    else (print (prefix +:+ " is dead. Shutting down the cluster...");;
          shutdown) st.

(** [asyncio.gather] over one [waitAndShutdown] per tracked process: each
    of them resumes when its process exits, so they run in the order
    [exits] in which the processes exit (given by their prefixes), each to
    its end since nothing in it suspends; the first exception ends
    [run]. *)
Definition gather_waitAndShutdown (exits : list string) : M unit :=
  for_each exits waitAndShutdown.

(** [Cluster.run(self)]. *)
Definition run (exits : list string) : M unit :=
  runMaster;; runSlaves;; gather_waitAndShutdown exits.

(** ** The vocabulary of the properties *)

(** [d] is a child of [p], or a child of a child, and so on. *)
Inductive Descendant : Proc → Proc → Prop :=
| Descendant_child p k : k ∈ kids p → Descendant p k
| Descendant_deeper p k d : k ∈ kids p → Descendant k d → Descendant p d.

(** The line the loop prints for a process. *)
Definition sigterm_line (p : Proc) : string :=
  "SIGTERM >>> " +:+ join " " (tail (proc_cmdline p)).

Definition dead_line (prefix : string) : string :=
  prefix +:+ " is dead. Shutting down the cluster...".

(** What the loop prints when it gets to a process: its line if it is
    still running, nothing if [cmdline] raised. *)
Definition printed (p : Proc) : list string :=
  match status p with
  | Running => [sigterm_line p]
  | Zombie | Gone => []
  end.

(** What a pass of the loop over [ds] that gets to its end prints, and
    the signals it sends. *)
Definition lines_of (ds : list Proc) : list string := ds ≫= printed.

Definition signals_to (sig : Signal) (ds : list Proc) : list (Z * Signal) :=
  (λ d, (pid d, sig)) <$> ds.

(** What [children_recursive] lists after the children themselves. *)
Definition brought_later (ks : list Proc) : list Proc :=
  foldr (λ k later, later ++ children_recursive k) [] ks.

(** Induction on a process tree. *)
Fixpoint Proc_tree_ind (P : Proc → Prop)
    (step : ∀ n c e ks, Forall P ks → P (mkProc n c e ks)) (p : Proc) : P p :=
  match p with
  | mkProc n c e ks =>
      step n c e ks
        ((fix all (l : list Proc) : Forall P l :=
            match l with
            | [] => @List.Forall_nil _ P
            | k :: l' =>
                @List.Forall_cons _ P k l' (Proc_tree_ind P step k) (all l')
            end) ks)
  end.

(** ** Properties of the supervisor *)

(** The children come first in the listing. *)
Lemma children_recursive_unfold p :
  children_recursive p = kids p ++ brought_later (kids p).
Proof.
  destruct p as [n c e ks]. reflexivity.
Qed.

Lemma elem_of_brought_later d ks :
  d ∈ brought_later ks ↔ ∃ k, k ∈ ks ∧ d ∈ children_recursive k.
Proof.
  induction ks as [|k ks IH]; cbn.
  - split; [by intros ?%elem_of_nil|]. by intros (k & ?%elem_of_nil & _).
  - rewrite elem_of_app, IH. split.
    + intros [(k' & Hk' & Hd)|Hd].
      * exists k'. split; [by apply list_elem_of_further|done].
      * exists k. split; [apply list_elem_of_here|done].
    + intros (k' & Hk' & Hd). apply elem_of_cons in Hk' as [->|Hk'].
      * by right.
      * left. by exists k'.
Qed.

Lemma children_recursive_complete p d :
  Descendant p d → d ∈ children_recursive p.
Proof.
  induction 1 as [p k Hk|p k d Hk _ IH];
    rewrite children_recursive_unfold; apply elem_of_app.
  - by left.
  - right. apply elem_of_brought_later. by exists k.
Qed.

Lemma children_recursive_sound p : ∀ d,
  d ∈ children_recursive p → Descendant p d.
Proof.
  induction p as [n c e ks IH] using Proc_tree_ind. intros d Hd.
  rewrite children_recursive_unfold in Hd. cbn [kids] in Hd.
  apply elem_of_app in Hd as [Hd|Hd].
  - by apply Descendant_child.
  - apply elem_of_brought_later in Hd as (k & Hk & Hd).
    eapply Descendant_deeper; [exact Hk|].
    rewrite Forall_forall in IH. by apply IH.
Qed.

Lemma emit_nil st : emit [] [] st = st.
Proof. destruct st as [c [? ? ? ? ?]]. unfold emit; cbn. by rewrite !app_nil_r. Qed.

Lemma emit_emit l1 s1 l2 s2 st :
  emit l2 s2 (emit l1 s1 st) = emit (l1 ++ l2) (s1 ++ s2) st.
Proof. unfold emit; cbn. by rewrite !app_assoc. Qed.

(** A process still in the process table is signalled, and its line is
    printed if it is running. *)
Lemma kill_one_present sig p st :
  status p ≠ Gone →
  kill_one sig p st = (Ok tt, emit (printed p) [(pid p, sig)] st).
Proof.
  intros Hp.
  unfold kill_one, try_pass, cmdline, send_signal, printed, mbind, M_bind, bind.
  destruct (status p); [| |done]; cbn.
  - by rewrite emit_emit.
  - done.
Qed.

Lemma kill_one_gone sig p st :
  status p = Gone → kill_one sig p st = (Raise (NoSuchProcess (pid p)), st).
Proof.
  intros Hp. unfold kill_one, try_pass, cmdline, send_signal, mbind, M_bind, bind.
  by rewrite Hp.
Qed.

Lemma kill_loop_present sig ds : ∀ st,
  Forall (λ d, status d ≠ Gone) ds →
  for_each ds (kill_one sig) st =
    (Ok tt, emit (lines_of ds) (signals_to sig ds) st).
Proof.
  induction ds as [|d ds IH]; intros st Hds.
  - cbn. by rewrite emit_nil.
  - apply Forall_cons in Hds as [Hd Hds]. cbn [for_each].
    unfold mbind, M_bind, bind. rewrite kill_one_present by done.
    rewrite IH by done. by rewrite emit_emit.
Qed.

(** The loop over processes of which the first that is gone is [gone]. *)
Lemma kill_loop_stops sig before gone rest : ∀ st,
  Forall (λ d, status d ≠ Gone) before →
  status gone = Gone →
  for_each (before ++ gone :: rest) (kill_one sig) st
  = (Raise (NoSuchProcess (pid gone)),
     emit (lines_of before) (signals_to sig before) st).
Proof.
  induction before as [|d before IH]; intros st Hbefore Hgone; cbn [app for_each].
  - unfold mbind, M_bind, bind. rewrite kill_one_gone by done.
    cbn. by rewrite emit_nil.
  - apply Forall_cons in Hbefore as [Hd Hbefore].
    unfold mbind, M_bind, bind. rewrite kill_one_present by done.
    fold (@mbind M _ unit unit). unfold mbind, M_bind, bind in IH.
    rewrite IH by done. by rewrite emit_emit.
Qed.

(** Whether the loop gets to its end or not, it signals the processes
    that come before the first one that is gone. *)
Lemma kill_loop_prefix sig before rest : ∀ st,
  Forall (λ d, status d ≠ Gone) before →
  ∃ more,
    signals (os (for_each (before ++ rest) (kill_one sig) st).2)
    = signals (os st) ++ signals_to sig before ++ more.
Proof.
  induction before as [|d before IH]; intros st Hbefore; cbn [app].
  - assert (Hloop : ∀ ds st0, ∃ more,
              signals (os (for_each ds (kill_one sig) st0).2)
              = signals (os st0) ++ more).
    { clear. induction ds as [|d ds IHds]; intros st0; cbn [for_each].
      - exists []. cbn. by rewrite app_nil_r.
      - unfold mbind, M_bind, bind.
        destruct (decide (status d = Gone)) as [Hd|Hd].
        + rewrite kill_one_gone by done. exists []. cbn. by rewrite app_nil_r.
        + rewrite kill_one_present by done.
          destruct (IHds (emit (printed d) [(pid d, sig)] st0)) as [more Hmore].
          exists ((pid d, sig) :: more). rewrite Hmore. cbn.
          by rewrite <- app_assoc. }
    destruct (Hloop rest st) as [more Hmore]. by exists more.
  - apply Forall_cons in Hbefore as [Hd Hbefore]. cbn [for_each].
    unfold mbind, M_bind, bind. rewrite kill_one_present by done.
    destruct (IH (emit (printed d) [(pid d, sig)] st) Hbefore) as [more Hmore].
    exists more. unfold mbind, M_bind, bind in Hmore. rewrite Hmore. cbn.
    by rewrite <- app_assoc.
Qed.

Lemma kill_child_processes_found parent_pid sig st parent :
  find_proc parent_pid (init (os st)) = Some parent →
  kill_child_processes parent_pid sig st =
    for_each (children_recursive parent) (kill_one sig) (emit [banner] [] st).
Proof.
  intros Hfind. unfold kill_child_processes, psutil_Process. by rewrite Hfind.
Qed.

Lemma shutdown_unfold st :
  shutdown st = kill_child_processes (getpid (os st)) SIGTERM (mark_shutdown st).
Proof. done. Qed.

Lemma for_each_self {A} (body : A → M unit) (l : list A) :
  (∀ x st, self (body x st).2 = self st) →
  ∀ st, self (for_each l body st).2 = self st.
Proof.
  intros Hbody. induction l as [|x l IH]; intros st; [done|].
  cbn [for_each]. unfold mbind, M_bind, bind.
  specialize (Hbody x st). destruct (body x st) as [[[]|e] st']; cbn in *.
  - by rewrite IH.
  - done.
Qed.

Lemma kill_one_self sig p st : self (kill_one sig p st).2 = self st.
Proof.
  destruct (decide (status p = Gone)) as [Hp|Hp].
  - by rewrite kill_one_gone.
  - by rewrite kill_one_present.
Qed.

Lemma kill_child_processes_self parent_pid sig st :
  self (kill_child_processes parent_pid sig st).2 = self st.
Proof.
  destruct (find_proc parent_pid (init (os st))) as [parent|] eqn:Hfind.
  - rewrite (kill_child_processes_found _ _ _ parent) by done.
    rewrite for_each_self; [done|]. apply kill_one_self.
  - unfold kill_child_processes, psutil_Process. by rewrite Hfind.
Qed.

(** Whether it returns or raises, [shutdown] leaves [shutdownCalled] set. *)
Lemma shutdown_marks st : shutdownCalled (self (shutdown st).2) = true.
Proof. by rewrite shutdown_unfold, kill_child_processes_self. Qed.

(** [shutdown] when this process is found and no descendant is gone when
    its turn comes. *)
Lemma shutdown_present st me :
  find_proc (getpid (os st)) (init (os st)) = Some me →
  Forall (λ d, status d ≠ Gone) (children_recursive me) →
  shutdown st =
    (Ok tt, emit (banner :: lines_of (children_recursive me))
                 (signals_to SIGTERM (children_recursive me))
                 (mark_shutdown st)).
Proof.
  intros Hfind Hrun. rewrite shutdown_unfold.
  rewrite (kill_child_processes_found _ _ _ me) by done.
  rewrite kill_loop_present by done. by rewrite emit_emit.
Qed.

(** [shutdown] when this process is found and [gone] is the first
    descendant listed that is gone when its turn comes. *)
Lemma shutdown_at_gone st me before gone rest :
  find_proc (getpid (os st)) (init (os st)) = Some me →
  children_recursive me = before ++ gone :: rest →
  Forall (λ d, status d ≠ Gone) before →
  status gone = Gone →
  shutdown st =
    (Raise (NoSuchProcess (pid gone)),
     emit (banner :: lines_of before) (signals_to SIGTERM before)
          (mark_shutdown st)).
Proof.
  intros Hfind Hsplit Hbefore Hgone. rewrite shutdown_unfold.
  rewrite (kill_child_processes_found _ _ _ me) by done.
  rewrite Hsplit, kill_loop_stops by done. by rewrite emit_emit.
Qed.

(** When no child of this process is gone, every child is signalled,
    whatever becomes of [shutdown] among the descendants of the children:
    the children are listed before their own descendants. *)
Lemma shutdown_children st me :
  find_proc (getpid (os st)) (init (os st)) = Some me →
  Forall (λ d, status d ≠ Gone) (kids me) →
  ∀ k, k ∈ kids me → (pid k, SIGTERM) ∈ signals (os (shutdown st).2).
Proof.
  intros Hfind Hkids k Hk. rewrite shutdown_unfold.
  rewrite (kill_child_processes_found _ _ _ me) by done.
  rewrite children_recursive_unfold.
  destruct (kill_loop_prefix SIGTERM (kids me) (brought_later (kids me))
              (emit [banner] [] (mark_shutdown st)) Hkids) as [more Hmore].
  rewrite Hmore. apply elem_of_app; right. apply elem_of_app; left.
  by apply (list_elem_of_fmap_2 (λ d, (pid d, SIGTERM))).
Qed.

(** *** Concrete systems *)

Definition example_config : Config.t :=
  {| Config.master :=
       {| Config.db_path_root := "./db"; Config.server_port := 38291;
          Config.json_rpc_port := 38391; Config.seed_host := "localhost";
          Config.seed_port := 38291; Config.devp2p := false;
          Config.devp2p_port := 29000;
          Config.devp2p_bootstrap_host := "0.0.0.0";
          Config.devp2p_bootstrap_port := 29000;
          Config.devp2p_min_peers := 2; Config.devp2p_max_peers := 10 |};
     Config.slaves :=
       [ {| Config.id := "S0"; Config.ip := "127.0.0.1"; Config.port := 38000;
            Config.shard_masks := [2]; Config.slave_db_path_root := "./db" |};
         {| Config.id := "S1"; Config.ip := "127.0.0.1"; Config.port := 38001;
            Config.shard_masks := [3]; Config.slave_db_path_root := "./db" |} ] |}.

(** The supervisor (pid 100) with a master (101), which has a child of its
    own (103), and a slave (102); a second slave (104) has exited, has
    been waited for and is no longer in the tree.  [master] and [slave]
    say what has become of the master and of the first slave between the
    reading of the tree and their turn to be signalled. *)
Definition example_me (master slave : Status) : Proc :=
  mkProc 100 ["python"; "cluster.py"] Running
    [ mkProc 101 ["python"; "master.py"] master
        [ mkProc 103 ["worker"] Running [] ];
      mkProc 102 ["pypy3"; "slave.py"; "--node_id=S0"] slave [] ].

Definition example_tree (master slave : Status) : Proc :=
  mkProc 1 ["init"] Running [example_me master slave].

Definition example_state (master slave : Status) (called : bool) : State :=
  {| self := {| config := example_config; configFilePath := "/tmp/cfg";
                procs := [("MASTER", mkProcess 101 ["python"; "master.py"]);
                          ("SLAVE_S0", mkProcess 102 ["pypy3"; "slave.py"; "--node_id=S0"]);
                          ("SLAVE_S1", mkProcess 104 ["pypy3"; "slave.py"; "--node_id=S1"])];
                shutdownCalled := called; mine := false; clean := false;
                clusterID := "" |};
     os := {| getpid := 100; init := example_tree master slave;
              next_pid := 105; stdout := []; signals := [] |} |}.

(** The children are signalled before the grandchild. *)
Example shutdown_example :
  signals (os (shutdown (example_state Running Running false)).2)
    = [(101, SIGTERM); (102, SIGTERM); (103, SIGTERM)].
Proof. vm_compute. reflexivity. Qed.

(** A zombie is signalled like a running process; only its line is not
    printed. *)
Example shutdown_zombie_example :
  shutdown (example_state Running Zombie false)
    = (Ok tt,
       emit [banner; "SIGTERM >>> master.py"; "SIGTERM >>> "]
            [(101, SIGTERM); (102, SIGTERM); (103, SIGTERM)]
            (mark_shutdown (example_state Running Zombie false))).
Proof. vm_compute. reflexivity. Qed.

(** *** Launching the master *)

(** C2.  [run_master] never gets to spawn anything: whatever it is given,
    it raises [NameError] for [dbPath] while evaluating the arguments of
    [format], and so do [Cluster.runMaster] and [Cluster.run], leaving no
    process spawned and none tracked. *)
Theorem run_master_raises_NameError :
  (∀ configFilePath dbPathRoot serverPort jsonRpcPort seedHost seedPort
     mine clean kwargs st,
     run_master configFilePath dbPathRoot serverPort jsonRpcPort seedHost
       seedPort mine clean kwargs st = (Raise (NameError "dbPath"), st))
  ∧ (∀ st, runMaster st = (Raise (NameError "dbPath"), st))
  ∧ (∀ exits st, run exits st = (Raise (NameError "dbPath"), st)).
Proof. by repeat split. Qed.

(** With [dbPath] bound to the [dbPathRoot] parameter the same body would
    build the command line the interface describes. *)
Example master_command_line_intended :
  format master_template
    [VStr "/tmp/cfg"; VStr "./db"; VInt 38291; VInt 38391; VStr "localhost";
     VInt 38291; VInt 29000; VStr "0.0.0.0"; VInt 29000; VInt 2; VInt 10]
  = Ok ("python master.py --cluster_config=/tmp/cfg --db_path_root=./db " +:+
        "--server_port=38291 --local_port=38391 --seed_host=localhost " +:+
        "--seed_port=38291 --devp2p_port=29000 " +:+
        "--devp2p_bootstrap_host=0.0.0.0 --devp2p_bootstrap_port=29000 " +:+
        "--devp2p_min_peers=2 --devp2p_max_peers=10").
Proof. vm_compute. reflexivity. Qed.

(** *** Shutdown *)




(** *** Supervising *)

Lemma waitAndShutdown_called prefix st :
  shutdownCalled (self st) = true → waitAndShutdown prefix st = (Ok tt, st).
Proof. intros Hc. unfold waitAndShutdown. by rewrite Hc. Qed.

Lemma waitAndShutdown_not_called prefix st :
  shutdownCalled (self st) = false →
  waitAndShutdown prefix st = shutdown (emit [dead_line prefix] [] st).
Proof. intros Hc. unfold waitAndShutdown. by rewrite Hc. Qed.

Lemma gather_called exits : ∀ st,
  shutdownCalled (self st) = true →
  gather_waitAndShutdown exits st = (Ok tt, st).
Proof.
  induction exits as [|prefix exits IH]; intros st Hc; [done|].
  unfold gather_waitAndShutdown in *. cbn [for_each].
  unfold mbind, M_bind, bind. rewrite waitAndShutdown_called by done.
  by apply IH.
Qed.

(** Once one exit has been handled, the exits after it change nothing,
    whether the shutdown it set off returned or raised. *)
Lemma gather_first prefix rest st :
  shutdownCalled (self st) = false →
  gather_waitAndShutdown (prefix :: rest) st = waitAndShutdown prefix st.
Proof.
  intros Hc. unfold gather_waitAndShutdown. cbn [for_each].
  unfold mbind, M_bind, bind.
  rewrite waitAndShutdown_not_called by done.
  pose proof (shutdown_marks (emit [dead_line prefix] [] st)) as Hmark.
  destruct (shutdown (emit [dead_line prefix] [] st)) as [[[]|e] st']; [|done].
  by apply gather_called.
Qed.

(** C7.  What the supervisor does when it sees processes exit.  When
    [shutdownCalled] is already set, nothing at all.  Otherwise the first
    exit seen sets off [shutdown], once, and [shutdownCalled] is set.
    That [shutdown] reaches every tracked process only if no descendant is
    gone when its turn comes: then it returns, with [SIGTERM] sent to
    every descendant, so to every tracked process that is a child of the
    supervisor.  If a descendant is gone at its turn (one that exited and
    was waited for after the tree was read), [send_signal], which stands
    outside the [try] that guards [cmdline], raises [NoSuchProcess]: the
    supervisor stops there, and the processes listed after that one,
    tracked and running as they may be, are sent no signal.  The children
    being listed before their own descendants, the tracked children are
    all signalled, whether [shutdown] then raises or not, as long as no
    child of the supervisor is gone. *)
Theorem first_exit_triggers_shutdown
    (st : State) (prefix : string) (rest : list string) :
  (shutdownCalled (self st) = true →
     ∀ exits, gather_waitAndShutdown exits st = (Ok tt, st))
  ∧ (shutdownCalled (self st) = false →
     gather_waitAndShutdown (prefix :: rest) st
       = shutdown (emit [dead_line prefix] [] st)
     ∧ shutdownCalled (self (gather_waitAndShutdown (prefix :: rest) st).2) = true
     ∧ ∀ me,
         find_proc (getpid (os st)) (init (os st)) = Some me →
         (Forall (λ d, status d ≠ Gone) (children_recursive me) →
            ∃ st',
              gather_waitAndShutdown (prefix :: rest) st = (Ok tt, st')
              ∧ signals (os st') =
                  signals (os st) ++ signals_to SIGTERM (children_recursive me)
              ∧ (∀ d, Descendant me d → (pid d, SIGTERM) ∈ signals (os st'))
              ∧ (∀ tracked k,
                   tracked ∈ procs (self st) → k ∈ kids me →
                   pid k = handle_pid tracked.2 →
                   (handle_pid tracked.2, SIGTERM) ∈ signals (os st')))
         ∧ (∀ before gone after,
              children_recursive me = before ++ gone :: after →
              Forall (λ d, status d ≠ Gone) before →
              status gone = Gone →
              ∃ st',
                gather_waitAndShutdown (prefix :: rest) st
                  = (Raise (NoSuchProcess (pid gone)), st')
                ∧ signals (os st') =
                    signals (os st) ++ signals_to SIGTERM before)
         ∧ (Forall (λ k, status k ≠ Gone) (kids me) →
            ∀ tracked k,
              tracked ∈ procs (self st) → k ∈ kids me →
              pid k = handle_pid tracked.2 →
              (handle_pid tracked.2, SIGTERM)
                ∈ signals (os (gather_waitAndShutdown (prefix :: rest) st).2))).
Proof.
  split; [intros Hc exits; by apply gather_called|]. intros Hc.
  rewrite gather_first, waitAndShutdown_not_called by done.
  split; [done|]. split; [apply shutdown_marks|].
  intros me Hfind. split; [|split].
  - intros Hrun.
    pose proof (shutdown_present (emit [dead_line prefix] [] st) me Hfind Hrun)
      as Hs.
    eexists. split; [exact Hs|].
    assert (Hall : ∀ d, Descendant me d →
              (pid d, SIGTERM) ∈
                (signals (os st) ++ []) ++
                signals_to SIGTERM (children_recursive me)).
    { intros d Hd. apply elem_of_app; right.
      apply (list_elem_of_fmap_2 (λ d, (pid d, SIGTERM))).
      by apply children_recursive_complete. }
    split; [cbn; by rewrite app_nil_r|]. split; [exact Hall|].
    intros tracked k _ Hk Hpid. rewrite <- Hpid.
    by apply Hall, Descendant_child.
  - intros before gone after Hsplit Hbefore Hgone.
    pose proof (shutdown_at_gone (emit [dead_line prefix] [] st) me before gone
                  after Hfind Hsplit Hbefore Hgone) as Hs.
    eexists. split; [exact Hs|]. cbn. by rewrite app_nil_r.
  - intros Hkids tracked k _ Hk Hpid. rewrite <- Hpid.
    by apply (shutdown_children (emit [dead_line prefix] [] st) me Hfind Hkids).
Qed.

(** The second slave exits first; by the time the supervisor gets to
    signalling, the master has exited as well and has been waited for.
    The supervisor raises, and the first slave, tracked and running, is
    sent no signal. *)
Lemma first_exit_triggers_shutdown_witness :
  ∃ st', gather_waitAndShutdown ["SLAVE_S1"; "MASTER"]
           (example_state Gone Running false)
           = (Raise (NoSuchProcess 101), st')
         ∧ ("SLAVE_S0", mkProcess 102 ["pypy3"; "slave.py"; "--node_id=S0"])
             ∈ procs (self st')
         ∧ signals (os st') = [].
Proof.
  destruct (first_exit_triggers_shutdown (example_state Gone Running false)
              "SLAVE_S1" ["MASTER"]) as [_ Hfirst].
  destruct (Hfirst eq_refl) as (Hgather & Hmark & Hsignals).
  destruct (Hsignals (example_me Gone Running) eq_refl) as (_ & Hstops & _).
  destruct (Hstops []
              (mkProc 101 ["python"; "master.py"] Gone
                 [ mkProc 103 ["worker"] Running [] ])
              [ mkProc 102 ["pypy3"; "slave.py"; "--node_id=S0"] Running [];
                mkProc 103 ["worker"] Running [] ])
    as (st' & Hs & Hsig).
  - reflexivity.
  - constructor.
  - reflexivity.
  - exists st'. split; [exact Hs|]. split; [|exact Hsig].
    assert (Hst' : st' = (gather_waitAndShutdown ["SLAVE_S1"; "MASTER"]
                            (example_state Gone Running false)).2)
      by (by rewrite Hs).
    rewrite Hst'. vm_compute. apply list_elem_of_further, list_elem_of_here.
Defined.

(** ** More of the supervisor *)

(** What [startAndLoop] does when [KeyboardInterrupt] reaches it:
<<
        except KeyboardInterrupt:
            try:
                asyncio.get_event_loop().run_until_complete(self.shutdown())
            except Exception:
                pass
>> *)
Definition on_KeyboardInterrupt : M unit := try_pass shutdown.

(** X8.  [shutdown] signals the descendants of the supervisor in the order
    [children(recursive=True)] lists them and stops at the first that is
    gone (it has exited and has been waited for): it raises
    [NoSuchProcess] for that one, and the descendants listed after it are
    sent no signal.  Those before it have all been signalled, the zombies
    among them too, for which no line is printed.  (When the supervisor's
    own process is not found, nothing is printed and nothing is sent.) *)
Theorem shutdown_stops_at_first_gone
    (st : State) (me : Proc) (before : list Proc) (gone : Proc) (rest : list Proc) :
  (find_proc (getpid (os st)) (init (os st)) = None →
     shutdown st = (Ok tt, mark_shutdown st))
  ∧ (find_proc (getpid (os st)) (init (os st)) = Some me →
     children_recursive me = before ++ gone :: rest →
     Forall (λ d, status d ≠ Gone) before →
     status gone = Gone →
     shutdown st
     = (Raise (NoSuchProcess (pid gone)),
        emit (banner :: lines_of before) (signals_to SIGTERM before)
             (mark_shutdown st)))
  ∧ (∀ d st0, status d = Zombie →
       kill_one SIGTERM d st0 = (Ok tt, emit [] [(pid d, SIGTERM)] st0)).
Proof.
  split; [|split].
  - intros Hnone. rewrite shutdown_unfold.
    unfold kill_child_processes, psutil_Process. cbn. by rewrite Hnone.
  - apply shutdown_at_gone.
  - intros d st0 Hd. rewrite kill_one_present by (by rewrite Hd).
    unfold printed. by rewrite Hd.
Qed.

(** The slave 102 is a zombie and is signalled; the slave 104, listed
    next, is gone, and the worker 103, listed after it, is sent no
    signal. *)
Lemma shutdown_stops_at_first_gone_witness :
  shutdown
    {| self := self (example_state Running Running false);
       os := {| getpid := 100;
                init := mkProc 1 ["init"] Running
                  [ mkProc 100 ["python"; "cluster.py"] Running
                      [ mkProc 101 ["python"; "master.py"] Running
                          [ mkProc 103 ["worker"] Running [] ];
                        mkProc 102 ["pypy3"; "slave.py"; "--node_id=S0"] Zombie [];
                        mkProc 104 ["pypy3"; "slave.py"; "--node_id=S1"] Gone [] ] ];
                next_pid := 105; stdout := []; signals := [] |} |}
  = (Raise (NoSuchProcess 104),
     {| self := self (example_state Running Running true);
        os := {| getpid := 100;
                 init := mkProc 1 ["init"] Running
                   [ mkProc 100 ["python"; "cluster.py"] Running
                       [ mkProc 101 ["python"; "master.py"] Running
                           [ mkProc 103 ["worker"] Running [] ];
                         mkProc 102 ["pypy3"; "slave.py"; "--node_id=S0"] Zombie [];
                         mkProc 104 ["pypy3"; "slave.py"; "--node_id=S1"] Gone [] ] ];
                 next_pid := 105;
                 stdout := [banner; "SIGTERM >>> master.py"];
                 signals := [(101, SIGTERM); (102, SIGTERM)] |} |}).
Proof.
  erewrite (proj1 (proj2 (shutdown_stops_at_first_gone _
             (mkProc 100 ["python"; "cluster.py"] Running
                [ mkProc 101 ["python"; "master.py"] Running
                    [ mkProc 103 ["worker"] Running [] ];
                  mkProc 102 ["pypy3"; "slave.py"; "--node_id=S0"] Zombie [];
                  mkProc 104 ["pypy3"; "slave.py"; "--node_id=S1"] Gone [] ])
             [ mkProc 101 ["python"; "master.py"] Running
                 [ mkProc 103 ["worker"] Running [] ];
               mkProc 102 ["pypy3"; "slave.py"; "--node_id=S0"] Zombie [] ]
             (mkProc 104 ["pypy3"; "slave.py"; "--node_id=S1"] Gone [])
             [ mkProc 103 ["worker"] Running [] ])));
    [reflexivity|reflexivity|reflexivity|repeat constructor; discriminate
    |reflexivity].
Defined.

Lemma kill_loop_signals sig ds : ∀ st,
  ∃ sent,
    signals (os (for_each ds (kill_one sig) st).2)
      = signals (os st) ++ signals_to sig sent
    ∧ sent ⊆ ds.
Proof.
  induction ds as [|d ds IH]; intros st; cbn [for_each].
  - exists []. cbn. by rewrite app_nil_r.
  - unfold mbind, M_bind, bind. destruct (decide (status d = Gone)) as [Hd|Hd].
    + rewrite kill_one_gone by done. exists []. cbn. rewrite app_nil_r.
      split; [done|]. apply list_subseteq_nil.
    + rewrite kill_one_present by done.
      destruct (IH (emit (printed d) [(pid d, sig)] st)) as (sent & Hs & Hsub).
      exists (d :: sent). rewrite Hs. cbn. rewrite <- app_assoc. split; [done|].
      intros x Hx. apply elem_of_cons in Hx as [->|Hx].
      * apply list_elem_of_here.
      * by apply list_elem_of_further, Hsub.
Qed.

(** X9.  Whatever the state of the processes, every signal that [shutdown]
    sends is a [SIGTERM] to a descendant of the supervisor's own process:
    no process outside its tree is ever signalled. *)
Theorem shutdown_signals_only_descendants (st : State) :
  ∃ sent,
    signals (os (shutdown st).2) = signals (os st) ++ sent
    ∧ ∀ target sig, (target, sig) ∈ sent →
        sig = SIGTERM
        ∧ ∃ me d, find_proc (getpid (os st)) (init (os st)) = Some me
                  ∧ Descendant me d ∧ pid d = target.
Proof.
  rewrite shutdown_unfold.
  destruct (find_proc (getpid (os st)) (init (os st))) as [me|] eqn:Hfind.
  - rewrite (kill_child_processes_found _ _ _ me) by done.
    destruct (kill_loop_signals SIGTERM (children_recursive me)
                (emit [banner] [] (mark_shutdown st))) as (sent & Hs & Hsub).
    exists (signals_to SIGTERM sent). split.
    + rewrite Hs. cbn. by rewrite app_nil_r.
    + intros target sig Hin. apply list_elem_of_fmap in Hin as (d & Heq & Hd).
      simplify_eq.
      split; [done|]. exists me, d. split; [done|]. split; [|done].
      by apply children_recursive_sound, Hsub.
  - exists []. unfold kill_child_processes, psutil_Process. cbn.
    rewrite Hfind. cbn. rewrite app_nil_r. split; [done|].
    intros ? ? Hin. by apply elem_of_nil in Hin.
Qed.

(** X10.  An interrupt never makes the supervisor raise: whatever has
    exited in the meantime, the handler returns, with [shutdownCalled]
    set. *)
Theorem on_KeyboardInterrupt_never_raises (st : State) :
  ∃ st', on_KeyboardInterrupt st = (Ok tt, st')
         ∧ st' = (shutdown st).2
         ∧ shutdownCalled (self st') = true.
Proof.
  unfold on_KeyboardInterrupt, try_pass.
  pose proof (shutdown_marks st) as Hmark.
  destruct (shutdown st) as [[[]|e] st']; by exists st'.
Qed.

(** *** Spawning the slaves *)

(** The command line [run_slave] makes for a slave, and its words. *)
Definition slave_command (port mask : Z) (id dbPathRoot : string) (clean : bool) : string :=
  let cmd := "pypy3 slave.py --node_port=" +:+ pretty port +:+
             " --shard_mask=" +:+ pretty mask +:+
             " --node_id=" +:+ id +:+ " --db_path_root=" +:+ dbPathRoot in
  if clean then cmd +:+ " --clean=true" else cmd.

(** What [runSlaves] has tracked once it has spawned [slaves], the first
    of them with pid [pid0]. *)
Fixpoint spawned (clusterID : string) (clean : bool) (pid0 : Z)
    (slaves : list Config.SlaveConfig) : list (string * Process) :=
  match slaves with
  | [] => []
  | slave :: rest =>
      (clusterID +:+ "SLAVE_" +:+ Config.id slave,
       {| handle_pid := pid0;
          args := split " " (slave_command (Config.port slave)
                               (hd 0 (Config.shard_masks slave)) (Config.id slave)
                               (Config.slave_db_path_root slave) clean) |})
      :: spawned clusterID clean (pid0 + 1) rest
  end.

(** The tree once the processes of [handles] have been added, in order, as
    children of process [parent]. *)
Definition add_children (parent : Z) (handles : list (string * Process)) (tree : Proc) : Proc :=
  foldl (λ t h, add_child parent (mkProc (handle_pid h.2) (args h.2) Running []) t)
        tree handles.

(** The state once [handles] have been spawned and tracked. *)
Definition with_spawned (handles : list (string * Process)) (st : State) : State :=
  {| self := {| config := config (self st);
                configFilePath := configFilePath (self st);
                procs := procs (self st) ++ handles;
                shutdownCalled := shutdownCalled (self st);
                mine := mine (self st); clean := clean (self st);
                clusterID := clusterID (self st) |};
     os := {| getpid := getpid (os st);
              init := add_children (getpid (os st)) handles (init (os st));
              next_pid := next_pid (os st) + Z.of_nat (length handles);
              stdout := stdout (os st); signals := signals (os st) |} |}.

Lemma with_spawned_nil st : with_spawned [] st = st.
Proof.
  destruct st as [[] []]. unfold with_spawned, add_children; cbn.
  by rewrite app_nil_r, Z.add_0_r.
Qed.

Lemma with_spawned_cons h handles st :
  with_spawned handles (with_spawned [h] st) = with_spawned (h :: handles) st.
Proof.
  unfold with_spawned, add_children; cbn. rewrite <- app_assoc.
  f_equal; f_equal; lia.
Qed.

Lemma append_empty (s : string) : s +:+ "" = s.
Proof.
  induction s as [|c s IH]; [done|].
  change (String c (s +:+ "") = String c s). by rewrite IH.
Qed.

Lemma format_slave_command port mask id dbPathRoot :
  format "pypy3 slave.py --node_port={} --shard_mask={} --node_id={} --db_path_root={}"
    [VInt port; VInt mask; VStr id; VStr dbPathRoot]
  = Ok (slave_command port mask id dbPathRoot false).
Proof.
  unfold slave_command. cbn [format str]. cbv beta iota.
  rewrite append_empty. reflexivity.
Qed.

Lemma run_slave_spawns port id mask masks dbPathRoot clean st :
  run_slave port id (mask :: masks) dbPathRoot clean st
  = create_subprocess_exec
      (split " " (slave_command port mask id dbPathRoot clean)) st.
Proof.
  unfold run_slave, lift, mbind, M_bind, bind. cbv beta iota.
  by rewrite format_slave_command.
Qed.

Lemma run_slave_no_mask port id dbPathRoot clean st :
  run_slave port id [] dbPathRoot clean st = (Raise IndexError, st).
Proof. done. Qed.

(** The body of the loop of [runSlaves]. *)
Definition spawn_slave (clusterID : string) (clean : bool)
    (slave : Config.SlaveConfig) : M unit :=
  s ← run_slave (Config.port slave) (Config.id slave)
        (Config.shard_masks slave) (Config.slave_db_path_root slave) clean;
  let prefix := clusterID +:+ "SLAVE_" +:+ Config.id slave in
  procs_append prefix s.

Lemma spawn_slave_Ok cid clean slave st :
  Config.shard_masks slave ≠ [] →
  spawn_slave cid clean slave st
  = (Ok tt, with_spawned (spawned cid clean (next_pid (os st)) [slave]) st).
Proof.
  intros Hmasks. unfold spawn_slave.
  destruct (Config.shard_masks slave) as [|mask masks] eqn:Hm; [done|].
  unfold mbind, M_bind, bind. rewrite run_slave_spawns.
  cbn. rewrite Hm. cbn. unfold with_spawned, add_children. cbn.
  reflexivity.
Qed.

Lemma spawn_loop cid clean good : ∀ st,
  Forall (λ slave, Config.shard_masks slave ≠ []) good →
  for_each good (spawn_slave cid clean) st
  = (Ok tt, with_spawned (spawned cid clean (next_pid (os st)) good) st).
Proof.
  induction good as [|slave good IH]; intros st Hgood; cbn [for_each spawned].
  - by rewrite with_spawned_nil.
  - apply Forall_cons in Hgood as [Hslave Hgood].
    unfold mbind, M_bind, bind. rewrite spawn_slave_Ok by done.
    rewrite IH by done. cbn [spawned]. rewrite with_spawned_cons. done.
Qed.

Lemma spawn_loop_fails cid clean good bad rest : ∀ st,
  Forall (λ slave, Config.shard_masks slave ≠ []) good →
  Config.shard_masks bad = [] →
  for_each (good ++ bad :: rest) (spawn_slave cid clean) st
  = (Raise IndexError,
     with_spawned (spawned cid clean (next_pid (os st)) good) st).
Proof.
  induction good as [|slave good IH]; intros st Hgood Hbad; cbn [app for_each spawned].
  - unfold mbind, M_bind, bind, spawn_slave. unfold mbind, M_bind, bind.
    rewrite Hbad, run_slave_no_mask. by rewrite with_spawned_nil.
  - apply Forall_cons in Hgood as [Hslave Hgood].
    unfold mbind, M_bind, bind. rewrite spawn_slave_Ok by done.
    fold (@mbind M _ unit unit). unfold mbind, M_bind, bind in IH.
    rewrite IH by done. cbn [spawned]. by rewrite with_spawned_cons.
Qed.

Lemma runSlaves_unfold st :
  runSlaves st
  = for_each (Config.slaves (config (self st)))
      (spawn_slave (clusterID (self st)) (clean (self st))) st.
Proof. done. Qed.

(** X11.  [runSlaves] spawns the configured slaves in order, each as a
    new child with the next free pid, and tracks each under the cluster id
    followed by [SLAVE_] and the slave's id.  A slave configured with no
    shard mask makes it raise [IndexError], with the slaves before it
    already spawned and tracked and the ones after it never started. *)
Theorem runSlaves_spawns_in_order
    (st : State) (good : list Config.SlaveConfig) (bad : Config.SlaveConfig)
    (rest : list Config.SlaveConfig) :
  Forall (λ slave, Config.shard_masks slave ≠ []) good →
  (Config.slaves (config (self st)) = good →
     runSlaves st
     = (Ok tt, with_spawned (spawned (clusterID (self st)) (clean (self st))
                                     (next_pid (os st)) good) st))
  ∧ (Config.slaves (config (self st)) = good ++ bad :: rest →
     Config.shard_masks bad = [] →
     runSlaves st
     = (Raise IndexError,
        with_spawned (spawned (clusterID (self st)) (clean (self st))
                              (next_pid (os st)) good) st)).
Proof.
  intros Hgood. rewrite runSlaves_unfold. split.
  - intros ->. by apply spawn_loop.
  - intros -> Hbad. by apply spawn_loop_fails.
Qed.

Lemma runSlaves_spawns_in_order_witness :
  (procs (self (runSlaves (example_state Running Running false)).2)).*1
  = ["MASTER"; "SLAVE_S0"; "SLAVE_S1"; "SLAVE_S0"; "SLAVE_S1"]
  ∧ (handle_pid ∘ snd <$> procs (self (runSlaves (example_state Running Running false)).2))
  = [101; 102; 104; 105; 106].
Proof.
  assert (Hgood : Forall (λ slave, Config.shard_masks slave ≠ [])
                         (Config.slaves example_config))
    by (repeat constructor; discriminate).
  destruct (runSlaves_spawns_in_order (example_state Running Running false)
              (Config.slaves example_config)
              (Config.mkSlaveConfig "" "" 0 [] "") [] Hgood) as [Hall _].
  rewrite (Hall eq_refl). split; reflexivity.
Defined.

(** *** Spawned processes in the tree *)

Lemma pid_add_child parent child p : pid (add_child parent child p) = pid p.
Proof. by destruct p. Qed.

Lemma status_add_child parent child p :
  status (add_child parent child p) = status p.
Proof. by destruct p. Qed.

Lemma kids_add_child parent child p :
  kids (add_child parent child p)
  = if pid p =? parent
    then (add_child parent child <$> kids p) ++ [child]
    else add_child parent child <$> kids p.
Proof. by destruct p. Qed.

(** The search of [find_proc] among the children. *)
Definition find_among (target : Z) (ks : list Proc) : option Proc :=
  foldr (λ k later, match find_proc target k with
                    | Some found => Some found
                    | None => later
                    end) None ks.

Lemma find_proc_unfold target p :
  find_proc target p
  = if pid p =? target then Some p else find_among target (kids p).
Proof.
  destruct p as [n c e ks]; cbn. destruct (n =? target); [done|].
  induction ks as [|k ks IH]; cbn; [done|]. by rewrite IH.
Qed.

Lemma find_proc_pid target p : ∀ found,
  find_proc target p = Some found → pid found = target.
Proof.
  induction p as [n c e ks IH] using Proc_tree_ind. intros found.
  rewrite find_proc_unfold; cbn [pid kids].
  destruct (n =? target) eqn:Hn.
  - intros [= <-]. cbn. lia.
  - induction ks as [|k ks IHks]; cbn; [done|].
    apply Forall_cons in IH as [Hk Hks].
    destruct (find_proc target k) eqn:Hfind.
    + intros [= <-]. by apply Hk.
    + by apply IHks.
Qed.

(** A tree without the parent is left as it is. *)
Lemma add_child_absent parent child p :
  find_proc parent p = None → add_child parent child p = p.
Proof.
  induction p as [n c e ks IH] using Proc_tree_ind.
  rewrite find_proc_unfold; cbn [pid kids add_child].
  destruct (n =? parent) eqn:Hn; [done|]. intros Hnone. f_equal.
  induction ks as [|k ks IHks]; cbn; [done|].
  apply Forall_cons in IH as [Hk Hks]. cbn in Hnone.
  destruct (find_proc parent k) eqn:Hfind; [done|].
  rewrite Hk by done. f_equal. by apply IHks.
Qed.

(** The parent is found again, with the new child. *)
Lemma find_add_child parent child p : ∀ me,
  find_proc parent p = Some me →
  find_proc parent (add_child parent child p)
  = Some (add_child parent child me).
Proof.
  induction p as [n c e ks IH] using Proc_tree_ind. intros me.
  rewrite !find_proc_unfold, pid_add_child, kids_add_child; cbn [pid kids].
  destruct (n =? parent) eqn:Hn; [by intros [= <-]|].
  induction ks as [|k ks IHks]; cbn; [done|].
  apply Forall_cons in IH as [Hk Hks].
  destruct (find_proc parent k) as [found|] eqn:Hfind.
  - intros [= <-]. by rewrite (Hk found).
  - intros Hlater. rewrite (add_child_absent _ _ k), Hfind by done.
    by apply IHks.
Qed.

Lemma present_add_child parent child p :
  status child ≠ Gone →
  Forall (λ d, status d ≠ Gone) (children_recursive child) →
  Forall (λ d, status d ≠ Gone) (children_recursive p) →
  Forall (λ d, status d ≠ Gone) (children_recursive (add_child parent child p)).
Proof.
  intros Hc Hcs. induction p as [n c e ks IH] using Proc_tree_ind. intros Hp.
  rewrite children_recursive_unfold, kids_add_child. cbn [pid kids].
  rewrite children_recursive_unfold in Hp; cbn [kids] in Hp.
  apply Forall_app in Hp as [Hks Hlater].
  assert (Hkids : Forall (λ d, status d ≠ Gone) (add_child parent child <$> ks)).
  { apply Forall_fmap. eapply Forall_impl; [exact Hks|].
    intros k Hk. cbn. by rewrite status_add_child. }
  assert (Hmap : Forall (λ d, status d ≠ Gone)
                   (brought_later (add_child parent child <$> ks))).
  { clear Hks Hkids. induction ks as [|k ks IHks]; cbn; [constructor|].
    apply Forall_cons in IH as [Hk IH]. cbn in Hlater.
    apply Forall_app in Hlater as [Hlater Hk1].
    apply Forall_app; split; [by apply IHks | by apply Hk]. }
  destruct (n =? parent).
  - apply Forall_app; split.
    + apply Forall_app; split; [done|]. by constructor.
    + unfold brought_later. rewrite foldr_app. cbn.
      fold (brought_later (add_child parent child <$> ks)).
      assert (Hstart : ∀ l start,
                Forall (λ d, status d ≠ Gone) start →
                Forall (λ d, status d ≠ Gone) (brought_later l) →
                Forall (λ d, status d ≠ Gone)
                  (foldr (λ k later, later ++ children_recursive k) start l)).
      { clear. induction l as [|k l IHl]; intros start Hstart Hl; cbn; [done|].
        cbn in Hl. apply Forall_app in Hl as [Hl Hk].
        apply Forall_app; split; [by apply IHl | done]. }
      by apply Hstart.
  - by apply Forall_app.
Qed.

(** After [handles] have been spawned the supervisor is still found, none
    of its descendants is gone if none was, it keeps the children it had
    and has one child for each handle. *)
Lemma add_children_found parent handles : ∀ tree me,
  find_proc parent tree = Some me →
  Forall (λ d, status d ≠ Gone) (children_recursive me) →
  ∃ me',
    find_proc parent (add_children parent handles tree) = Some me'
    ∧ Forall (λ d, status d ≠ Gone) (children_recursive me')
    ∧ (∀ k, k ∈ kids me → ∃ k', k' ∈ kids me' ∧ pid k' = pid k)
    ∧ (∀ h, h ∈ handles → ∃ k, k ∈ kids me' ∧ pid k = handle_pid h.2).
Proof.
  induction handles as [|h handles IH]; intros tree me Hfind Hrun.
  - exists me. repeat split; [done..| |].
    + intros k Hk. by exists k.
    + intros h Hh. by apply elem_of_nil in Hh.
  - set (child := mkProc (handle_pid h.2) (args h.2) Running []).
    pose proof (find_add_child parent child tree me Hfind) as Hfind1.
    assert (Hrun1 : Forall (λ d, status d ≠ Gone)
                      (children_recursive (add_child parent child me)))
      by (apply present_add_child; [done|constructor|done]).
    destruct (IH _ _ Hfind1 Hrun1) as (me' & Hfind' & Hrun' & Hkept & Hnew).
    assert (Hkids : kids (add_child parent child me)
                    = (add_child parent child <$> kids me) ++ [child]).
    { rewrite kids_add_child.
      by rewrite (find_proc_pid _ _ _ Hfind), Z.eqb_refl. }
    exists me'. repeat split; [exact Hfind'|exact Hrun'| |].
    + intros k Hk.
      destruct (Hkept (add_child parent child k)) as (k' & Hk' & Hpid).
      { rewrite Hkids. apply elem_of_app; left.
        by apply list_elem_of_fmap_2. }
      exists k'. split; [done|]. by rewrite Hpid, pid_add_child.
    + intros h' Hh'. apply elem_of_cons in Hh' as [->|Hh']; [|by apply Hnew].
      destruct (Hkept child) as (k' & Hk' & Hpid).
      { rewrite Hkids. apply elem_of_app; right. by apply list_elem_of_here. }
      by exists k'.
Qed.

Lemma spawned_length cid clean slaves : ∀ pid0,
  length (spawned cid clean pid0 slaves) = length slaves.
Proof.
  induction slaves as [|s l IH]; intros n; cbn [spawned length]; [done|].
  by rewrite IH.
Qed.

(** X12.  Slaves spawned by [runSlaves] are children of the supervisor:
    when the supervisor's own process is found, none of its descendants
    is gone and every configured slave has a shard mask, [runSlaves]
    followed by [shutdown] sends [SIGTERM] to each slave it has started
    (none of them having exited in between), and both calls return. *)
Theorem spawned_slaves_get_SIGTERM (st : State) (me : Proc) :
  find_proc (getpid (os st)) (init (os st)) = Some me →
  Forall (λ d, status d ≠ Gone) (children_recursive me) →
  Forall (λ slave, Config.shard_masks slave ≠ [])
         (Config.slaves (config (self st))) →
  ∃ st1 st2 started,
    runSlaves st = (Ok tt, st1)
    ∧ shutdown st1 = (Ok tt, st2)
    ∧ procs (self st1) = procs (self st) ++ started
    ∧ length started = length (Config.slaves (config (self st)))
    ∧ ∀ h, h ∈ started → (handle_pid h.2, SIGTERM) ∈ signals (os st2).
Proof.
  intros Hfind Hrun Hmasks.
  set (started := spawned (clusterID (self st)) (clean (self st))
                          (next_pid (os st)) (Config.slaves (config (self st)))).
  assert (Hspawn : runSlaves st = (Ok tt, with_spawned started st))
    by (rewrite runSlaves_unfold; by apply spawn_loop).
  destruct (add_children_found (getpid (os st)) started _ _ Hfind Hrun)
    as (me' & Hfind' & Hrun' & _ & Hnew).
  pose proof (shutdown_present (with_spawned started st) me' Hfind' Hrun') as Hshut.
  eexists _, _, started. repeat split; [exact Hspawn|exact Hshut|done|..].
  - apply spawned_length.
  - intros h Hh. destruct (Hnew h Hh) as (k & Hk & Hpid).
    cbn. apply elem_of_app; right. rewrite <- Hpid.
    apply (list_elem_of_fmap_2 (λ d, (pid d, SIGTERM))).
    apply children_recursive_complete. by apply Descendant_child.
Qed.

Lemma spawned_slaves_get_SIGTERM_witness :
  ∃ st1 st2,
    runSlaves (example_state Running Running false) = (Ok tt, st1)
    ∧ shutdown st1 = (Ok tt, st2)
    ∧ (105, SIGTERM) ∈ signals (os st2)
    ∧ (106, SIGTERM) ∈ signals (os st2).
Proof.
  assert (Hfind : find_proc (getpid (os (example_state Running Running false)))
                    (init (os (example_state Running Running false)))
                  = Some (example_me Running Running))
    by reflexivity.
  assert (Hmasks : Forall (λ slave, Config.shard_masks slave ≠ [])
                     (Config.slaves
                        (config (self (example_state Running Running false)))))
    by (repeat constructor; discriminate).
  destruct (spawned_slaves_get_SIGTERM _ _ Hfind
              ltac:(repeat constructor; discriminate) Hmasks)
    as (st1 & st2 & started & Hrun & Hshut & Hprocs & Hlen & Hsig).
  exists st1, st2. repeat split; [exact Hrun|exact Hshut|..].
  - assert (Hst1 : st1 = (runSlaves (example_state Running Running false)).2)
      by (by rewrite Hrun).
    apply (Hsig ("SLAVE_S0", mkProcess 105
                   (split " " (slave_command 38000 2 "S0" "./db" false)))).
    assert (Hs : started = drop 3 (procs (self st1)))
      by (rewrite Hprocs; reflexivity).
    rewrite Hs, Hst1. vm_compute. apply list_elem_of_here.
  - assert (Hst1 : st1 = (runSlaves (example_state Running Running false)).2)
      by (by rewrite Hrun).
    apply (Hsig ("SLAVE_S1", mkProcess 106
                   (split " " (slave_command 38001 3 "S1" "./db" false)))).
    assert (Hs : started = drop 3 (procs (self st1)))
      by (rewrite Hprocs; reflexivity).
    rewrite Hs, Hst1. vm_compute. apply list_elem_of_further, list_elem_of_here.
Defined.

End Supervisor.

(* ===================================================================== *)
(** * quarkchain/cluster/master.py *)
(* ===================================================================== *)

Module Master.
Import Py.

(** [SlaveInfo(id, ip, port, shardMaskList)] of [quarkchain.cluster.rpc];
    [ip] is the address as an integer. *)
Module SlaveInfo.
Record t := mk {
  id : string;
  ip : Z;
  port : Z;
  shardMaskList : list Z
}.
End SlaveInfo.

#[export] Instance SlaveInfo_eq_dec : EqDecision SlaveInfo.t.
Proof. solve_decision. Defined.

(** What the master keeps of a [SlaveConnection]: [self.id],
    [self.shardMaskList], the address its reader and writer are connected
    to, and whether the connection has become active. *)
Module SlaveConnection.
Record t := mk {
  id : string;
  shardMaskList : list Z;
  peer_ip : string;
  peer_port : Z;
  active : bool
}.
End SlaveConnection.

#[export] Instance SlaveConnection_eq_dec : EqDecision SlaveConnection.t.
Proof. solve_decision. Defined.

(** The calls to [Logger] in the modelled functions. *)
Inductive LogMsg :=
| TryingToConnect (ip : string) (port : Z)
| FailedToConnect (ip : string) (port : Z)
| ConnectedTo (ip : string) (port : Z)
| SlaveIdMismatch (expect got : string)
| ShardMaskListMismatch (slave_id : string) (expect got : list Z)
| SlaveFailedToConnect (slave_id target_id error : string)
| SlaveConnectedToOthers (slave_id : string)
| ShardRunBy (shardId : nat) (slave_ids : list string)
| MissingSomeShards.

(** What the master does that the outside can see, oldest first. *)
Inductive Event :=
| Info (msg : LogMsg)
| Error (msg : LogMsg)
| OpenConnection (ip : string) (port : Z)
| Sleep (seconds : Z)
| PingRequest (slave : SlaveConnection.t)
| ConnectToSlavesRequest (slave : SlaveConnection.t) (slaveInfoList : list SlaveInfo.t).

(** [class MasterServer]: the shard table, the slave pool (a set of
    connection objects, each distinct from every other, kept here in the
    order they were added) and whether [self.loop.stop()] has been
    called. *)
Record MasterServer := mkMasterServer {
  shardToSlaves : list (list SlaveConnection.t);
  slavePool : list SlaveConnection.t;
  loop_stopped : bool
}.

Record State := mkState { master : MasterServer; trace : list Event }.

(** A coroutine of the master, run from a state: it returns, it raises, it
    is left suspended because the event loop was stopped while it waited
    ([Pending]: [run_forever] has returned and nothing resumes it), or it
    is still retrying when the model's budget of attempts is used up
    ([Unfinished]). *)
Inductive Outcome (A : Type) :=
| Returned (a : A) (st : State)
| Raised (e : Exn) (st : State)
| Pending (st : State)
| Unfinished (st : State).
Arguments Returned {A} a st.
Arguments Raised {A} e st.
Arguments Pending {A} st.
Arguments Unfinished {A} st.

Definition M (A : Type) : Type := State → Outcome A.

Definition final {A} (o : Outcome A) : State :=
  match o with
  | Returned _ st | Raised _ st | Pending st | Unfinished st => st
  end.

Definition ret {A} (a : A) : M A := λ st, Returned a st.

Definition bind {A B} (k : A → M B) (m : M A) : M B :=
  λ st, match m st with
        | Returned a st' => k a st'
        | Raised e st' => Raised e st'
        | Pending st' => Pending st'
        | Unfinished st' => Unfinished st'
        end.

#[export] Instance M_ret : MRet M := @ret.
#[export] Instance M_bind : MBind M := @bind.

Definition raise {A} (e : Exn) : M A := λ st, Raised e st.

Definition emit (ev : Event) : M unit :=
  λ st, Returned tt {| master := master st; trace := trace st ++ [ev] |}.

(** An [await] that hands control back to the event loop.  A loop on
    which [stop()] has been called finishes the callbacks at hand and
    leaves [run_forever]; the coroutine is not resumed. *)
Definition suspend : M unit :=
  λ st, if loop_stopped (master st) then Pending st else Returned tt st.

(** [MasterServer.shutdown(self)]: [self.loop.stop()]. *)
Definition shutdown : M unit :=
  λ st, Returned tt
          {| master := {| shardToSlaves := shardToSlaves (master st);
                          slavePool := slavePool (master st);
                          loop_stopped := true |};
             trace := trace st |}.

(** Modelled from the spec: [check] of [quarkchain/utils.py] is not among
    the sources; the conditions it is given are the ones the spec has as
    invariants (a non-empty mask list, a result list as long as the list
    sent), so it is an assertion that is always on: a false condition
    raises [AssertionError]. *)
Definition check (condition : bool) : M unit :=
  if condition then ret tt else raise AssertionError.

(** [for x in l: body(x)]. *)
Fixpoint for_each {A} (l : list A) (body : A → M unit) : M unit :=
  match l with
  | [] => ret tt
  | x :: rest => body x;; for_each rest body
  end.

Section Bringup.

#[local] Set Default Proof Using "Type".

(** Drops from a proof's context every variable of the section that the
    statement does not mention. *)
Ltac only_goal := repeat match goal with x : _ |- _ => clear x end.

(** [is_shard_in_mask] of [quarkchain/utils.py], not among the sources. *)
Variable is_shard_in_mask : nat → Z → bool.

(** [int(ipaddress.ip_address(s))] and [str(ipaddress.ip_address(n))]. *)
Variable ip_address_int : string → Z.
Variable ip_address_str : Z → string.

(** [self.qcState.getShardSize()]. *)
Variable shardSize : nat.

(** The network: whether the attempt numbered [n] (from 0) of one call of
    [__connect] to [ip:port] is answered; what the process listening at
    [ip:port] answers to [PING]; and the result list a slave returns for
    a [CONNECT_TO_SLAVES] request. *)
Variable open_connection : string → Z → nat → bool.
Variable ping_reply : string → Z → string * list Z.
Variable connect_to_slaves_reply :
  SlaveConnection.t → list SlaveInfo.t → list string.

(** The order in which Python iterates over the set [self.slavePool]. *)
Variable set_iter : list SlaveConnection.t → list SlaveConnection.t.

(** [ClusterConfig.getSlaveInfoList(self)]. *)
Definition getSlaveInfoList (config : Config.t) : list SlaveInfo.t :=
  (λ slave, SlaveInfo.mk (Config.id slave)
              (ip_address_int (Config.ip slave))
              (Config.port slave) (Config.shard_masks slave))
    <$> Config.slaves config.

(** [MasterServer.__init__]: one empty list per shard, an empty pool. *)
Definition MasterServer_init : MasterServer :=
  {| shardToSlaves := replicate shardSize [];
     slavePool := [];
     loop_stopped := false |}.

(** [SlaveConnection.__init__(...)]: a connection that is not active
    yet. *)
Definition SlaveConnection_init (ip : string) (port : Z) (slaveId : string)
    (shardMaskList : list Z) : M SlaveConnection.t :=
  check (bool_decide (0 < length shardMaskList)%nat);;
  ret (SlaveConnection.mk slaveId shardMaskList ip port false).

(** [SlaveConnection.hasShard(self, shardId)]. *)
Definition hasShard (slave : SlaveConnection.t) (shardId : nat) : bool :=
  existsb (λ shardMask, is_shard_in_mask shardId shardMask)
          (SlaveConnection.shardMaskList slave).

(** Modelled from the spec: [Connection.waitUntilActive] of
    [quarkchain/protocol.py] is not among the sources; it suspends until
    the connection is activated and returns at once on one that already
    is. *)
Definition waitUntilActive (slave : SlaveConnection.t) : M SlaveConnection.t :=
  if SlaveConnection.active slave then ret slave
  else suspend;;
       ret (SlaveConnection.mk (SlaveConnection.id slave)
              (SlaveConnection.shardMaskList slave)
              (SlaveConnection.peer_ip slave) (SlaveConnection.peer_port slave)
              true).

(** [SlaveConnection.sendPing(self)]: the request is written, the
    coroutine waits for the answer. *)
Definition sendPing (slave : SlaveConnection.t) : M (string * list Z) :=
  emit (PingRequest slave);;
  suspend;;
  ret (ping_reply (SlaveConnection.peer_ip slave) (SlaveConnection.peer_port slave)).

(** The loop over [resp.resultList] in [sendConnectToSlaves]:
<<
    for i, result in enumerate(resp.resultList):
        if len(result) > 0:
            Logger.info("Slave {} failed to connect to {} with error {}" ...)
            return False
    Logger.info("Slave {} connected to other slaves successfully" ...)
    return True
>>
    with [slaveInfoList[i]] taken along as the list of targets left. *)
Fixpoint check_results (slave : SlaveConnection.t)
    (resultList : list string) (targets : list SlaveInfo.t) : M bool :=
  match resultList with
  | [] =>
      emit (Info (SlaveConnectedToOthers (SlaveConnection.id slave)));;
      ret true
  | result :: results =>
      if bool_decide (0 < String.length result)%nat then
        match targets with
        | target :: _ =>
            emit (Info (SlaveFailedToConnect (SlaveConnection.id slave)
                          (SlaveInfo.id target) result));;
            ret false
        | [] => raise IndexError
        end
      else check_results slave results (tail targets)
  end.

(** [SlaveConnection.sendConnectToSlaves(self, slaveInfoList)]. *)
Definition sendConnectToSlaves (slave : SlaveConnection.t)
    (slaveInfoList : list SlaveInfo.t) : M bool :=
  emit (ConnectToSlavesRequest slave slaveInfoList);;
  suspend;;
  let resultList := connect_to_slaves_reply slave slaveInfoList in
  check (bool_decide (length resultList = length slaveInfoList));;
  check_results slave resultList slaveInfoList.

(** [MasterServer.__hasAllShards(self)]. *)
Definition __hasAllShards (m : MasterServer) : bool :=
  forallb (λ slaves, bool_decide (0 < length slaves)%nat) (shardToSlaves m).

(** The [while True] of [__connect], entered for the attempt numbered
    [attempt] with [fuel] attempts left in the model's budget:
<<
    while True:
        try:
            reader, writer = await asyncio.open_connection(ip, port, loop=self.loop)
            break
        except Exception as e:
            Logger.info("Failed to connect {} {}: {}".format(ip, port, e))
            await asyncio.sleep(1)
>> *)
Fixpoint connect_retry (fuel attempt : nat) (ip : string) (port : Z) : M unit :=
  match fuel with
  | O => λ st, Unfinished st
  | S fuel' =>
      emit (OpenConnection ip port);;
      suspend;;
      if open_connection ip port attempt then ret tt
      else emit (Info (FailedToConnect ip port));;
           emit (Sleep 1);;
           suspend;;
           connect_retry fuel' (S attempt) ip port
  end.

(** [MasterServer.__connect(self, ip, port)]; the reader and writer it
    returns stand for the address they are connected to. *)
Definition __connect (fuel : nat) (ip : string) (port : Z) : M (string * Z) :=
  emit (Info (TryingToConnect ip port));;
  connect_retry fuel 0 ip port;;
  emit (Info (ConnectedTo ip port));;
  ret (ip, port).

(** [self.slavePool.add(slave)]. *)
Definition slavePool_add (slave : SlaveConnection.t) : M unit :=
  λ st, Returned tt
          {| master := {| shardToSlaves := shardToSlaves (master st);
                          slavePool := slavePool (master st) ++ [slave];
                          loop_stopped := loop_stopped (master st) |};
             trace := trace st |}.

(** [self.shardToSlaves[shardId].append(slave)]; an index past the end of
    the table raises [IndexError]. *)
Definition shardToSlaves_append (shardId : nat) (slave : SlaveConnection.t) : M unit :=
  λ st,
    if bool_decide (shardId < length (shardToSlaves (master st)))%nat then
      Returned tt
        {| master := {| shardToSlaves :=
                          alter (λ slaves, slaves ++ [slave]) shardId
                                (shardToSlaves (master st));
                        slavePool := slavePool (master st);
                        loop_stopped := loop_stopped (master st) |};
           trace := trace st |}
    else Raised IndexError st.

(** The body of the loop of [__connectToSlaves], for one [slaveInfo]. *)
Definition connect_slave (fuel : nat) (slaveInfo : SlaveInfo.t) : M unit :=
  let ip := ip_address_str (SlaveInfo.ip slaveInfo) in
  '(reader, writer) ← __connect fuel ip (SlaveInfo.port slaveInfo);
  slave ← SlaveConnection_init reader writer (SlaveInfo.id slaveInfo)
            (SlaveInfo.shardMaskList slaveInfo);
  slave ← waitUntilActive slave;
  '(id, shardMaskList) ← sendPing slave;
  (if bool_decide (id ≠ SlaveInfo.id slaveInfo) then
     emit (Error (SlaveIdMismatch (SlaveInfo.id slaveInfo) id));;
     shutdown
   else ret tt);;
  (if bool_decide (shardMaskList ≠ SlaveInfo.shardMaskList slaveInfo) then
     emit (Error (ShardMaskListMismatch (SlaveInfo.id slaveInfo)
                    (SlaveInfo.shardMaskList slaveInfo) shardMaskList));;
     shutdown
   else ret tt);;
  slavePool_add slave;;
  for_each (seq 0 shardSize) (λ shardId,
    if hasShard slave shardId then shardToSlaves_append shardId slave
    else ret tt).

(** [MasterServer.__connectToSlaves(self)]. *)
Definition __connectToSlaves (fuel : nat) (config : Config.t) : M unit :=
  for_each (getSlaveInfoList config) (connect_slave fuel).

(** The body of the loop of [__setupSlaveToSlaveConnections]. *)
Definition setup_slave (config : Config.t) (slave : SlaveConnection.t) : M unit :=
  slave ← waitUntilActive slave;
  success ← sendConnectToSlaves slave (getSlaveInfoList config);
  if negb success then shutdown else ret tt.

(** [MasterServer.__setupSlaveToSlaveConnections(self)]. *)
Definition __setupSlaveToSlaveConnections (config : Config.t) : M unit :=
  λ st, for_each (set_iter (slavePool (master st))) (setup_slave config) st.

(** [MasterServer.__logSummary(self)]. *)
Definition __logSummary : M unit :=
  λ st, for_each (imap (λ shardId slaves, (shardId, slaves))
                       (shardToSlaves (master st)))
          (λ '(shardId, slaves),
             emit (Info (ShardRunBy shardId (SlaveConnection.id <$> slaves)))) st.

(** [MasterServer.__initCluster(self)]. *)
Definition __initCluster (fuel : nat) (config : Config.t) : M unit :=
  __connectToSlaves fuel config;;
  __logSummary;;
  ((λ st, if negb (__hasAllShards (master st)) then
            emit (Error MissingSomeShards) st
          else __setupSlaveToSlaveConnections config st) : M unit).

(** ** The vocabulary of the properties *)

(** The state with [events] added to its trace. *)
Definition logged (events : list Event) (st : State) : State :=
  {| master := master st; trace := trace st ++ events |}.

(** A coroutine that only ever adds events satisfying [E] to the trace,
    however it ends. *)
Definition adds_only {A} (E : Event → Prop) (m : M A) : Prop :=
  ∀ st, ∃ events, trace (final (m st)) = trace st ++ events ∧ Forall E events.

(** What [K] failed attempts followed by a successful one leave in the
    trace. *)
Definition retry_events (K : nat) (ip : string) (port : Z) : list Event :=
  concat (replicate K [OpenConnection ip port; Info (FailedToConnect ip port); Sleep 1])
    ++ [OpenConnection ip port].

(** The table with [slave] appended to the list of every shard it has. *)
Definition assign (slave : SlaveConnection.t)
    (table : list (list SlaveConnection.t)) : list (list SlaveConnection.t) :=
  imap (λ shardId slaves,
          if hasShard slave shardId then slaves ++ [slave] else slaves) table.

(** The master once [slave] is in the pool and in the table, with the loop
    stopped if its identity did not match. *)
Definition register (slave : SlaveConnection.t) (mismatch : bool)
    (m : MasterServer) : MasterServer :=
  {| shardToSlaves := assign slave (shardToSlaves m);
     slavePool := slavePool m ++ [slave];
     loop_stopped := loop_stopped m || mismatch |}.

(** The connection object made for [slaveInfo], once active. *)
Definition connection_of (slaveInfo : SlaveInfo.t) : SlaveConnection.t :=
  SlaveConnection.mk (SlaveInfo.id slaveInfo) (SlaveInfo.shardMaskList slaveInfo)
    (ip_address_str (SlaveInfo.ip slaveInfo)) (SlaveInfo.port slaveInfo) true.

(** What the process at the slave's address answers to the ping. *)
Definition ping_of (slaveInfo : SlaveInfo.t) : string * list Z :=
  ping_reply (ip_address_str (SlaveInfo.ip slaveInfo)) (SlaveInfo.port slaveInfo).

(** The answer differs from the configured entry in its id or in its
    shard mask list. *)
Definition mismatch (slaveInfo : SlaveInfo.t) : bool :=
  bool_decide ((ping_of slaveInfo).1 ≠ SlaveInfo.id slaveInfo)
  || bool_decide ((ping_of slaveInfo).2 ≠ SlaveInfo.shardMaskList slaveInfo).

(** The events of the verification of one slave. *)
Definition verify_events (slaveInfo : SlaveInfo.t) : list Event :=
  [PingRequest (connection_of slaveInfo)]
  ++ (if bool_decide ((ping_of slaveInfo).1 ≠ SlaveInfo.id slaveInfo)
      then [Error (SlaveIdMismatch (SlaveInfo.id slaveInfo) (ping_of slaveInfo).1)]
      else [])
  ++ (if bool_decide ((ping_of slaveInfo).2 ≠ SlaveInfo.shardMaskList slaveInfo)
      then [Error (ShardMaskListMismatch (SlaveInfo.id slaveInfo)
                     (SlaveInfo.shardMaskList slaveInfo) (ping_of slaveInfo).2)]
      else []).

(** What [connect_slave] does once [__connect] has returned. *)
Definition verified (slaveInfo : SlaveInfo.t) : M unit :=
  λ st, match SlaveInfo.shardMaskList slaveInfo with
        | [] => Raised AssertionError st
        | _ :: _ =>
            Returned tt
              {| master := register (connection_of slaveInfo) (mismatch slaveInfo)
                             (master st);
                 trace := trace st ++ verify_events slaveInfo |}
        end.

Definition append_step (slave : SlaveConnection.t)
    (table : list (list SlaveConnection.t)) (shardId : nat) :=
  if hasShard slave shardId
  then alter (λ slaves, slaves ++ [slave]) shardId table
  else table.

(** The master once every slave of [infos] has been registered in turn. *)
Definition register_all (infos : list SlaveInfo.t) (m : MasterServer) : MasterServer :=
  foldl (λ m slaveInfo, register (connection_of slaveInfo) (mismatch slaveInfo) m)
        m infos.

(** The configured entry [slaveInfo] covers the shard. *)
Definition covers (slaveInfo : SlaveInfo.t) (shardId : nat) : bool :=
  existsb (λ shardMask, is_shard_in_mask shardId shardMask)
          (SlaveInfo.shardMaskList slaveInfo).

(** Some configured slave covers the shard. *)
Definition covered (config : Config.t) (shardId : nat) : Prop :=
  ∃ slaveInfo, slaveInfo ∈ getSlaveInfoList config ∧ covers slaveInfo shardId = true.

Definition is_request (ev : Event) : bool :=
  match ev with ConnectToSlavesRequest _ _ => true | _ => false end.

(** The lines of [__logSummary]. *)
Definition summary_events (m : MasterServer) : list Event :=
  (λ '(shardId, slaves), Info (ShardRunBy shardId (SlaveConnection.id <$> slaves)))
    <$> imap (λ shardId slaves, (shardId, slaves)) (shardToSlaves m).

(** Some event of the list is the log line of a failed mesh
    connection. *)
Definition mesh_failure_logged (events : list Event) : Prop :=
  ∃ slave_id target_id error,
    Info (SlaveFailedToConnect slave_id target_id error) ∈ events.

(** The slave's address answers within the budget: some attempt below
    [fuel] succeeds after none before it did. *)
Definition reachable (fuel : nat) (slaveInfo : SlaveInfo.t) : Prop :=
  ∃ K, (K < fuel)%nat
       ∧ (∀ i, (i < K)%nat →
            open_connection (ip_address_str (SlaveInfo.ip slaveInfo))
              (SlaveInfo.port slaveInfo) i = false)
       ∧ open_connection (ip_address_str (SlaveInfo.ip slaveInfo))
           (SlaveInfo.port slaveInfo) K = true.

(** A slave that can be reached, has shard masks configured and answers
    the ping with its configured id and masks. *)
Definition well_behaved (fuel : nat) (slaveInfo : SlaveInfo.t) : Prop :=
  reachable fuel slaveInfo
  ∧ SlaveInfo.shardMaskList slaveInfo ≠ []
  ∧ mismatch slaveInfo = false.

(** ** Reasoning about coroutines *)

Lemma bind_unfold {A B} (m : M A) (k : A → M B) st :
  (m ≫= k) st =
    match m st with
    | Returned a st' => k a st'
    | Raised e st' => Raised e st'
    | Pending st' => Pending st'
    | Unfinished st' => Unfinished st'
    end.
Proof. done. Qed.

Lemma bind_Returned {A B} (m : M A) (k : A → M B) st a st' :
  m st = Returned a st' → (m ≫= k) st = k a st'.
Proof. intros Hm. by rewrite bind_unfold, Hm. Qed.

Lemma logged_nil st : logged [] st = st.
Proof. destruct st. unfold logged; cbn. by rewrite app_nil_r. Qed.

Lemma logged_logged ev1 ev2 st : logged ev2 (logged ev1 st) = logged (ev1 ++ ev2) st.
Proof. unfold logged; cbn. by rewrite app_assoc. Qed.

Lemma emit_logged ev st : emit ev st = Returned tt (logged [ev] st).
Proof. done. Qed.

Lemma suspend_running st :
  loop_stopped (master st) = false → suspend st = Returned tt st.
Proof. intros Hr. unfold suspend. by rewrite Hr. Qed.

Section AddsOnly.

Context (E : Event → Prop).

Lemma adds_only_ret {A} (a : A) : adds_only E (mret a).
Proof. intros st. exists []. by rewrite app_nil_r. Qed.

Lemma adds_only_raise {A} e : adds_only E (raise e : M A).
Proof. intros st. exists []. by rewrite app_nil_r. Qed.

Lemma adds_only_bind {A B} (m : M A) (k : A → M B) :
  adds_only E m → (∀ a, adds_only E (k a)) → adds_only E (m ≫= k).
Proof.
  intros Hm Hk st. rewrite bind_unfold.
  destruct (Hm st) as (ev1 & Htr1 & HE1).
  destruct (m st) as [a st'| | |]; cbn in *; try by exists ev1.
  destruct (Hk a st') as (ev2 & Htr2 & HE2).
  exists (ev1 ++ ev2). rewrite Htr2, Htr1, app_assoc.
  split; [done|]. by apply Forall_app.
Qed.

Lemma adds_only_emit ev : E ev → adds_only E (emit ev).
Proof. intros Hev st. exists [ev]. split; [done|]. by constructor. Qed.

Lemma adds_only_suspend : adds_only E suspend.
Proof.
  intros st. exists []. rewrite app_nil_r. unfold suspend.
  by destruct (loop_stopped (master st)).
Qed.

Lemma adds_only_shutdown : adds_only E shutdown.
Proof. intros st. exists []. by rewrite app_nil_r. Qed.

Lemma adds_only_check b : adds_only E (check b).
Proof. destruct b; [apply adds_only_ret|apply adds_only_raise]. Qed.

Lemma adds_only_for_each {A} (l : list A) (body : A → M unit) :
  (∀ x, adds_only E (body x)) → adds_only E (for_each l body).
Proof.
  intros Hbody. induction l as [|x l IH]; cbn [for_each].
  - apply adds_only_ret.
  - apply adds_only_bind; [apply Hbody|]. by intros _.
Qed.

Lemma adds_only_if {A} (b : bool) (m1 m2 : M A) :
  adds_only E m1 → adds_only E m2 → adds_only E (if b then m1 else m2).
Proof. by destruct b. Qed.

Lemma adds_only_state {A} (f : State → M A) :
  (∀ st0, adds_only E (f st0)) → adds_only E (λ st, f st st).
Proof. intros Hf st. apply Hf. Qed.

End AddsOnly.

(** ** Connecting to one slave *)

(** Unfolds the plumbing of the coroutine monad. *)
Ltac unfold_M :=
  unfold mbind, M_bind, bind, mret, M_ret, ret, raise, emit, suspend,
    shutdown, check.

Lemma connect_retry_succeeds K : ∀ fuel attempt ip port st,
  loop_stopped (master st) = false →
  (∀ i, (i < K)%nat → open_connection ip port (attempt + i) = false) →
  open_connection ip port (attempt + K) = true →
  (K < fuel)%nat →
  connect_retry fuel attempt ip port st
    = Returned tt (logged (retry_events K ip port) st).
Proof.
  induction K as [|K IH]; intros fuel attempt ip port st Hrun Hfail Hok Hfuel;
    (destruct fuel as [|fuel]; [lia|]); cbn [connect_retry].
  - rewrite Nat.add_0_r in Hok. unfold_M. cbn. by rewrite Hrun, Hok.
  - pose proof (Hfail 0%nat ltac:(lia)) as Hfirst.
    rewrite Nat.add_0_r in Hfirst.
    unfold_M. cbn. rewrite Hrun, Hfirst. cbn. rewrite Hrun.
    rewrite IH; [|done| |by rewrite Nat.add_succ_comm|lia].
    + unfold logged, retry_events. cbn. by rewrite <- !app_assoc.
    + intros i Hi. rewrite Nat.add_succ_comm. apply Hfail. lia.
Qed.

Lemma connect_retry_never_raises fuel : ∀ attempt ip port st e st',
  connect_retry fuel attempt ip port st ≠ Raised e st'.
Proof.
  induction fuel as [|fuel IH]; intros attempt ip port st e st'; [done|].
  cbn [connect_retry]. unfold_M. cbn.
  destruct (loop_stopped (master st)); [done|].
  destruct (open_connection ip port attempt); [done|]. cbn.
  destruct (loop_stopped (master st)); [done|]. apply IH.
Qed.

Lemma __connect_succeeds (K fuel : nat) (ip : string) (port : Z) (st : State) :
  loop_stopped (master st) = false →
  (∀ i, (i < K)%nat → open_connection ip port i = false) →
  open_connection ip port K = true →
  (K < fuel)%nat →
  __connect fuel ip port st
    = Returned (ip, port)
        (logged ([Info (TryingToConnect ip port)]
                   ++ concat (replicate K [OpenConnection ip port;
                                           Info (FailedToConnect ip port);
                                           Sleep 1])
                   ++ [OpenConnection ip port; Info (ConnectedTo ip port)]) st).
Proof.
  intros Hrun Hfail Hok Hfuel. unfold __connect. unfold_M. cbn.
  rewrite (connect_retry_succeeds K fuel 0 ip port) by done.
  unfold logged, retry_events. cbn. by rewrite <- !app_assoc.
Qed.

Lemma __connect_never_raises fuel ip port st e st' :
  __connect fuel ip port st ≠ Raised e st'.
Proof.
  unfold __connect. unfold_M. cbn.
  pose proof (connect_retry_never_raises fuel 0 ip port
                {| master := master st;
                   trace := trace st ++ [Info (TryingToConnect ip port)] |})
    as Hnr.
  destruct (connect_retry fuel 0 ip port _) as [[] st1|e1 st1|st1|st1];
    try done.
  intros Heq. by eapply Hnr.
Qed.

(** C8.  If the first [K] attempts to open a connection to [ip:port] fail
    and the next one succeeds, [__connect] returns that connection, for
    every [K] (any budget above [K] gives the same result): it has tried
    [K + 1] times, slept 1 second after each failure, and logged the
    successful connection.  Whatever the attempts do, [__connect] raises
    nothing. *)
Theorem connect_retries_until_success
    (K fuel : nat) (ip : string) (port : Z) (st : State) :
  loop_stopped (master st) = false →
  (∀ i, (i < K)%nat → open_connection ip port i = false) →
  open_connection ip port K = true →
  (K < fuel)%nat →
  __connect fuel ip port st
    = Returned (ip, port)
        (logged ([Info (TryingToConnect ip port)]
                   ++ concat (replicate K [OpenConnection ip port;
                                           Info (FailedToConnect ip port);
                                           Sleep 1])
                   ++ [OpenConnection ip port; Info (ConnectedTo ip port)]) st)
  ∧ (∀ fuel' st0 e st', __connect fuel' ip port st0 ≠ Raised e st').
Proof.
  intros Hrun Hfail Hok Hfuel. split.
  - by apply __connect_succeeds.
  - intros fuel' st0 e st'. apply __connect_never_raises.
Qed.

(** ** Verifying and registering one slave *)

Lemma append_step_length slave table shardId :
  length (append_step slave table shardId) = length table.
Proof. unfold append_step. destruct (hasShard _ _); [apply length_alter|done]. Qed.

Lemma append_loop slave ids : ∀ st,
  Forall (λ i, (i < length (shardToSlaves (master st)))%nat) ids →
  for_each ids (λ shardId,
      if hasShard slave shardId then shardToSlaves_append shardId slave
      else ret tt) st
  = Returned tt
      {| master := {| shardToSlaves :=
                        foldl (append_step slave) (shardToSlaves (master st)) ids;
                      slavePool := slavePool (master st);
                      loop_stopped := loop_stopped (master st) |};
         trace := trace st |}.
Proof.
  induction ids as [|i ids IH]; intros [[table pool stopped] tr] Hids.
  - done.
  - apply Forall_cons in Hids as [Hi Hids]. cbn in Hi, Hids.
    cbn [for_each foldl]. rewrite bind_unfold. unfold append_step at 2.
    destruct (hasShard slave i) eqn:Hhas.
    + unfold shardToSlaves_append. cbn. rewrite bool_decide_eq_true_2 by done.
      rewrite IH; [done|]. cbn. eapply Forall_impl; [exact Hids|].
      intros j Hj. cbn in Hj. by rewrite length_alter.
    + cbn. by rewrite IH.
Qed.

Lemma foldl_append_step_lookup slave ids : ∀ table i,
  NoDup ids →
  foldl (append_step slave) table ids !! i =
    if decide (i ∈ ids ∧ hasShard slave i = true)
    then (λ slaves, slaves ++ [slave]) <$> table !! i
    else table !! i.
Proof. only_goal.
  induction ids as [|j ids IH]; intros table i Hnd.
  - cbn. rewrite decide_False; [done|]. intros [Hin _]. by apply elem_of_nil in Hin.
  - apply NoDup_cons in Hnd as [Hj Hnd]. cbn [foldl]. rewrite IH by done.
    unfold append_step. destruct (decide (i = j)) as [->|Hne].
    + rewrite (decide_False (P := j ∈ ids ∧ _)) by tauto.
      destruct (hasShard slave j) eqn:Hhas.
      * rewrite list_lookup_alter_eq. rewrite decide_True; [done|].
        split; [apply list_elem_of_here|done].
      * rewrite decide_False; [done|]. intros [_ ?]; congruence.
    + assert ((if hasShard slave j
               then alter (λ slaves, slaves ++ [slave]) j table
               else table) !! i = table !! i) as ->.
      { destruct (hasShard slave j); [|done]. by rewrite list_lookup_alter_ne. }
      destruct (decide (i ∈ ids ∧ hasShard slave i = true)) as [[Hin Hh]|Hno].
      * rewrite decide_True; [done|]. split; [by apply list_elem_of_further|done].
      * rewrite decide_False; [done|]. intros [Hin Hh]. apply Hno.
        apply elem_of_cons in Hin as [?|?]; [done|]. by split.
Qed.

Lemma foldl_append_step_seq slave table :
  foldl (append_step slave) table (seq 0 (length table)) = assign slave table.
Proof.
  apply list_eq. intros i.
  rewrite foldl_append_step_lookup by apply NoDup_seq.
  unfold assign. rewrite list_lookup_imap.
  destruct (table !! i) as [slaves|] eqn:Hi; cbn.
  - apply lookup_lt_Some in Hi.
    destruct (hasShard slave i) eqn:Hhas.
    + rewrite decide_True; [done|]. split; [|done]. apply elem_of_seq. lia.
    + rewrite decide_False; [done|]. intros [_ ?]; congruence.
  - by destruct (decide _).
Qed.

Lemma assign_length slave table : length (assign slave table) = length table.
Proof. unfold assign. apply length_imap. Qed.

Lemma connect_retry_Returned fuel : ∀ attempt ip port st st',
  connect_retry fuel attempt ip port st = Returned tt st' →
  master st' = master st ∧ loop_stopped (master st) = false.
Proof.
  induction fuel as [|fuel IH]; intros attempt ip port st st'; [done|].
  cbn [connect_retry]. unfold_M. cbn.
  destruct (loop_stopped (master st)) eqn:Hrun; [done|].
  destruct (open_connection ip port attempt).
  - intros [= <-]. done.
  - cbn. rewrite Hrun. intros Hret. apply IH in Hret as [-> _]. done.
Qed.

Lemma __connect_Returned fuel ip port st r st' :
  __connect fuel ip port st = Returned r st' →
  r = (ip, port) ∧ master st' = master st ∧ loop_stopped (master st) = false.
Proof.
  unfold __connect. unfold_M. cbn.
  destruct (connect_retry fuel 0 ip port _) as [[] st1| | |] eqn:Hretry; try done.
  apply connect_retry_Returned in Hretry as [Hm Hrun]. cbn in Hm, Hrun.
  intros [= <- <-]. cbn. by rewrite Hm.
Qed.

Lemma stop_if (b : bool) (ev : Event) st :
  (if b then emit ev;; shutdown else ret tt) st
  = Returned tt
      {| master := {| shardToSlaves := shardToSlaves (master st);
                      slavePool := slavePool (master st);
                      loop_stopped := loop_stopped (master st) || b |};
         trace := trace st ++ (if b then [ev] else []) |}.
Proof.
  destruct st as [[table pool stopped] tr].
  destruct b; unfold_M; cbn; by rewrite ?orb_true_r, ?orb_false_r, ?app_nil_r.
Qed.

(** [connect_slave] is [__connect] followed by the verification and the
    registration, which go through whatever the slave answered. *)
Lemma connect_slave_unfold fuel slaveInfo st :
  length (shardToSlaves (master st)) = shardSize →
  connect_slave fuel slaveInfo st =
    (__connect fuel (ip_address_str (SlaveInfo.ip slaveInfo))
       (SlaveInfo.port slaveInfo) ≫= λ _, verified slaveInfo) st.
Proof.
  intros Hlen. unfold connect_slave. rewrite !bind_unfold.
  destruct (__connect fuel _ _ st) as [r st1| | |] eqn:Hconn; try done.
  apply __connect_Returned in Hconn as (-> & Hm & Hrun).
  rewrite <- Hm in Hrun, Hlen. clear Hm. cbv beta iota.
  unfold verified.
  destruct (SlaveInfo.shardMaskList slaveInfo) as [|mask masks] eqn:Hmasks.
  { unfold SlaveConnection_init. by unfold_M. }
  assert (SlaveConnection_init (ip_address_str (SlaveInfo.ip slaveInfo))
            (SlaveInfo.port slaveInfo) (SlaveInfo.id slaveInfo) (mask :: masks) st1
          = Returned (SlaveConnection.mk (SlaveInfo.id slaveInfo) (mask :: masks)
                        (ip_address_str (SlaveInfo.ip slaveInfo))
                        (SlaveInfo.port slaveInfo) false) st1) as Hinit.
  { unfold SlaveConnection_init. rewrite bool_decide_eq_true_2 by (cbn; lia).
    by unfold_M. }
  rewrite (bind_Returned _ _ _ _ _ Hinit).
  assert (waitUntilActive
            (SlaveConnection.mk (SlaveInfo.id slaveInfo) (mask :: masks)
               (ip_address_str (SlaveInfo.ip slaveInfo))
               (SlaveInfo.port slaveInfo) false) st1
          = Returned (connection_of slaveInfo) st1) as Hwait.
  { unfold waitUntilActive, connection_of. unfold_M. cbn. by rewrite Hrun, Hmasks. }
  rewrite (bind_Returned _ _ _ _ _ Hwait).
  assert (sendPing (connection_of slaveInfo) st1
          = Returned (ping_of slaveInfo)
              (logged [PingRequest (connection_of slaveInfo)] st1)) as Hping.
  { unfold sendPing. unfold_M. cbn. by rewrite Hrun. }
  rewrite (bind_Returned _ _ _ _ _ Hping).
  destruct (ping_of slaveInfo) as [id shardMaskList] eqn:Hreply.
  cbv beta iota.
  rewrite <- Hmasks.
  rewrite (bind_Returned _ _ _ _ _ (stop_if _ _ _)).
  rewrite (bind_Returned _ _ _ _ _ (stop_if _ _ _)).
  unfold slavePool_add at 1. rewrite bind_unfold. cbv beta iota.
  rewrite append_loop.
  - cbn. rewrite <- Hlen at 1. rewrite foldl_append_step_seq.
    unfold register, mismatch, verify_events, logged. rewrite Hreply. cbn.
    by rewrite <- !app_assoc, orb_assoc.
  - cbn. apply Forall_forall. intros i Hi%elem_of_seq. lia.
Qed.

Lemma verified_length slaveInfo st st' :
  verified slaveInfo st = Returned tt st' →
  length (shardToSlaves (master st')) = length (shardToSlaves (master st)).
Proof.
  unfold verified. destruct (SlaveInfo.shardMaskList slaveInfo); [done|].
  intros [= <-]. cbn. apply assign_length.
Qed.

(** ** The connect and verify phase *)

Lemma register_all_length infos : ∀ m,
  length (shardToSlaves (register_all infos m)) = length (shardToSlaves m).
Proof.
  induction infos as [|info infos IH]; intros m; [done|].
  cbn. unfold register_all in IH. rewrite IH. cbn. apply assign_length.
Qed.

Lemma register_all_pool infos : ∀ m,
  slavePool (register_all infos m) = slavePool m ++ (connection_of <$> infos).
Proof.
  induction infos as [|info infos IH]; intros m; cbn.
  - by rewrite app_nil_r.
  - unfold register_all in IH. rewrite IH. cbn. by rewrite <- app_assoc.
Qed.

Lemma register_all_lookup infos : ∀ m shardId,
  shardToSlaves (register_all infos m) !! shardId =
    (λ slaves, slaves ++ filter (λ slave, hasShard slave shardId = true)
                               (connection_of <$> infos))
      <$> shardToSlaves m !! shardId.
Proof.
  induction infos as [|info infos IH]; intros m shardId.
  - cbn. destruct (shardToSlaves m !! shardId); cbn; [|done]. by rewrite app_nil_r.
  - change (register_all (info :: infos) m)
      with (register_all infos (register (connection_of info) (mismatch info) m)).
    rewrite IH. cbn [register shardToSlaves]. unfold assign.
    rewrite list_lookup_imap, fmap_cons, filter_cons.
    destruct (shardToSlaves m !! shardId); cbn [fmap option_fmap option_map]; [|done].
    destruct (hasShard (connection_of info) shardId) eqn:Hhas.
    + rewrite decide_True by done. by rewrite <- app_assoc.
    + rewrite decide_False by congruence. done.
Qed.

Lemma connectToSlaves_Returned fuel infos : ∀ st st',
  length (shardToSlaves (master st)) = shardSize →
  for_each infos (connect_slave fuel) st = Returned tt st' →
  master st' = register_all infos (master st).
Proof.
  induction infos as [|info infos IH]; intros st st' Hlen.
  - by intros [= <-].
  - cbn [for_each]. rewrite bind_unfold, connect_slave_unfold, bind_unfold by done.
    destruct (__connect fuel _ _ st) as [r st1| | |] eqn:Hconn; try done.
    apply __connect_Returned in Hconn as (_ & Hm & _).
    destruct (verified info st1) as [[] st2| | |] eqn:Hver; try done.
    intros Hrest. apply IH in Hrest.
    + rewrite Hrest. cbn. f_equal. unfold verified in Hver.
      destruct (SlaveInfo.shardMaskList info); [done|].
      injection Hver as <-. cbn. by rewrite Hm.
    + apply verified_length in Hver. by rewrite Hver, Hm.
Qed.

Lemma hasAllShards_spec m :
  __hasAllShards m = true ↔
  ∀ shardId slaves, shardToSlaves m !! shardId = Some slaves → slaves ≠ [].
Proof.
  unfold __hasAllShards. rewrite forallb_forall. split.
  - intros Hall shardId slaves Hl.
    apply list_elem_of_lookup_2, list_elem_of_In, Hall in Hl.
    apply bool_decide_eq_true in Hl. by destruct slaves; [cbn in Hl; lia|].
  - intros Hall slaves Hin. apply list_elem_of_In, list_elem_of_lookup in Hin as [i Hi].
    apply bool_decide_eq_true. specialize (Hall i slaves Hi).
    destruct slaves; [done|cbn; lia].
Qed.

(** After the connect phase, started on the empty table, every shard has a
    slave exactly when the configuration covers every shard. *)
Lemma hasAllShards_register_all config :
  __hasAllShards (register_all (getSlaveInfoList config) MasterServer_init) = true
  ↔ ∀ shardId, (shardId < shardSize)%nat → covered config shardId.
Proof.
  rewrite hasAllShards_spec. split.
  - intros Hall shardId Hlt.
    specialize (Hall shardId
      (filter (λ slave, hasShard slave shardId = true)
              (connection_of <$> getSlaveInfoList config))).
    rewrite register_all_lookup in Hall. cbn in Hall.
    rewrite lookup_replicate_2 in Hall by done. cbn in Hall.
    specialize (Hall eq_refl).
    destruct (filter _ _) as [|slave rest] eqn:Hfilter; [done|].
    assert (slave ∈ filter (λ slave, hasShard slave shardId = true)
                      (connection_of <$> getSlaveInfoList config)) as Hin
      by (rewrite Hfilter; apply list_elem_of_here).
    apply list_elem_of_filter in Hin as [Hhas Hin].
    apply list_elem_of_fmap in Hin as (info & -> & Hin).
    by exists info.
  - intros Hcov shardId slaves. rewrite register_all_lookup. cbn.
    intros Hl. destruct (replicate shardSize [] !! shardId) as [l|] eqn:Hrep;
      [|done].
    apply lookup_replicate in Hrep as [-> Hlt]. cbn in Hl. injection Hl as <-.
    destruct (Hcov shardId Hlt) as (info & Hin & Hc).
    intros Hnil.
    assert (connection_of info ∈
              filter (λ slave, hasShard slave shardId = true)
                     (connection_of <$> getSlaveInfoList config)) as Hmem.
    { apply list_elem_of_filter. split; [done|]. by apply list_elem_of_fmap_2. }
    rewrite Hnil in Hmem. by apply elem_of_nil in Hmem.
Qed.

Lemma for_each_emit {A} (f : A → Event) (l : list A) : ∀ st,
  for_each l (λ x, emit (f x)) st = Returned tt (logged (f <$> l) st).
Proof.
  induction l as [|x l IH]; intros st; cbn [for_each].
  - by rewrite logged_nil.
  - rewrite bind_unfold. cbn. rewrite IH. unfold logged. cbn.
    by rewrite <- app_assoc.
Qed.

Lemma for_each_ext {A} (f g : A → M unit) (l : list A) :
  (∀ x st, f x st = g x st) → ∀ st, for_each l f st = for_each l g st.
Proof.
  intros Hfg. induction l as [|x l IH]; intros st; cbn [for_each]; [done|].
  rewrite !bind_unfold, Hfg. destruct (g x st); [apply IH|done..].
Qed.

Lemma logSummary_Returned st :
  __logSummary st = Returned tt (logged (summary_events (master st)) st).
Proof.
  unfold __logSummary, summary_events.
  rewrite <- (for_each_emit
    (λ '(shardId, slaves), Info (ShardRunBy shardId (SlaveConnection.id <$> slaves)))).
  apply for_each_ext. by intros [shardId slaves] st'.
Qed.

(** ** What each phase adds to the trace *)

Section PhaseEvents.

Context (E : Event → Prop).
Hypothesis E_other : ∀ ev, is_request ev = false → E ev.

#[local] Set Default Proof Using "Type E_other".

Ltac adds_only_step :=
  first [ apply adds_only_ret | apply adds_only_raise | apply adds_only_suspend
        | apply adds_only_shutdown | apply adds_only_check
        | apply adds_only_emit, E_other; reflexivity
        | apply adds_only_bind; [|intros ?]
        | apply adds_only_if ].

Lemma connect_retry_adds fuel : ∀ attempt ip port,
  adds_only E (connect_retry fuel attempt ip port).
Proof.
  induction fuel as [|fuel IH]; intros attempt ip port; cbn [connect_retry].
  - intros st. exists []. by rewrite app_nil_r.
  - repeat adds_only_step. apply IH.
Qed.

Lemma __connect_adds fuel ip port : adds_only E (__connect fuel ip port).
Proof. unfold __connect. repeat adds_only_step. apply connect_retry_adds. Qed.

Lemma slavePool_add_adds slave : adds_only E (slavePool_add slave).
Proof. intros st. exists []. by rewrite app_nil_r. Qed.

Lemma shardToSlaves_append_adds shardId slave :
  adds_only E (shardToSlaves_append shardId slave).
Proof.
  intros st. exists []. rewrite app_nil_r. unfold shardToSlaves_append.
  by destruct (bool_decide _).
Qed.

Lemma waitUntilActive_adds slave : adds_only E (waitUntilActive slave).
Proof. unfold waitUntilActive. repeat adds_only_step. Qed.

Lemma connect_slave_adds fuel slaveInfo : adds_only E (connect_slave fuel slaveInfo).
Proof.
  unfold connect_slave.
  apply adds_only_bind; [apply __connect_adds|intros [reader writer]].
  apply adds_only_bind;
    [unfold SlaveConnection_init; repeat adds_only_step|intros slave0].
  apply adds_only_bind; [apply waitUntilActive_adds|intros slave].
  apply adds_only_bind;
    [unfold sendPing; repeat adds_only_step|intros [id shardMaskList]].
  apply adds_only_bind;
    [apply adds_only_if; [repeat adds_only_step|apply adds_only_ret]|intros _].
  apply adds_only_bind;
    [apply adds_only_if; [repeat adds_only_step|apply adds_only_ret]|intros _].
  apply adds_only_bind; [apply slavePool_add_adds|intros _].
  apply adds_only_for_each. intros shardId.
  apply adds_only_if; [apply shardToSlaves_append_adds|apply adds_only_ret].
Qed.

Lemma __connectToSlaves_adds fuel config : adds_only E (__connectToSlaves fuel config).
Proof. apply adds_only_for_each. intros slaveInfo. apply connect_slave_adds. Qed.

Lemma __logSummary_adds : adds_only E __logSummary.
Proof.
  intros st. rewrite logSummary_Returned. eexists. split; [done|].
  unfold summary_events. apply Forall_fmap, Forall_forall.
  intros [shardId slaves] _. by apply E_other.
Qed.

Lemma check_results_adds slave resultList : ∀ targets,
  adds_only E (check_results slave resultList targets).
Proof.
  induction resultList as [|result results IH]; intros targets; cbn [check_results].
  - repeat adds_only_step.
  - apply adds_only_if; [|apply IH].
    destruct targets; repeat adds_only_step.
Qed.

Lemma sendConnectToSlaves_adds slave slaveInfoList :
  E (ConnectToSlavesRequest slave slaveInfoList) →
  adds_only E (sendConnectToSlaves slave slaveInfoList).
Proof.
  intros HE. unfold sendConnectToSlaves.
  apply adds_only_bind; [by apply adds_only_emit|intros _].
  apply adds_only_bind; [apply adds_only_suspend|intros _].
  apply adds_only_bind; [apply adds_only_check|intros _].
  apply check_results_adds.
Qed.

Lemma setup_slave_adds config slave :
  (∀ slave', E (ConnectToSlavesRequest slave' (getSlaveInfoList config))) →
  adds_only E (setup_slave config slave).
Proof.
  intros HE. unfold setup_slave.
  apply adds_only_bind; [apply waitUntilActive_adds|intros slave'].
  apply adds_only_bind; [by apply sendConnectToSlaves_adds|intros success].
  apply adds_only_if; [apply adds_only_shutdown|apply adds_only_ret].
Qed.

Lemma __setupSlaveToSlaveConnections_adds config :
  (∀ slave', E (ConnectToSlavesRequest slave' (getSlaveInfoList config))) →
  adds_only E (__setupSlaveToSlaveConnections config).
Proof.
  intros HE st. unfold __setupSlaveToSlaveConnections.
  apply adds_only_for_each. intros slave. by apply setup_slave_adds.
Qed.

Lemma __initCluster_adds fuel config :
  (∀ slave', E (ConnectToSlavesRequest slave' (getSlaveInfoList config))) →
  adds_only E (__initCluster fuel config).
Proof.
  intros HE. unfold __initCluster.
  apply adds_only_bind; [apply __connectToSlaves_adds|intros _].
  apply adds_only_bind; [apply __logSummary_adds|intros _].
  intros st. destruct (negb (__hasAllShards (master st))).
  - by apply adds_only_emit, E_other.
  - by apply __setupSlaveToSlaveConnections_adds.
Qed.

#[local] Set Default Proof Using "Type".

End PhaseEvents.

(** ** The mesh phase *)

Lemma check_results_cases slave results : ∀ targets st,
  check_results slave results targets st
    = Returned true
        (logged [Info (SlaveConnectedToOthers (SlaveConnection.id slave))] st)
  ∨ (∃ target error,
       check_results slave results targets st
         = Returned false
             (logged [Info (SlaveFailedToConnect (SlaveConnection.id slave)
                              target error)] st))
  ∨ check_results slave results targets st = Raised IndexError st.
Proof.
  induction results as [|result results IH]; intros targets st;
    cbn [check_results].
  - by left.
  - destruct (bool_decide (0 < String.length result)%nat); [|apply IH].
    destruct targets as [|target targets]; [by right; right|].
    right; left. by eexists _, _.
Qed.

Lemma check_results_spec slave results : ∀ targets st,
  length results = length targets →
  ∃ msg,
    check_results slave results targets st
      = Returned (bool_decide (Forall (λ result, result = "") results))
          (logged [Info msg] st)
    ∧ (Forall (λ result, result = "") results →
         msg = SlaveConnectedToOthers (SlaveConnection.id slave))
    ∧ (¬ Forall (λ result, result = "") results →
         ∃ target error,
           msg = SlaveFailedToConnect (SlaveConnection.id slave) target error).
Proof. only_goal.
  induction results as [|result results IH]; intros targets st Hlen;
    cbn [check_results].
  - eexists. rewrite bool_decide_eq_true_2 by constructor.
    split; [done|]. split; [done|]. intros Hno. destruct Hno. constructor.
  - destruct targets as [|target targets]; [done|]. cbn in Hlen.
    destruct result as [|c result]; cbn [String.length].
    + rewrite bool_decide_eq_false_2 by lia.
      destruct (IH targets st ltac:(lia)) as (msg & Hres & Hall & Hnot).
      exists msg. cbn [tail]. rewrite Hres. split; [|split].
      * f_equal. apply bool_decide_ext. rewrite Forall_cons. tauto.
      * intros [_ ?]%Forall_cons. by apply Hall.
      * intros Hno. apply Hnot. intros ?. apply Hno. by constructor.
    + rewrite bool_decide_eq_true_2 by lia. eexists.
      rewrite bool_decide_eq_false_2 by (by intros [? _]%Forall_cons).
      split; [done|]. split.
      * by intros [? _]%Forall_cons.
      * intros _. by eexists _, _.
Qed.

Lemma sendConnectToSlaves_running slave targets st :
  loop_stopped (master st) = false →
  sendConnectToSlaves slave targets st =
    (check (bool_decide (length (connect_to_slaves_reply slave targets)
                         = length targets));;
     check_results slave (connect_to_slaves_reply slave targets) targets)
      (logged [ConnectToSlavesRequest slave targets] st).
Proof.
  intros Hrun. unfold sendConnectToSlaves.
  rewrite (bind_Returned _ _ _ _ _ (emit_logged _ _)).
  by rewrite (bind_Returned _ _ _ tt (logged [ConnectToSlavesRequest slave targets] st))
    by by apply suspend_running.
Qed.

(** One turn of the mesh loop: whatever it adds to the trace, a logged
    failure comes with the loop stopped, and a stopped loop stays so. *)
Lemma setup_slave_stops config slave st :
  ∃ events,
    trace (final (setup_slave config slave st)) = trace st ++ events
    ∧ (mesh_failure_logged events →
       loop_stopped (master (final (setup_slave config slave st))) = true)
    ∧ (loop_stopped (master st) = true →
       loop_stopped (master (final (setup_slave config slave st))) = true).
Proof.
  assert (Hno : ∀ ev, is_request ev = true ∨ ev = Info (SlaveConnectedToOthers
                  (SlaveConnection.id slave)) →
                ¬ mesh_failure_logged [ev]).
  { intros ev Hev (a & b & c & Hin). apply list_elem_of_singleton in Hin.
    subst ev. by destruct Hev. }
  assert (Hnil : ¬ mesh_failure_logged []).
  { intros (a & b & c & Hin). by apply elem_of_nil in Hin. }
  unfold setup_slave. rewrite bind_unfold.
  destruct (loop_stopped (master st)) eqn:Hrun.
  - (* a stopped loop: whatever happens, it stays stopped *)
    unfold waitUntilActive. destruct (SlaveConnection.active slave).
    + cbn. unfold sendConnectToSlaves. unfold_M. cbn. rewrite Hrun.
      exists [ConnectToSlavesRequest slave (getSlaveInfoList config)].
      cbn. split; [done|]. split; [|done]. intros Hf. by eapply Hno in Hf; [|left].
    + unfold_M. cbn. rewrite Hrun. exists []. cbn. rewrite app_nil_r.
      by rewrite Hrun.
  - set (slave' := SlaveConnection.mk (SlaveConnection.id slave)
                     (SlaveConnection.shardMaskList slave)
                     (SlaveConnection.peer_ip slave)
                     (SlaveConnection.peer_port slave) true).
    assert (Hwait : ∃ s, SlaveConnection.id s = SlaveConnection.id slave
                         ∧ waitUntilActive slave st = Returned s st).
    { unfold waitUntilActive. destruct (SlaveConnection.active slave).
      - by exists slave.
      - exists slave'. unfold_M. cbn. by rewrite Hrun. }
    destruct Hwait as (s & Hid & ->). rewrite bind_unfold.
    rewrite sendConnectToSlaves_running by done. rewrite bind_unfold.
    unfold check.
    destruct (bool_decide (length _ = length _)).
    + destruct (check_results_cases s
                  (connect_to_slaves_reply s (getSlaveInfoList config))
                  (getSlaveInfoList config)
                  (logged [ConnectToSlavesRequest s (getSlaveInfoList config)] st))
        as [Hres|[(target & error & Hres)|Hres]]; cbn; rewrite Hres; cbn.
      * eexists. rewrite <- app_assoc. split; [done|]. split; [|by rewrite Hrun].
        intros (a & b & c & Hin). cbn in Hin.
        apply elem_of_cons in Hin as [?|Hin]; [done|].
        apply list_elem_of_singleton in Hin. done.
      * eexists. rewrite <- app_assoc. by split.
      * eexists. split; [done|]. split; [|by rewrite Hrun].
        intros Hf. by eapply Hno in Hf; [|left].
    + cbn. eexists. split; [done|]. split; [|by rewrite Hrun].
      intros Hf. by eapply Hno in Hf; [|left].
Qed.

Lemma mesh_loop_stops config slaves : ∀ st,
  ∃ events,
    trace (final (for_each slaves (setup_slave config) st)) = trace st ++ events
    ∧ (mesh_failure_logged events →
       loop_stopped (master (final (for_each slaves (setup_slave config) st))) = true)
    ∧ (loop_stopped (master st) = true →
       loop_stopped (master (final (for_each slaves (setup_slave config) st))) = true).
Proof.
  induction slaves as [|slave slaves IH]; intros st; cbn [for_each].
  - exists []. cbn. rewrite app_nil_r. split; [done|]. split; [|done].
    intros (a & b & c & Hin). by apply elem_of_nil in Hin.
  - rewrite bind_unfold.
    destruct (setup_slave_stops config slave st) as (ev1 & Htr1 & Hf1 & Hmono1).
    destruct (setup_slave config slave st) as [[] st1| | |]; cbn in *;
      try by exists ev1.
    destruct (IH st1) as (ev2 & Htr2 & Hf2 & Hmono2).
    exists (ev1 ++ ev2). rewrite Htr2, Htr1, app_assoc. split; [done|].
    split; [|by intros ?; apply Hmono2, Hmono1].
    intros (a & b & c & Hin). apply elem_of_app in Hin as [Hin|Hin].
    + apply Hmono2, Hf1. by exists a, b, c.
    + apply Hf2. by exists a, b, c.
Qed.

(** The turn of a slave that is active starts with its request, written
    before the coroutine waits for anything: whatever becomes of the turn
    afterwards, the request is in the trace. *)
Lemma setup_slave_requests config slave st :
  SlaveConnection.active slave = true →
  ∃ events,
    trace (final (setup_slave config slave st))
    = trace st ++ ConnectToSlavesRequest slave (getSlaveInfoList config) :: events.
Proof.
  intros Hactive.
  set (infos := getSlaveInfoList config).
  set (rest := ((suspend;;
                 check (bool_decide (length (connect_to_slaves_reply slave infos)
                                     = length infos));;
                 check_results slave (connect_to_slaves_reply slave infos) infos)
                ≫= (λ success : bool, if negb success then shutdown else ret tt))
               : M unit).
  assert (Hstep : setup_slave config slave st
                  = rest (logged [ConnectToSlavesRequest slave infos] st)).
  { unfold setup_slave, waitUntilActive. by rewrite Hactive. }
  assert (Hrest : adds_only (λ _, True) rest).
  { apply adds_only_bind.
    - apply adds_only_bind; [apply adds_only_suspend|intros _].
      apply adds_only_bind; [apply adds_only_check|intros _].
      by apply check_results_adds.
    - intros success.
      apply adds_only_if; [apply adds_only_shutdown|apply adds_only_ret]. }
  destruct (Hrest (logged [ConnectToSlavesRequest slave infos] st))
    as (events & Htr & _).
  exists events. rewrite Hstep, Htr. cbn. by rewrite <- app_assoc.
Qed.

(** So the mesh loop over a pool whose first slave is active sends at
    least the request of that slave. *)
Lemma mesh_loop_requests config slave rest st :
  SlaveConnection.active slave = true →
  ConnectToSlavesRequest slave (getSlaveInfoList config)
    ∈ trace (final (for_each (slave :: rest) (setup_slave config) st)).
Proof.
  intros Hactive. cbn [for_each]. rewrite bind_unfold.
  destruct (setup_slave_requests config slave st Hactive) as (events & Htr).
  assert (Hin : ConnectToSlavesRequest slave (getSlaveInfoList config)
                  ∈ trace (final (setup_slave config slave st))).
  { rewrite Htr. apply elem_of_app; right. apply list_elem_of_here. }
  destruct (setup_slave config slave st) as [[] st1| | |]; cbn in *; try done.
  destruct (mesh_loop_stops config rest st1) as (more & Hmore & _).
  rewrite Hmore. apply elem_of_app. by left.
Qed.

(** ** The bring-up as a whole *)

Lemma connect_slave_runs fuel slaveInfo st :
  length (shardToSlaves (master st)) = shardSize →
  loop_stopped (master st) = false →
  reachable fuel slaveInfo →
  SlaveInfo.shardMaskList slaveInfo ≠ [] →
  ∃ st', connect_slave fuel slaveInfo st = Returned tt st'
         ∧ master st' = register (connection_of slaveInfo) (mismatch slaveInfo)
                          (master st).
Proof.
  intros Hlen Hrun (K & Hfuel & Hfail & Hok) Hmasks.
  rewrite connect_slave_unfold by done.
  rewrite (bind_Returned _ _ _ _ _
             (__connect_succeeds K fuel _ _ st Hrun Hfail Hok Hfuel)).
  unfold verified. destruct (SlaveInfo.shardMaskList slaveInfo); [done|].
  by eexists.
Qed.

Lemma connectToSlaves_runs fuel infos : ∀ st,
  length (shardToSlaves (master st)) = shardSize →
  loop_stopped (master st) = false →
  Forall (well_behaved fuel) infos →
  ∃ st', for_each infos (connect_slave fuel) st = Returned tt st'
         ∧ master st' = register_all infos (master st)
         ∧ loop_stopped (master st') = false.
Proof.
  induction infos as [|info infos IH]; intros st Hlen Hrun Hall.
  - by exists st.
  - apply Forall_cons in Hall as [(Hreach & Hmasks & Hmatch) Hall].
    destruct (connect_slave_runs fuel info st Hlen Hrun Hreach Hmasks)
      as (st1 & Hone & Hm1).
    cbn [for_each]. rewrite (bind_Returned _ _ _ _ _ Hone).
    destruct (IH st1) as (st' & Hrest & Hm' & Hrun'); [| |done|].
    + rewrite Hm1. cbn. by rewrite assign_length.
    + rewrite Hm1. cbn. by rewrite Hrun, Hmatch.
    + exists st'. split; [done|]. split; [|done]. rewrite Hm', Hm1. done.
Qed.

Lemma register_member slave stop m shardId :
  (shardId < length (shardToSlaves m))%nat →
  hasShard slave shardId = true →
  ∃ slaves, shardToSlaves (register slave stop m) !! shardId = Some slaves
            ∧ slave ∈ slaves.
Proof.
  intros Hlt Hhas. apply lookup_lt_is_Some in Hlt as [slaves Hl].
  exists (slaves ++ [slave]). cbn. unfold assign.
  rewrite list_lookup_imap, Hl. cbn. rewrite Hhas. split; [done|].
  apply elem_of_app. right. apply list_elem_of_here.
Qed.

(** C1, what the code does instead.  A slave that is reached and answers
    the ping with an id or a shard mask list other than the configured one
    has [shutdown] called for it, which stops the event loop, and is then
    put into [slavePool] and into the list of every shard its configured
    masks cover, just as a slave that answered as configured. *)
Theorem mismatched_slave_is_registered
    (fuel : nat) (slaveInfo : SlaveInfo.t) (st : State) :
  length (shardToSlaves (master st)) = shardSize →
  loop_stopped (master st) = false →
  reachable fuel slaveInfo →
  SlaveInfo.shardMaskList slaveInfo ≠ [] →
  ping_of slaveInfo ≠ (SlaveInfo.id slaveInfo, SlaveInfo.shardMaskList slaveInfo) →
  ∃ st', connect_slave fuel slaveInfo st = Returned tt st'
    ∧ loop_stopped (master st') = true
    ∧ connection_of slaveInfo ∈ slavePool (master st')
    ∧ (∀ shardId, (shardId < shardSize)%nat → covers slaveInfo shardId = true →
         ∃ slaves, shardToSlaves (master st') !! shardId = Some slaves
                   ∧ connection_of slaveInfo ∈ slaves).
Proof.
  intros Hlen Hrun Hreach Hmasks Hdiff.
  destruct (connect_slave_runs fuel slaveInfo st Hlen Hrun Hreach Hmasks)
    as (st' & Hret & Hm).
  assert (mismatch slaveInfo = true) as Hmis.
  { unfold mismatch. destruct (ping_of slaveInfo) as [id shardMaskList]. cbn.
    apply orb_true_iff.
    destruct (decide (id = SlaveInfo.id slaveInfo)) as [->|Hid].
    - right. apply bool_decide_eq_true. congruence.
    - left. by apply bool_decide_eq_true. }
  exists st'. split; [done|]. rewrite Hm, Hmis. split; [|split].
  - cbn. apply orb_true_r.
  - cbn. apply elem_of_app. right. apply list_elem_of_here.
  - intros shardId Hlt Hcov. apply register_member; [by rewrite Hlen|done].
Qed.

(** C3.  Started on the empty table: when some shard below [shardSize] is
    covered by no configured slave, no mesh request is ever sent, and a
    connect phase that returns is followed by the summary, the error
    about missing shards and the return of [__initCluster]; when every
    shard is covered, a connect phase that returns is followed by the
    summary and the mesh phase, in which (there being a shard at all, and
    the iteration over the pool going through the slaves of the pool) the
    first slave of the iteration is sent its [CONNECT_TO_SLAVES] request;
    and the connect phase does return if the slaves are reachable and
    answer as configured. *)
Theorem shard_coverage_gates_mesh (fuel : nat) (config : Config.t) :
  let start := {| master := MasterServer_init; trace := [] |} in
  ((∃ shardId, (shardId < shardSize)%nat ∧ ¬ covered config shardId) →
     Forall (λ ev, is_request ev = false)
            (trace (final (__initCluster fuel config start)))
     ∧ (∀ st1, __connectToSlaves fuel config start = Returned tt st1 →
          __initCluster fuel config start
            = Returned tt
                (logged (summary_events (master st1) ++ [Error MissingSomeShards])
                        st1)))
  ∧ ((∀ shardId, (shardId < shardSize)%nat → covered config shardId) →
     (∀ st1, __connectToSlaves fuel config start = Returned tt st1 →
        __initCluster fuel config start
          = __setupSlaveToSlaveConnections config
              (logged (summary_events (master st1)) st1))
     ∧ ((∀ pool, set_iter pool ≡ₚ pool) → (0 < shardSize)%nat →
        ∀ st1, __connectToSlaves fuel config start = Returned tt st1 →
          ∃ slave rest,
            set_iter (slavePool (master st1)) = slave :: rest
            ∧ slave ∈ slavePool (master st1)
            ∧ ConnectToSlavesRequest slave (getSlaveInfoList config)
                ∈ trace (final (__initCluster fuel config start)))
     ∧ (Forall (well_behaved fuel) (getSlaveInfoList config) →
        ∃ st1, __connectToSlaves fuel config start = Returned tt st1
               ∧ loop_stopped (master st1) = false
               ∧ slavePool (master st1)
                   = connection_of <$> getSlaveInfoList config)).
Proof.
  intros start.
  assert (Hlen : length (shardToSlaves (master start)) = shardSize)
    by apply length_replicate.
  assert (Hphase : ∀ st1, __connectToSlaves fuel config start = Returned tt st1 →
            master st1 = register_all (getSlaveInfoList config) MasterServer_init).
  { intros st1 Hc. by apply connectToSlaves_Returned in Hc. }
  split.
  - intros (shardId & Hlt & Hgap).
    assert (Hmiss : ∀ st1, __connectToSlaves fuel config start = Returned tt st1 →
              __initCluster fuel config start
              = Returned tt
                  (logged (summary_events (master st1) ++ [Error MissingSomeShards])
                          st1)).
    { intros st1 Hc. unfold __initCluster.
      rewrite (bind_Returned _ _ _ _ _ Hc).
      rewrite (bind_Returned _ _ _ _ _ (logSummary_Returned st1)).
      cbn [master logged].
      assert (__hasAllShards (master st1) = false) as ->.
      { apply not_true_is_false. rewrite (Hphase st1 Hc).
        rewrite hasAllShards_register_all. intros Hall. by apply Hgap, Hall. }
      cbn. unfold logged. cbn. by rewrite app_assoc. }
    split; [|done].
    destruct (__connectToSlaves_adds (λ ev, is_request ev = false)
                ltac:(done) fuel config start) as (events & Htr & Hev).
    destruct (__connectToSlaves fuel config start) as [[] st1| | |] eqn:Hc.
    + rewrite (Hmiss st1 eq_refl). cbn in *. rewrite Htr. cbn.
      apply Forall_app. split; [done|]. apply Forall_app. split.
      * unfold summary_events. apply Forall_fmap, Forall_forall.
        by intros [? ?] _.
      * by repeat constructor.
    + unfold __initCluster. rewrite bind_unfold, Hc. cbn in *. by rewrite Htr.
    + unfold __initCluster. rewrite bind_unfold, Hc. cbn in *. by rewrite Htr.
    + unfold __initCluster. rewrite bind_unfold, Hc. cbn in *. by rewrite Htr.
  - intros Hcov.
    assert (Hmesh : ∀ st1, __connectToSlaves fuel config start = Returned tt st1 →
              __initCluster fuel config start
              = __setupSlaveToSlaveConnections config
                  (logged (summary_events (master st1)) st1)).
    { intros st1 Hc. unfold __initCluster.
      rewrite (bind_Returned _ _ _ _ _ Hc).
      rewrite (bind_Returned _ _ _ _ _ (logSummary_Returned st1)).
      cbn [master logged].
      assert (__hasAllShards (master st1) = true) as ->; [|done].
      rewrite (Hphase st1 Hc). by apply hasAllShards_register_all. }
    split; [exact Hmesh|]. split.
    + intros Hiter Hsize st1 Hc.
      assert (Hpool : slavePool (master st1)
                      = connection_of <$> getSlaveInfoList config)
        by (by rewrite (Hphase st1 Hc), register_all_pool).
      destruct (Hcov 0%nat Hsize) as (info & Hinfo & _).
      pose proof (Hiter (slavePool (master st1))) as Hperm.
      destruct (set_iter (slavePool (master st1))) as [|slave rest] eqn:Hset.
      { exfalso. apply Permutation_nil_l in Hperm.
        rewrite Hpool in Hperm. symmetry in Hperm. apply fmap_nil_inv in Hperm.
        rewrite Hperm in Hinfo. by apply elem_of_nil in Hinfo. }
      assert (Hin : slave ∈ slavePool (master st1)).
      { rewrite <- Hperm. apply list_elem_of_here. }
      exists slave, rest. split; [done|]. split; [done|].
      rewrite (Hmesh st1 Hc). unfold __setupSlaveToSlaveConnections.
      cbn [master logged]. rewrite Hset. apply mesh_loop_requests.
      rewrite Hpool in Hin. by apply list_elem_of_fmap in Hin as (i & -> & _).
    + intros Hgood.
      destruct (connectToSlaves_runs fuel (getSlaveInfoList config) start
                  Hlen eq_refl Hgood) as (st1 & Hc & Hm & Hrun).
      exists st1. split; [done|]. split; [done|].
      by rewrite Hm, register_all_pool.
Qed.

(** C5, amended.  Every mesh request sent during the bring-up, to
    whichever slave, carries the whole configured slave list, the entry of
    the slave it is sent to included. *)
Theorem mesh_request_carries_whole_list
    (fuel : nat) (config : Config.t) (st : State) :
  ∃ events,
    trace (final (__initCluster fuel config st)) = trace st ++ events
    ∧ ∀ slave targets,
        ConnectToSlavesRequest slave targets ∈ events →
        targets = getSlaveInfoList config.
Proof.
  destruct (__initCluster_adds
              (λ ev, ∀ slave targets,
                 ev = ConnectToSlavesRequest slave targets →
                 targets = getSlaveInfoList config)
              ltac:(by intros [] ?) fuel config ltac:(by intros ? ? ? [= _ <-]) st)
    as (events & Htr & Hev).
  exists events. split; [done|]. intros slave targets Hin.
  eapply Forall_forall in Hev; [|exact Hin]. by eapply Hev.
Qed.

(** C6.  With the loop running, [sendConnectToSlaves] writes the request
    and, once the answer is there, raises [AssertionError] if the result
    list is not as long as the list sent, and otherwise returns [True]
    exactly when every result is the empty string, logging the failure
    when it returns [False]; and in the mesh phase a logged failure, that
    is a [sendConnectToSlaves] that returned [False], always comes with
    [shutdown] called. *)
Theorem mesh_failure_stops_bringup
    (config : Config.t) (slave : SlaveConnection.t)
    (targets : list SlaveInfo.t) (st : State) :
  (loop_stopped (master st) = false →
     (length (connect_to_slaves_reply slave targets) ≠ length targets →
        sendConnectToSlaves slave targets st
          = Raised AssertionError (logged [ConnectToSlavesRequest slave targets] st))
     ∧ (length (connect_to_slaves_reply slave targets) = length targets →
        ∃ msg,
          sendConnectToSlaves slave targets st
            = Returned
                (bool_decide (Forall (λ result, result = "")
                                     (connect_to_slaves_reply slave targets)))
                (logged [ConnectToSlavesRequest slave targets; Info msg] st)
          ∧ (Forall (λ result, result = "") (connect_to_slaves_reply slave targets) →
               msg = SlaveConnectedToOthers (SlaveConnection.id slave))
          ∧ (¬ Forall (λ result, result = "") (connect_to_slaves_reply slave targets) →
               ∃ target error,
                 msg = SlaveFailedToConnect (SlaveConnection.id slave) target error)))
  ∧ (∃ events,
       trace (final (__setupSlaveToSlaveConnections config st)) = trace st ++ events
       ∧ (mesh_failure_logged events →
          loop_stopped (master (final (__setupSlaveToSlaveConnections config st)))
            = true)).
Proof.
  split.
  - intros Hrun. rewrite sendConnectToSlaves_running by done. split.
    + intros Hlen. rewrite bind_unfold. unfold check.
      by rewrite bool_decide_eq_false_2 by done.
    + intros Hlen. rewrite bind_unfold. unfold check.
      rewrite bool_decide_eq_true_2 by done. cbn.
      destruct (check_results_spec slave (connect_to_slaves_reply slave targets)
                  targets (logged [ConnectToSlavesRequest slave targets] st) Hlen)
        as (msg & Hres & Hall & Hnot).
      exists msg. rewrite Hres, logged_logged. done.
  - unfold __setupSlaveToSlaveConnections.
    destruct (mesh_loop_stops config (set_iter (slavePool (master st))) st)
      as (events & Htr & Hfail & _).
    by exists events.
Qed.

(** ** More of the bring-up *)

(** The attempts of a call of [__connect] that used up a budget of [fuel]
    without an answer. *)
Definition failed_attempts (fuel : nat) (ip : string) (port : Z) : list Event :=
  concat (replicate fuel [OpenConnection ip port;
                          Info (FailedToConnect ip port); Sleep 1]).

Lemma connect_retry_unanswered fuel : ∀ attempt ip port st,
  loop_stopped (master st) = false →
  (∀ i, open_connection ip port i = false) →
  connect_retry fuel attempt ip port st
    = Unfinished (logged (failed_attempts fuel ip port) st).
Proof.
  induction fuel as [|fuel IH]; intros attempt ip port st Hrun Hfail;
    cbn [connect_retry].
  - by rewrite logged_nil.
  - unfold_M. cbn. rewrite Hrun, Hfail. cbn. rewrite Hrun.
    rewrite IH by done.
    unfold logged, failed_attempts. cbn. by rewrite <- !app_assoc.
Qed.

(** X13.  A slave whose address never answers is retried for ever: for
    every budget of attempts, all of it is used, each attempt followed by
    the log line of the failure and a sleep of one second; the connection
    step has neither returned nor raised, and the slave has been neither
    pinged nor registered. *)
Theorem unanswered_slave_is_retried_forever
    (fuel : nat) (slaveInfo : SlaveInfo.t) (st : State) :
  loop_stopped (master st) = false →
  (∀ i, open_connection (ip_address_str (SlaveInfo.ip slaveInfo))
          (SlaveInfo.port slaveInfo) i = false) →
  connect_slave fuel slaveInfo st
    = Unfinished
        (logged (Info (TryingToConnect (ip_address_str (SlaveInfo.ip slaveInfo))
                         (SlaveInfo.port slaveInfo))
                 :: failed_attempts fuel (ip_address_str (SlaveInfo.ip slaveInfo))
                      (SlaveInfo.port slaveInfo)) st).
Proof.
  intros Hrun Hfail. unfold connect_slave, __connect. unfold_M. cbn.
  rewrite (connect_retry_unanswered fuel 0) by done.
  unfold logged. cbn. by rewrite <- app_assoc.
Qed.

(** On a stopped loop the first connection attempt is written and never
    resumed. *)
Lemma connect_slave_stopped fuel slaveInfo st :
  loop_stopped (master st) = true →
  connect_slave (S fuel) slaveInfo st
    = Pending
        (logged [Info (TryingToConnect (ip_address_str (SlaveInfo.ip slaveInfo))
                         (SlaveInfo.port slaveInfo));
                 OpenConnection (ip_address_str (SlaveInfo.ip slaveInfo))
                   (SlaveInfo.port slaveInfo)] st).
Proof.
  intros Hstop. unfold connect_slave, __connect. cbn [connect_retry].
  unfold_M. cbn. rewrite Hstop. unfold logged. cbn. by rewrite <- app_assoc.
Qed.

Lemma connect_slave_trace fuel K slaveInfo st :
  length (shardToSlaves (master st)) = shardSize →
  loop_stopped (master st) = false →
  (K < fuel)%nat →
  (∀ i, (i < K)%nat →
     open_connection (ip_address_str (SlaveInfo.ip slaveInfo))
       (SlaveInfo.port slaveInfo) i = false) →
  open_connection (ip_address_str (SlaveInfo.ip slaveInfo))
    (SlaveInfo.port slaveInfo) K = true →
  SlaveInfo.shardMaskList slaveInfo ≠ [] →
  connect_slave fuel slaveInfo st
    = Returned tt
        {| master := register (connection_of slaveInfo) (mismatch slaveInfo)
                       (master st);
           trace := trace st
             ++ ([Info (TryingToConnect (ip_address_str (SlaveInfo.ip slaveInfo))
                          (SlaveInfo.port slaveInfo))]
                 ++ failed_attempts K (ip_address_str (SlaveInfo.ip slaveInfo))
                      (SlaveInfo.port slaveInfo)
                 ++ [OpenConnection (ip_address_str (SlaveInfo.ip slaveInfo))
                       (SlaveInfo.port slaveInfo);
                     Info (ConnectedTo (ip_address_str (SlaveInfo.ip slaveInfo))
                             (SlaveInfo.port slaveInfo))])
             ++ verify_events slaveInfo |}.
Proof.
  intros Hlen Hrun Hfuel Hfail Hok Hmasks.
  rewrite connect_slave_unfold by done.
  rewrite (bind_Returned _ _ _ _ _
             (__connect_succeeds K fuel _ _ st Hrun Hfail Hok Hfuel)).
  unfold verified. destruct (SlaveInfo.shardMaskList slaveInfo); [done|].
  unfold logged, failed_attempts. cbn [trace master].
  by rewrite <- !app_assoc.
Qed.

(** X14.  After a slave that answered the ping with another id or other
    shard masks, the loop of [__connectToSlaves] goes on to the next
    configured slave: it logs the attempt, opens the connection and is
    never resumed.  The mismatched slave is in the pool; the next one is
    neither pinged nor registered. *)
Theorem mismatch_stops_at_next_slave
    (fuel K : nat) (bad next : SlaveInfo.t) (rest : list SlaveInfo.t) (st : State) :
  length (shardToSlaves (master st)) = shardSize →
  loop_stopped (master st) = false →
  (K < fuel)%nat →
  (∀ i, (i < K)%nat →
     open_connection (ip_address_str (SlaveInfo.ip bad)) (SlaveInfo.port bad) i
     = false) →
  open_connection (ip_address_str (SlaveInfo.ip bad)) (SlaveInfo.port bad) K
    = true →
  SlaveInfo.shardMaskList bad ≠ [] →
  mismatch bad = true →
  ∃ st1,
    connect_slave fuel bad st = Returned tt st1
    ∧ for_each (bad :: next :: rest) (connect_slave fuel) st
      = Pending
          (logged [Info (TryingToConnect (ip_address_str (SlaveInfo.ip next))
                           (SlaveInfo.port next));
                   OpenConnection (ip_address_str (SlaveInfo.ip next))
                     (SlaveInfo.port next)] st1)
    ∧ slavePool (master st1) = slavePool (master st) ++ [connection_of bad]
    ∧ loop_stopped (master st1) = true.
Proof.
  intros Hlen Hrun Hfuel Hfail Hok Hmasks Hbad.
  pose proof (connect_slave_trace fuel K bad st Hlen Hrun Hfuel Hfail Hok Hmasks)
    as Hone.
  eexists. split; [exact Hone|]. split; [|split].
  - cbn [for_each]. rewrite (bind_Returned _ _ _ _ _ Hone).
    destruct fuel as [|fuel]; [lia|].
    rewrite bind_unfold, connect_slave_stopped; [done|].
    cbn. by rewrite Hbad, orb_true_r.
  - done.
  - cbn. by rewrite Hbad, orb_true_r.
Qed.

(** X15.  A configured slave with an empty list of shard masks makes the
    bring-up raise [AssertionError] as soon as its connection is opened:
    no ping is sent to it and the pool and the shard table are as they
    were. *)
Theorem empty_shard_masks_raise
    (fuel K : nat) (slaveInfo : SlaveInfo.t) (rest : list SlaveInfo.t) (st : State) :
  length (shardToSlaves (master st)) = shardSize →
  loop_stopped (master st) = false →
  (K < fuel)%nat →
  (∀ i, (i < K)%nat →
     open_connection (ip_address_str (SlaveInfo.ip slaveInfo))
       (SlaveInfo.port slaveInfo) i = false) →
  open_connection (ip_address_str (SlaveInfo.ip slaveInfo))
    (SlaveInfo.port slaveInfo) K = true →
  SlaveInfo.shardMaskList slaveInfo = [] →
  for_each (slaveInfo :: rest) (connect_slave fuel) st
    = Raised AssertionError
        (logged ([Info (TryingToConnect (ip_address_str (SlaveInfo.ip slaveInfo))
                          (SlaveInfo.port slaveInfo))]
                 ++ failed_attempts K (ip_address_str (SlaveInfo.ip slaveInfo))
                      (SlaveInfo.port slaveInfo)
                 ++ [OpenConnection (ip_address_str (SlaveInfo.ip slaveInfo))
                       (SlaveInfo.port slaveInfo);
                     Info (ConnectedTo (ip_address_str (SlaveInfo.ip slaveInfo))
                             (SlaveInfo.port slaveInfo))]) st).
Proof.
  intros Hlen Hrun Hfuel Hfail Hok Hmasks.
  cbn [for_each]. rewrite bind_unfold.
  rewrite connect_slave_unfold by done.
  rewrite (bind_Returned _ _ _ _ _
             (__connect_succeeds K fuel _ _ st Hrun Hfail Hok Hfuel)).
  unfold verified. by rewrite Hmasks.
Qed.

(** *** The bring-up that succeeds *)

(** What a turn of the mesh loop that succeeds leaves in the trace. *)
Definition mesh_events (config : Config.t) (slave : SlaveConnection.t) : list Event :=
  [ConnectToSlavesRequest slave (getSlaveInfoList config);
   Info (SlaveConnectedToOthers (SlaveConnection.id slave))].

Lemma check_results_all_empty slave n : ∀ targets st,
  check_results slave (replicate n "") targets st
    = Returned true
        (logged [Info (SlaveConnectedToOthers (SlaveConnection.id slave))] st).
Proof. only_goal.
  induction n as [|n IH]; intros targets st; cbn [replicate check_results];
    [done|].
  rewrite bool_decide_eq_false_2 by (cbn; lia). apply IH.
Qed.

Lemma waitUntilActive_active slave st :
  SlaveConnection.active slave = true →
  waitUntilActive slave st = Returned slave st.
Proof. only_goal. intros Hact. unfold waitUntilActive. by rewrite Hact. Qed.

Lemma setup_slave_succeeds config slave st :
  loop_stopped (master st) = false →
  SlaveConnection.active slave = true →
  connect_to_slaves_reply slave (getSlaveInfoList config)
    = replicate (length (getSlaveInfoList config)) "" →
  setup_slave config slave st = Returned tt (logged (mesh_events config slave) st).
Proof.
  intros Hrun Hact Hreply. unfold setup_slave.
  rewrite (bind_Returned _ _ _ _ _ (waitUntilActive_active slave st Hact)).
  rewrite bind_unfold, sendConnectToSlaves_running by done.
  rewrite Hreply, bind_unfold. unfold check.
  rewrite bool_decide_eq_true_2 by (by rewrite length_replicate).
  cbv beta iota. change (ret tt ?s) with (Returned tt s). cbv beta iota.
  rewrite check_results_all_empty. cbn [negb].
  change (ret tt ?s) with (Returned tt s). by rewrite logged_logged.
Qed.

Lemma mesh_loop_succeeds config slaves : ∀ st,
  loop_stopped (master st) = false →
  Forall (λ slave, SlaveConnection.active slave = true
                   ∧ connect_to_slaves_reply slave (getSlaveInfoList config)
                     = replicate (length (getSlaveInfoList config)) "") slaves →
  for_each slaves (setup_slave config) st
    = Returned tt (logged (concat (mesh_events config <$> slaves)) st).
Proof.
  induction slaves as [|slave slaves IH]; intros st Hrun Hall; cbn [for_each].
  - by rewrite logged_nil.
  - apply Forall_cons in Hall as [[Hact Hreply] Hall].
    rewrite (bind_Returned _ _ _ _ _
               (setup_slave_succeeds config slave st Hrun Hact Hreply)).
    rewrite IH by done. by rewrite logged_logged.
Qed.

(** X16.  When every configured slave is reached, has shard masks and
    answers the ping as configured, every shard is covered, and every
    slave reports an empty result for each entry of the list it is sent,
    [__initCluster] returns with the loop running: after the connections
    and the summary it has sent one request to each pooled slave, in the
    order the pool is iterated, each followed by the log line of its
    success. *)
Theorem bringup_succeeds (fuel : nat) (config : Config.t) :
  let start := {| master := MasterServer_init; trace := [] |} in
  Forall (well_behaved fuel) (getSlaveInfoList config) →
  (∀ shardId, (shardId < shardSize)%nat → covered config shardId) →
  (∀ pool, set_iter pool ≡ₚ pool) →
  (∀ slaveInfo, slaveInfo ∈ getSlaveInfoList config →
     connect_to_slaves_reply (connection_of slaveInfo) (getSlaveInfoList config)
     = replicate (length (getSlaveInfoList config)) "") →
  ∃ st1,
    __connectToSlaves fuel config start = Returned tt st1
    ∧ __initCluster fuel config start
      = Returned tt
          (logged (summary_events (master st1)
                   ++ concat (mesh_events config
                                <$> set_iter (connection_of
                                                <$> getSlaveInfoList config)))
                  st1)
    ∧ loop_stopped (master st1) = false.
Proof.
  intros start Hgood Hcov Hiter Hreply.
  assert (Hlen : length (shardToSlaves (master start)) = shardSize)
    by apply length_replicate.
  destruct (connectToSlaves_runs fuel (getSlaveInfoList config) start
              Hlen eq_refl Hgood) as (st1 & Hc & Hm & Hrun).
  exists st1. split; [done|]. split; [|done].
  unfold __initCluster.
  rewrite (bind_Returned _ _ _ _ _ Hc).
  rewrite (bind_Returned _ _ _ _ _ (logSummary_Returned st1)).
  cbn [master logged].
  assert (__hasAllShards (master st1) = true) as ->.
  { rewrite Hm. by apply hasAllShards_register_all. }
  cbn [negb]. unfold __setupSlaveToSlaveConnections.
  assert (Hpool : slavePool (master (logged (summary_events (master st1)) st1))
                  = connection_of <$> getSlaveInfoList config)
    by (cbn [master logged]; by rewrite Hm, register_all_pool).
  rewrite Hpool.
  rewrite mesh_loop_succeeds; [by rewrite logged_logged|done|].
  apply Forall_forall. intros slave Hslave.
  rewrite Hiter in Hslave.
  apply list_elem_of_fmap in Hslave as (slaveInfo & -> & Hin).
  split; [done|]. by apply Hreply.
Qed.

(** X17.  Whenever the connection phase returns, the pool holds the
    connections of the configured slaves in the order of the
    configuration, and the list of every shard holds, in that order,
    exactly the connections whose masks have the shard, whether or not
    they answered the ping as configured. *)
Theorem shard_table_follows_config
    (fuel : nat) (config : Config.t) (st1 : State) :
  __connectToSlaves fuel config {| master := MasterServer_init; trace := [] |}
    = Returned tt st1 →
  slavePool (master st1) = connection_of <$> getSlaveInfoList config
  ∧ length (shardToSlaves (master st1)) = shardSize
  ∧ ∀ shardId, (shardId < shardSize)%nat →
      shardToSlaves (master st1) !! shardId
      = Some (filter (λ slave, hasShard slave shardId = true)
                     (connection_of <$> getSlaveInfoList config)).
Proof.
  intros Hc. apply connectToSlaves_Returned in Hc; [|by apply length_replicate].
  cbn [master] in Hc. rewrite Hc. split; [|split].
  - by rewrite register_all_pool.
  - rewrite register_all_length. apply length_replicate.
  - intros shardId Hlt. rewrite register_all_lookup. cbn [shardToSlaves MasterServer_init].
    by rewrite lookup_replicate_2.
Qed.

(** X18.  A slave that reports a failure does not end the mesh loop: the
    loop is stopped, and the next slave of the pool is still sent its
    request before the coroutine is left waiting for an answer that is
    never delivered. *)
Theorem mesh_failure_reaches_next_slave
    (config : Config.t) (failing next : SlaveConnection.t)
    (rest : list SlaveConnection.t) (st : State) :
  loop_stopped (master st) = false →
  SlaveConnection.active failing = true →
  SlaveConnection.active next = true →
  length (connect_to_slaves_reply failing (getSlaveInfoList config))
    = length (getSlaveInfoList config) →
  ¬ Forall (λ result, result = "")
           (connect_to_slaves_reply failing (getSlaveInfoList config)) →
  ∃ target error st2,
    for_each (failing :: next :: rest) (setup_slave config) st = Pending st2
    ∧ trace st2
      = trace st
        ++ [ConnectToSlavesRequest failing (getSlaveInfoList config);
            Info (SlaveFailedToConnect (SlaveConnection.id failing) target error);
            ConnectToSlavesRequest next (getSlaveInfoList config)]
    ∧ loop_stopped (master st2) = true
    ∧ slavePool (master st2) = slavePool (master st)
    ∧ shardToSlaves (master st2) = shardToSlaves (master st).
Proof.
  intros Hrun Hact Hnext Hlen Hfail.
  destruct (check_results_spec failing _ (getSlaveInfoList config)
              (logged [ConnectToSlavesRequest failing (getSlaveInfoList config)] st)
              Hlen) as (msg & Hres & _ & Hmsg).
  destruct (Hmsg Hfail) as (target & error & ->).
  rewrite bool_decide_eq_false_2 in Hres by done.
  assert (HA : setup_slave config failing st
               = Returned tt
                   {| master := {| shardToSlaves := shardToSlaves (master st);
                                   slavePool := slavePool (master st);
                                   loop_stopped := true |};
                      trace := trace st
                        ++ [ConnectToSlavesRequest failing (getSlaveInfoList config);
                            Info (SlaveFailedToConnect (SlaveConnection.id failing)
                                    target error)] |}).
  { unfold setup_slave.
    rewrite (bind_Returned _ _ _ _ _ (waitUntilActive_active failing st Hact)).
    rewrite bind_unfold, sendConnectToSlaves_running by done.
    rewrite bind_unfold. unfold check.
    rewrite bool_decide_eq_true_2 by done.
    cbv beta iota. change (ret tt ?s) with (Returned tt s). cbv beta iota.
    rewrite Hres. cbn [negb]. unfold shutdown, logged. cbn [master trace].
    by rewrite <- app_assoc. }
  exists target, error. eexists.
  cbn [for_each]. rewrite (bind_Returned _ _ _ _ _ HA).
  rewrite bind_unfold. unfold setup_slave.
  rewrite (bind_Returned _ _ _ _ _ (waitUntilActive_active next _ Hnext)).
  unfold sendConnectToSlaves. unfold_M. cbn.
  split; [reflexivity|]. cbn. by rewrite <- !app_assoc.
Qed.

End Bringup.

(** ** A concrete cluster *)

(** Modelled from the spec: [is_shard_in_mask] is not among the sources;
    a shard belongs to a mask when its bits below the mask's highest set
    bit are those of the mask. *)
Definition example_is_shard_in_mask (shardId : nat) (shardMask : Z) : bool :=
  let bit_mask := Z.shiftl 1 (Z.log2 shardMask) - 1 in
  Z.land bit_mask (Z.of_nat shardId) =? Z.land bit_mask shardMask.

(** The value of a string of decimal digits. *)
Definition decimal (s : string) : Z :=
  fold_left (λ acc c, 10 * acc + (Z.of_nat (nat_of_ascii c) - 48))
            (list_ascii_of_string s) 0.

(** [int(ipaddress.ip_address(s))] for a dotted IPv4 address. *)
Definition example_ip_address_int (s : string) : Z :=
  fold_left (λ acc part, 256 * acc + decimal part) (split "." s) 0.

(** [str(ipaddress.ip_address(n))] for an IPv4 address. *)
Definition example_ip_address_str (n : Z) : string :=
  pretty (n / 16777216) +:+ "." +:+ pretty ((n / 65536) mod 256) +:+ "." +:+
  pretty ((n / 256) mod 256) +:+ "." +:+ pretty (n mod 256).

(** The first slave's socket (port 38000) is not there for the first two
    attempts; the other one answers at once. *)
Definition example_open_connection (ip : string) (port : Z) (attempt : nat) : bool :=
  if port =? 38000 then (2 <=? attempt)%nat else true.

(** Both slaves answer the ping as configured. *)
Definition example_ping_reply (ip : string) (port : Z) : string * list Z :=
  if port =? 38000 then ("S0", [2]) else ("S1", [3]).

(** The process on port 38000 was started as S1, not as S0. *)
Definition swapped_ping_reply (ip : string) (port : Z) : string * list Z :=
  if port =? 38000 then ("S1", [2]) else ("S1", [3]).

(** Every slave reaches every target. *)
Definition example_connect_to_slaves_reply (slave : SlaveConnection.t)
    (targets : list SlaveInfo.t) : list string :=
  (λ _, "") <$> targets.

(** S1 cannot reach its second target. *)
Definition failing_connect_to_slaves_reply (slave : SlaveConnection.t)
    (targets : list SlaveInfo.t) : list string :=
  if String.eqb (SlaveConnection.id slave) "S1"
  then ["" ; "Connection refused"]
  else (λ _, "") <$> targets.

Definition example_config : Config.t := Supervisor.example_config.

(** The same cluster without its second slave: shard 1 is covered by no
    one. *)
Definition gap_config : Config.t :=
  {| Config.master := Config.master example_config;
     Config.slaves := take 1 (Config.slaves example_config) |}.

Definition start (shardSize : nat) : State :=
  {| master := MasterServer_init shardSize; trace := [] |}.

Definition example_run ping reply config : Outcome unit :=
  __initCluster example_is_shard_in_mask example_ip_address_int
    example_ip_address_str 2 example_open_connection ping reply id
    5 config (start 2).

Definition S0_info : SlaveInfo.t := SlaveInfo.mk "S0" 2130706433 38000 [2].
Definition S1_info : SlaveInfo.t := SlaveInfo.mk "S1" 2130706433 38001 [3].
Definition S0_connection : SlaveConnection.t :=
  SlaveConnection.mk "S0" [2] "127.0.0.1" 38000 true.
Definition S1_connection : SlaveConnection.t :=
  SlaveConnection.mk "S1" [3] "127.0.0.1" 38001 true.

Example getSlaveInfoList_example :
  getSlaveInfoList example_ip_address_int example_config = [S0_info; S1_info].
Proof. vm_compute. reflexivity. Qed.

(** The bring-up of the two slaves when all goes well: both are
    registered, each is sent the mesh request, the loop keeps running. *)
Example bringup_example :
  ∃ events,
    example_run example_ping_reply example_connect_to_slaves_reply example_config
    = Returned tt
        {| master := {| shardToSlaves := [[S0_connection]; [S1_connection]];
                        slavePool := [S0_connection; S1_connection];
                        loop_stopped := false |};
           trace := events |}
    ∧ filter (λ ev, is_request ev = true) events
      = [ConnectToSlavesRequest S0_connection [S0_info; S1_info];
         ConnectToSlavesRequest S1_connection [S0_info; S1_info]].
Proof. eexists. split; vm_compute; reflexivity. Qed.

(** C1 at a concrete input: the process on S0's port answers the ping
    with the id S1; [shutdown] is called, S0's connection is in the pool
    and in shard 0's list all the same, and the coroutine is left waiting
    for the connection to S1 on a stopped loop. *)
Example mismatched_bringup_example :
  ∃ events,
    example_run swapped_ping_reply example_connect_to_slaves_reply example_config
    = Pending
        {| master := {| shardToSlaves := [[S0_connection]; []];
                        slavePool := [S0_connection];
                        loop_stopped := true |};
           trace := events |}
    ∧ Error (SlaveIdMismatch "S0" "S1") ∈ events.
Proof.
  eexists. split; [vm_compute; reflexivity|].
  do 10 apply list_elem_of_further. apply list_elem_of_here.
Qed.

Lemma S0_reachable :
  reachable example_ip_address_str example_open_connection 5 S0_info.
Proof.
  exists 2%nat. split; [lia|]. split; [|reflexivity].
  intros [|[|i]] Hi; [reflexivity|reflexivity|lia].
Qed.

Lemma S1_reachable :
  reachable example_ip_address_str example_open_connection 5 S1_info.
Proof.
  exists 0%nat. split; [lia|]. split; [|reflexivity]. intros i Hi. lia.
Qed.

Lemma mismatched_slave_is_registered_witness :
  ∃ st',
    connect_slave example_is_shard_in_mask example_ip_address_str 2
      example_open_connection swapped_ping_reply 5 S0_info (start 2)
    = Returned tt st'
    ∧ loop_stopped (master st') = true
    ∧ S0_connection ∈ slavePool (master st').
Proof.
  destruct (mismatched_slave_is_registered example_is_shard_in_mask
              example_ip_address_str 2 example_open_connection
              swapped_ping_reply 5 S0_info (start 2))
    as (st' & Hret & Hstop & Hpool & _).
  - reflexivity.
  - reflexivity.
  - exact S0_reachable.
  - discriminate.
  - vm_compute. discriminate.
  - by exists st'.
Defined.

Lemma connect_retries_until_success_witness :
  __connect example_open_connection 5 "127.0.0.1" 38000 (start 2)
  = Returned ("127.0.0.1", 38000)
      {| master := MasterServer_init 2;
         trace := [Info (TryingToConnect "127.0.0.1" 38000);
                   OpenConnection "127.0.0.1" 38000;
                   Info (FailedToConnect "127.0.0.1" 38000); Sleep 1;
                   OpenConnection "127.0.0.1" 38000;
                   Info (FailedToConnect "127.0.0.1" 38000); Sleep 1;
                   OpenConnection "127.0.0.1" 38000;
                   Info (ConnectedTo "127.0.0.1" 38000)] |}.
Proof.
  refine (proj1 (connect_retries_until_success example_open_connection
                   2 5 "127.0.0.1" 38000 (start 2) _ _ _ _)).
  - reflexivity.
  - intros [|[|i]] Hi; [reflexivity|reflexivity|lia].
  - reflexivity.
  - lia.
Defined.

Lemma example_covered shardId :
  (shardId < 2)%nat →
  covered example_is_shard_in_mask example_ip_address_int example_config shardId.
Proof.
  intros Hlt. destruct shardId as [|[|shardId]]; [| |lia].
  - exists S0_info. split; [|reflexivity]. rewrite getSlaveInfoList_example.
    apply list_elem_of_here.
  - exists S1_info. split; [|reflexivity]. rewrite getSlaveInfoList_example.
    apply list_elem_of_further, list_elem_of_here.
Qed.

Lemma gap_not_covered :
  ¬ covered example_is_shard_in_mask example_ip_address_int gap_config 1.
Proof.
  intros (slaveInfo & Hin & Hcov).
  change (getSlaveInfoList example_ip_address_int gap_config) with [S0_info] in Hin.
  apply list_elem_of_singleton in Hin. subst slaveInfo. discriminate.
Qed.

Lemma example_well_behaved :
  Forall (well_behaved example_ip_address_str example_open_connection
            example_ping_reply 5)
         (getSlaveInfoList example_ip_address_int example_config).
Proof.
  rewrite getSlaveInfoList_example. repeat constructor; try done.
  - exact S0_reachable.
  - exact S1_reachable.
Qed.

Lemma shard_coverage_gates_mesh_witness :
  (∃ st1,
     __connectToSlaves example_is_shard_in_mask example_ip_address_int
       example_ip_address_str 2 example_open_connection example_ping_reply
       5 example_config (start 2) = Returned tt st1
     ∧ loop_stopped (master st1) = false
     ∧ slavePool (master st1) = [S0_connection; S1_connection])
  ∧ ConnectToSlavesRequest S0_connection [S0_info; S1_info]
      ∈ trace (final (example_run example_ping_reply
                        example_connect_to_slaves_reply example_config))
  ∧ Forall (λ ev, is_request ev = false)
      (trace (final (example_run example_ping_reply
                       example_connect_to_slaves_reply gap_config))).
Proof.
  pose proof (proj2 (shard_coverage_gates_mesh example_is_shard_in_mask
                example_ip_address_int example_ip_address_str 2
                example_open_connection example_ping_reply
                example_connect_to_slaves_reply id 5 example_config)
                example_covered) as (_ & Hrequest & Hreturns).
  destruct (Hreturns example_well_behaved) as (st1 & Hc & Hrun & Hpool).
  assert (Hpool' : slavePool (master st1) = [S0_connection; S1_connection])
    by (rewrite Hpool; vm_compute; reflexivity).
  split; [|split].
  - exists st1. split; [exact Hc|]. split; [exact Hrun|exact Hpool'].
  - destruct (Hrequest ltac:(done) ltac:(lia) st1 Hc)
      as (slave & rest & Hset & _ & Hin).
    unfold id in Hset. rewrite Hpool' in Hset. injection Hset as <- _.
    exact Hin.
  - refine (proj1 (proj1 (shard_coverage_gates_mesh example_is_shard_in_mask
              example_ip_address_int example_ip_address_str 2
              example_open_connection example_ping_reply
              example_connect_to_slaves_reply id 5 gap_config) _)).
    exists 1%nat. split; [lia|exact gap_not_covered].
Defined.

(** C5 as stated does not hold: the request sent to S0 carries S0's
    own entry, not the list of the other slaves. *)
Lemma mesh_request_includes_recipient :
  ConnectToSlavesRequest S0_connection [S0_info; S1_info]
    ∈ trace (final (example_run example_ping_reply
                      example_connect_to_slaves_reply example_config))
  ∧ [S0_info; S1_info]
    ≠ filter (λ slaveInfo, SlaveInfo.id slaveInfo ≠ SlaveConnection.id S0_connection)
             (getSlaveInfoList example_ip_address_int example_config).
Proof.
  split.
  - vm_compute. do 16 apply list_elem_of_further. apply list_elem_of_here.
  - vm_compute. discriminate.
Qed.

(** S1 reports a failure for one target: the loop ends up stopped. *)
Lemma mesh_failure_stops_bringup_witness :
  loop_stopped (master (final
    (__setupSlaveToSlaveConnections example_ip_address_int
       failing_connect_to_slaves_reply id example_config
       {| master := {| shardToSlaves := [[S0_connection]; [S1_connection]];
                       slavePool := [S0_connection; S1_connection];
                       loop_stopped := false |};
          trace := [] |}))) = true.
Proof.
  destruct (mesh_failure_stops_bringup
              example_ip_address_int failing_connect_to_slaves_reply id
              example_config S1_connection [S0_info; S1_info]
              {| master := {| shardToSlaves := [[S0_connection]; [S1_connection]];
                              slavePool := [S0_connection; S1_connection];
                              loop_stopped := false |};
                 trace := [] |})
    as [_ (events & Htr & Hstop)].
  apply Hstop. exists "S1", "S1", "Connection refused".
  cbn [trace app] in Htr. rewrite <- Htr. vm_compute.
  do 3 apply list_elem_of_further. apply list_elem_of_here.
Defined.

(** *** The further properties at concrete inputs *)

(** No one listens on any port. *)
Definition dead_open_connection (ip : string) (port : Z) (attempt : nat) : bool :=
  false.

(** A slave configured with no shard mask. *)
Definition S2_info : SlaveInfo.t := SlaveInfo.mk "S2" 2130706433 38001 [].

Lemma unanswered_slave_is_retried_forever_witness :
  connect_slave example_is_shard_in_mask example_ip_address_str 2
    dead_open_connection example_ping_reply 2 S0_info (start 2)
  = Unfinished
      {| master := MasterServer_init 2;
         trace := [Info (TryingToConnect "127.0.0.1" 38000);
                   OpenConnection "127.0.0.1" 38000;
                   Info (FailedToConnect "127.0.0.1" 38000); Sleep 1;
                   OpenConnection "127.0.0.1" 38000;
                   Info (FailedToConnect "127.0.0.1" 38000); Sleep 1] |}.
Proof.
  refine (unanswered_slave_is_retried_forever example_is_shard_in_mask
            example_ip_address_str 2 dead_open_connection example_ping_reply
            2 S0_info (start 2) _ _).
  - reflexivity.
  - intros i. reflexivity.
Defined.

Lemma mismatch_stops_at_next_slave_witness :
  ∃ st2,
    for_each [S0_info; S1_info]
      (connect_slave example_is_shard_in_mask example_ip_address_str 2
         example_open_connection swapped_ping_reply 5) (start 2)
    = Pending st2
    ∧ slavePool (master st2) = [S0_connection]
    ∧ PingRequest S1_connection ∉ trace st2.
Proof.
  destruct (mismatch_stops_at_next_slave example_is_shard_in_mask
              example_ip_address_str 2 example_open_connection
              swapped_ping_reply 5 2 S0_info S1_info [] (start 2))
    as (st1 & Hone & Hall & Hpool & Hstop).
  - reflexivity.
  - reflexivity.
  - lia.
  - intros [|[|i]] Hi; [reflexivity|reflexivity|lia].
  - reflexivity.
  - discriminate.
  - reflexivity.
  - eexists. split; [exact Hall|]. split; [exact Hpool|].
    vm_compute in Hone. injection Hone as <-.
    vm_compute. intros Hin.
    repeat (apply elem_of_cons in Hin as [Hin|Hin]; [discriminate|]).
    by apply elem_of_nil in Hin.
Defined.

Lemma empty_shard_masks_raise_witness :
  ∃ st',
    for_each [S2_info; S0_info]
      (connect_slave example_is_shard_in_mask example_ip_address_str 2
         example_open_connection example_ping_reply 5) (start 2)
    = Raised AssertionError st'
    ∧ master st' = MasterServer_init 2.
Proof.
  eexists. split.
  - refine (empty_shard_masks_raise example_is_shard_in_mask
              example_ip_address_str 2 example_open_connection
              example_ping_reply 5 0 S2_info [S0_info] (start 2) _ _ _ _ _ _).
    + reflexivity.
    + reflexivity.
    + lia.
    + intros i Hi. lia.
    + reflexivity.
    + reflexivity.
  - reflexivity.
Defined.

Lemma bringup_succeeds_witness :
  ∃ st',
    example_run example_ping_reply example_connect_to_slaves_reply example_config
    = Returned tt st'
    ∧ loop_stopped (master st') = false.
Proof.
  destruct (bringup_succeeds example_is_shard_in_mask example_ip_address_int
              example_ip_address_str 2 example_open_connection
              example_ping_reply example_connect_to_slaves_reply id 5
              example_config)
    as (st1 & Hc & Hinit & Hrun).
  - exact example_well_behaved.
  - exact example_covered.
  - intros pool. reflexivity.
  - intros slaveInfo _. rewrite getSlaveInfoList_example. reflexivity.
  - eexists. split; [exact Hinit|exact Hrun].
Defined.

Lemma shard_table_follows_config_witness :
  ∃ st1,
    __connectToSlaves example_is_shard_in_mask example_ip_address_int
      example_ip_address_str 2 example_open_connection swapped_ping_reply
      5 gap_config (start 2) = Returned tt st1
    ∧ shardToSlaves (master st1) !! 0%nat = Some [S0_connection]
    ∧ shardToSlaves (master st1) !! 1%nat = Some [].
Proof.
  assert (Hc : __connectToSlaves example_is_shard_in_mask example_ip_address_int
                 example_ip_address_str 2 example_open_connection
                 swapped_ping_reply 5 gap_config (start 2)
               = Returned tt
                   (final (__connectToSlaves example_is_shard_in_mask
                             example_ip_address_int example_ip_address_str 2
                             example_open_connection swapped_ping_reply 5
                             gap_config (start 2))))
    by (vm_compute; reflexivity).
  destruct (shard_table_follows_config example_is_shard_in_mask
              example_ip_address_int example_ip_address_str 2
              example_open_connection swapped_ping_reply 5 gap_config _ Hc)
    as (_ & _ & Htable).
  eexists. split; [exact Hc|].
  rewrite (Htable 0%nat), (Htable 1%nat) by lia. split; reflexivity.
Defined.

Lemma mesh_failure_reaches_next_slave_witness :
  ∃ st2,
    for_each [S1_connection; S0_connection]
      (setup_slave example_ip_address_int failing_connect_to_slaves_reply
         example_config) (start 2)
    = Pending st2
    ∧ trace st2
      = [ConnectToSlavesRequest S1_connection [S0_info; S1_info];
         Info (SlaveFailedToConnect "S1" "S1" "Connection refused");
         ConnectToSlavesRequest S0_connection [S0_info; S1_info]].
Proof.
  destruct (mesh_failure_reaches_next_slave example_ip_address_int
              failing_connect_to_slaves_reply example_config
              S1_connection S0_connection [] (start 2))
    as (target & error & st2 & Hloop & Htrace & _).
  - reflexivity.
  - reflexivity.
  - reflexivity.
  - reflexivity.
  - rewrite getSlaveInfoList_example. intros Hall.
    apply Forall_cons in Hall as [_ Hall].
    apply Forall_cons in Hall as [Hall _]. discriminate.
  - exists st2. split; [exact Hloop|].
    assert (Hst2 : st2 = final (for_each [S1_connection; S0_connection]
                       (setup_slave example_ip_address_int
                          failing_connect_to_slaves_reply example_config)
                       (start 2)))
      by (by rewrite Hloop).
    rewrite Hst2. vm_compute. reflexivity.
Defined.

End Master.

(* ===================================================================== *)
(** * quarkchain/db.py: byte strings, counters and the other stores *)
(* ===================================================================== *)

Module DbOps.

(** A Python [bytes] value. *)
Definition bytes : Type := list Byte.byte.

#[export] Instance byte_eq_dec : EqDecision Byte.byte := Byte.byte_eq_dec.

#[export] Instance byte_countable : Countable Byte.byte :=
  inj_countable Byte.to_N Byte.of_N Byte.of_to_N.

(** The exceptions of the functions modelled here. *)
Inductive Exn :=
| OverflowError
| IndexError
| TypeError
| StopIteration
| KeyError (key : bytes).

Inductive Result (A : Type) :=
| Ok (a : A)
| Raise (e : Exn).
Arguments Ok {A} a.
Arguments Raise {A} e.

(** The value of a byte, 0 to 255, and the byte of a value. *)
Definition byte_val (b : Byte.byte) : Z := Z.of_N (Byte.to_N b).

Definition byte_of (z : Z) : Byte.byte :=
  default Byte.x00 (Byte.of_N (Z.to_N z)).

(** [int.from_bytes(b, byteorder="big")]. *)
Definition int_from_bytes (b : bytes) : Z :=
  foldl (λ acc x, 256 * acc + byte_val x) 0 b.

(** The [length] big-endian digits of [v] in base 256. *)
Fixpoint big_endian (length : nat) (v : Z) : bytes :=
  match length with
  | O => []
  | S n => byte_of (v / 256 ^ Z.of_nat n) :: big_endian n (v mod 256 ^ Z.of_nat n)
  end.

(** [v.to_bytes(length, byteorder="big")]: [OverflowError] for a negative
    [v] and for one that does not fit. *)
Definition to_bytes (v : Z) (length : nat) : Result bytes :=
  if (0 <=? v) && (v <? 256 ^ Z.of_nat length)
  then Ok (big_endian length v)
  else Raise OverflowError.

(** [a <= b] on [bytes]: byte by byte, a proper prefix below what it is a
    prefix of. *)
Fixpoint bytes_le (a b : bytes) : bool :=
  match a, b with
  | [], _ => true
  | _ :: _, [] => false
  | x :: a', y :: b' =>
      if byte_val x <? byte_val y then true
      else if byte_val y <? byte_val x then false
      else bytes_le a' b'
  end.

Definition bytes_leq (a b : bytes) : Prop := bytes_le a b = true.

#[export] Instance bytes_leq_dec : RelDecision bytes_leq.
Proof. intros a b. unfold bytes_leq. apply _. Defined.

(** [add1(b)] and [sub1(b)]; the cache in front of them changes no
    result. *)
Definition add1 (b : bytes) : Result bytes :=
  let v := int_from_bytes b in to_bytes (v + 1) 4.

Definition sub1 (b : bytes) : Result bytes :=
  let v := int_from_bytes b in to_bytes (v - 1) 4.

(** [b'...'] for the ASCII text of a key prefix. *)
Definition literal (s : string) : bytes := list_byte_of_string s.

(** ** [class InMemoryDb] on byte strings *)

Abbreviation InMemoryDb := (Db.InMemoryDb (K := bytes) (V := bytes)).

(** [InMemoryDb.__init__]: [self.kv = dict()]. *)
Definition InMemoryDb_init : InMemoryDb := Db.mkInMemoryDb ∅.

(** [InMemoryDb.put(key, value)]: [self.kv[key] = bytes(value)], the
    value being a byte string already. *)
Definition InMemoryDb_put (d : InMemoryDb) (key value : bytes) : InMemoryDb :=
  Db.mkInMemoryDb (<[key := value]> (Db.kv d)).

(** [InMemoryDb.remove(key)]: [del self.kv[key]], [KeyError] for a key
    that is not there. *)
Definition InMemoryDb_remove (d : InMemoryDb) (key : bytes) : Result InMemoryDb :=
  match Db.kv d !! key with
  | Some _ => Ok (Db.mkInMemoryDb (delete key (Db.kv d)))
  | None => Raise (KeyError key)
  end.

(** [InMemoryDb.__contains__(key)]. *)
Definition InMemoryDb_contains (d : InMemoryDb) (key : bytes) : bool :=
  bool_decide (is_Some (Db.kv d !! key)).

(** [InMemoryDb.rangeIter(start, end)], as the list of what it yields:
<<
    keys = []
    for k in self.kv.keys():
        if k >= start and k <= end:
            keys.append(k)
    keys.sort()
    for k in keys:
        yield k, self.kv[k]
>>
    The keys of a dict are distinct, so the sorted list does not depend
    on the order in which the dict gives them. *)
Definition rangeIter (d : InMemoryDb) (start end_ : bytes) : list (bytes * bytes) :=
  let keys :=
    filter (λ k, bytes_leq start k ∧ bytes_leq k end_)
           (map_to_list (Db.kv d)).*1 in
  omap (λ k, (λ v, (k, v)) <$> Db.kv d !! k)
       (merge_sort bytes_leq keys).

(** ** [class ShardedDb] *)

(** A [ShardedDb]: [self.fullShardId] and [self.shardKey]; [self.db], the
    store it shares with the other views, is passed to each method. *)
Record ShardedDb := mkShardedDb { fullShardId : Z; shardKey : bytes }.

(** [ShardedDb.__init__(self, db, fullShardId)]. *)
Definition ShardedDb_init (fullShardId : Z) : Result ShardedDb :=
  match to_bytes fullShardId 4 with
  | Ok key => Ok {| fullShardId := fullShardId; shardKey := key |}
  | Raise e => Raise e
  end.

(** [ShardedDb.get(key)], the default left at [None]. *)
Definition ShardedDb_get (s : ShardedDb) (db : InMemoryDb) (key : bytes) : option bytes :=
  Db.InMemoryDb_get db (shardKey s ++ key).

(** [ShardedDb.put(key, value)]. *)
Definition ShardedDb_put (s : ShardedDb) (db : InMemoryDb) (key value : bytes) : InMemoryDb :=
  InMemoryDb_put db (shardKey s ++ key) value.

(** [ShardedDb.remove(key)]. *)
Definition ShardedDb_remove (s : ShardedDb) (db : InMemoryDb) (key : bytes) : Result InMemoryDb :=
  InMemoryDb_remove db (shardKey s ++ key).

(** [ShardedDb.__contains__(key)]. *)
Definition ShardedDb_contains (s : ShardedDb) (db : InMemoryDb) (key : bytes) : bool :=
  InMemoryDb_contains db (shardKey s ++ key).

(** [ShardedDb.rangeIter(start, end)]: the keys without their first four
    bytes. *)
Definition ShardedDb_rangeIter (s : ShardedDb) (db : InMemoryDb)
    (start end_ : bytes) : list (bytes * bytes) :=
  (λ '(k, v), (drop 4 k, v))
    <$> rangeIter db (shardKey s ++ start) (shardKey s ++ end_).

(** ** [class DbOpsMixin] *)

(** What the mixin asks of the class it is mixed into. *)
Class Store (D : Type) := {
  store_get : D → bytes → option bytes;
  store_put : D → bytes → bytes → D;
  store_contains : D → bytes → bool
}.

#[export] Instance InMemoryDb_Store : Store InMemoryDb :=
  {| store_get := Db.InMemoryDb_get;
     store_put := InMemoryDb_put;
     store_contains := InMemoryDb_contains |}.

#[local] Existing Instance Db.InMemoryDb_DbGet.

Abbreviation OverlayDb := (Db.OverlayDb (K := bytes) (V := bytes) (D := InMemoryDb)).

#[export] Instance OverlayDb_Store : Store OverlayDb :=
  {| store_get := Db.get;
     store_put := Db.put;
     store_contains := Db._has_key |}.

(** A method that has run to its end or has raised, and the store it
    leaves. *)
Inductive Outcome (D : Type) :=
| Done (d : D)
| Failed (e : Exn) (d : D).
Arguments Done {D} d.
Arguments Failed {D} e d.

Section Mixin.

Context {D : Type} `{Store D}.

(** [quarkchain.core] is not among the sources: a minor block is what
    these functions read of it. *)
Variable MinorBlock Transaction : Type.
Variable header_getHash : MinorBlock → bytes.
Variable serialize : MinorBlock → bytes.
Variable txList : MinorBlock → list Transaction.
Variable tx_serialize : Transaction → bytes.

(** [DbOpsMixin.__getitem__(self, key)]. *)
Definition __getitem__ (d : D) (key : bytes) : Result bytes :=
  match store_get d key with
  | None => Raise (KeyError key)
  | Some value => Ok value
  end.

(** [DbOpsMixin.putMinorBlock(self, mBlock, mBlockHash=None)]. *)
Definition putMinorBlock (d : D) (mBlock : MinorBlock)
    (mBlockHash : option bytes) : Outcome D :=
  let mBlockHash := default (header_getHash mBlock) mBlockHash in
  let d := store_put d (literal "mblock_" ++ mBlockHash) (serialize mBlock) in
  match txList mBlock with
  | [] => Failed IndexError d
  | coinbase :: _ =>
      let d := store_put d (literal "mblockCoinbaseTx_" ++ mBlockHash)
                 (tx_serialize coinbase) in
      match to_bytes (Z.of_nat (length (txList mBlock))) 4 with
      | Raise e => Failed e d
      | Ok count => Done (store_put d (literal "mblockTxCount_" ++ mBlockHash) count)
      end
  end.

(** [DbOpsMixin.getMinorBlockTxCount(self, h)].  In the stores of
    [db.py] a key that is [in] the store has a [get] that is not [None]
    (law [contains_get] below), so the last branch is never taken. *)
Definition getMinorBlockTxCount (d : D) (h : bytes) : Z :=
  let key := literal "mblockTxCount_" ++ h in
  if negb (store_contains d key) then 0
  else match store_get d key with
       | Some value => int_from_bytes value
       | None => 0
       end.

End Mixin.

(** ** Bytes and integers *)

Lemma byte_val_range b : 0 ≤ byte_val b < 256.
Proof. unfold byte_val. pose proof (Byte.to_N_bounded b). lia. Qed.

Lemma byte_val_of z : 0 ≤ z < 256 → byte_val (byte_of z) = z.
Proof.
  intros Hz. unfold byte_val, byte_of.
  destruct (Byte.of_N (Z.to_N z)) as [b|] eqn:Hb.
  - apply Byte.to_of_N in Hb. cbn. rewrite Hb. lia.
  - apply Byte.of_N_None_iff in Hb. lia.
Qed.

Lemma byte_of_val b : byte_of (byte_val b) = b.
Proof. unfold byte_val, byte_of. by rewrite N2Z.id, Byte.of_to_N. Qed.

Lemma byte_val_inj a b : byte_val a = byte_val b → a = b.
Proof. intros Hab. by rewrite <- (byte_of_val a), <- (byte_of_val b), Hab. Qed.

Lemma big_endian_length n : ∀ v, length (big_endian n v) = n.
Proof. induction n as [|n IH]; intros v; cbn; by rewrite ?IH. Qed.

Lemma int_from_bytes_acc l : ∀ acc,
  foldl (λ acc x, 256 * acc + byte_val x) acc l
  = acc * 256 ^ Z.of_nat (length l) + int_from_bytes l.
Proof.
  unfold int_from_bytes.
  induction l as [|x l IH]; intros acc; cbn [foldl length].
  - cbn. lia.
  - rewrite IH, (IH (256 * 0 + byte_val x)).
    rewrite Nat2Z.inj_succ, Z.pow_succ_r by lia. lia.
Qed.

Lemma int_from_bytes_cons x l :
  int_from_bytes (x :: l) = byte_val x * 256 ^ Z.of_nat (length l) + int_from_bytes l.
Proof.
  unfold int_from_bytes at 1. cbn [foldl]. rewrite int_from_bytes_acc. lia.
Qed.

Lemma int_from_bytes_range l : 0 ≤ int_from_bytes l < 256 ^ Z.of_nat (length l).
Proof.
  induction l as [|x l IH].
  - cbn. lia.
  - rewrite int_from_bytes_cons. cbn [length].
    rewrite Nat2Z.inj_succ, Z.pow_succ_r by lia.
    pose proof (byte_val_range x). nia.
Qed.

Lemma int_from_big_endian n : ∀ v,
  0 ≤ v < 256 ^ Z.of_nat n → int_from_bytes (big_endian n v) = v.
Proof.
  induction n as [|n IH]; intros v Hv.
  - cbn in *. lia.
  - cbn [big_endian]. rewrite int_from_bytes_cons, big_endian_length.
    rewrite Nat2Z.inj_succ, Z.pow_succ_r in Hv by lia.
    assert (0 < 256 ^ Z.of_nat n) by (apply Z.pow_pos_nonneg; lia).
    rewrite byte_val_of.
    + rewrite IH by (apply Z.mod_pos_bound; lia).
      rewrite (Z.div_mod v (256 ^ Z.of_nat n)) at 3 by lia. lia.
    + split; [apply Z.div_pos; lia|]. apply Z.div_lt_upper_bound; lia.
Qed.

Lemma big_endian_from_bytes l : big_endian (length l) (int_from_bytes l) = l.
Proof.
  induction l as [|x l IH]; [done|].
  cbn [length big_endian]. rewrite int_from_bytes_cons.
  pose proof (int_from_bytes_range l) as Hl.
  pose proof (byte_val_range x) as Hx.
  assert (0 < 256 ^ Z.of_nat (length l)) by (apply Z.pow_pos_nonneg; lia).
  rewrite Z.div_add_l by lia. rewrite Z.div_small by lia.
  rewrite Z.add_0_r, byte_of_val. f_equal.
  rewrite Z.add_comm, Z.mod_add by lia. rewrite Z.mod_small by lia. apply IH.
Qed.

Lemma to_bytes_Ok v n :
  0 ≤ v < 256 ^ Z.of_nat n → to_bytes v n = Ok (big_endian n v).
Proof.
  intros Hv. unfold to_bytes.
  destruct (Z.leb_spec 0 v); [|lia]. destruct (Z.ltb_spec v (256 ^ Z.of_nat n)); [done|lia].
Qed.

Lemma to_bytes_Raise v n :
  v < 0 ∨ 256 ^ Z.of_nat n ≤ v → to_bytes v n = Raise OverflowError.
Proof.
  intros Hv. unfold to_bytes.
  destruct (Z.leb_spec 0 v); [|done].
  destruct (Z.ltb_spec v (256 ^ Z.of_nat n)); [lia|done].
Qed.

(** X1.  [add1] raises [OverflowError] exactly when the number its
    argument spells is [2^32 - 1] or more, and [sub1] exactly when it is
    0 or above [2^32]; otherwise each returns four bytes spelling one more
    (one less); and on a four-byte argument [sub1] undoes [add1]. *)
Theorem add1_sub1 (b : bytes) :
  (int_from_bytes b < 2 ^ 32 - 1 →
     ∃ r, add1 b = Ok r ∧ length r = 4%nat
          ∧ int_from_bytes r = int_from_bytes b + 1
          ∧ sub1 r = Ok (big_endian 4 (int_from_bytes b))
          ∧ (length b = 4%nat → sub1 r = Ok b))
  ∧ (2 ^ 32 - 1 ≤ int_from_bytes b → add1 b = Raise OverflowError)
  ∧ (0 < int_from_bytes b ≤ 2 ^ 32 →
       ∃ r, sub1 b = Ok r ∧ length r = 4%nat
            ∧ int_from_bytes r = int_from_bytes b - 1)
  ∧ (int_from_bytes b = 0 ∨ 2 ^ 32 < int_from_bytes b →
       sub1 b = Raise OverflowError).
Proof.
  pose proof (int_from_bytes_range b) as Hb.
  change (256 ^ Z.of_nat 4) with (2 ^ 32) in *.
  assert (H256 : 256 ^ Z.of_nat 4 = 2 ^ 32) by done.
  repeat split.
  - intros Hlt. exists (big_endian 4 (int_from_bytes b + 1)).
    assert (Hr : int_from_bytes (big_endian 4 (int_from_bytes b + 1))
                 = int_from_bytes b + 1)
      by (apply int_from_big_endian; lia).
    unfold add1, sub1. rewrite Hr.
    replace (int_from_bytes b + 1 - 1) with (int_from_bytes b) by lia.
    rewrite !to_bytes_Ok by lia.
    split; [done|]. split; [apply big_endian_length|]. split; [done|].
    split; [done|]. intros Hlen. by rewrite <- Hlen at 1; rewrite big_endian_from_bytes.
  - intros Hge. unfold add1. apply to_bytes_Raise. lia.
  - intros Hpos. exists (big_endian 4 (int_from_bytes b - 1)).
    unfold sub1. rewrite to_bytes_Ok by lia.
    split; [done|]. split; [apply big_endian_length|].
    apply int_from_big_endian. lia.
  - intros Hout. unfold sub1. apply to_bytes_Raise. lia.
Qed.

Lemma add1_sub1_witness :
  sub1 [Byte.x00; Byte.x00; Byte.x01; Byte.x00]
  = Ok [Byte.x00; Byte.x00; Byte.x00; Byte.xff].
Proof.
  destruct (add1_sub1 [Byte.x00; Byte.x00; Byte.x00; Byte.xff])
    as [Hadd _].
  destruct Hadd as (r & Hr & _ & _ & _ & Hback); [by vm_compute|].
  assert (r = [Byte.x00; Byte.x00; Byte.x01; Byte.x00]) as <-
    by (vm_compute in Hr; congruence).
  by apply Hback.
Defined.

(** ** The order on byte strings *)

Lemma bytes_le_refl a : bytes_le a a = true.
Proof.
  induction a as [|x a IH]; [done|]. cbn.
  by rewrite Z.ltb_irrefl.
Qed.

Lemma bytes_le_total a : ∀ b, bytes_le a b = true ∨ bytes_le b a = true.
Proof.
  induction a as [|x a IH]; intros [|y b]; cbn; auto.
  destruct (Z.ltb_spec (byte_val x) (byte_val y));
    destruct (Z.ltb_spec (byte_val y) (byte_val x)); auto; lia.
Qed.

Lemma bytes_le_trans a : ∀ b c,
  bytes_le a b = true → bytes_le b c = true → bytes_le a c = true.
Proof.
  induction a as [|x a IH]; intros [|y b] [|z c]; cbn; try done.
  destruct (Z.ltb_spec (byte_val x) (byte_val y));
    destruct (Z.ltb_spec (byte_val y) (byte_val x));
    destruct (Z.ltb_spec (byte_val y) (byte_val z));
    destruct (Z.ltb_spec (byte_val z) (byte_val y));
    destruct (Z.ltb_spec (byte_val x) (byte_val z));
    destruct (Z.ltb_spec (byte_val z) (byte_val x));
    try done; try lia. apply IH.
Qed.

Lemma bytes_le_antisym a : ∀ b,
  bytes_le a b = true → bytes_le b a = true → a = b.
Proof.
  induction a as [|x a IH]; intros [|y b]; cbn; try done.
  destruct (Z.ltb_spec (byte_val x) (byte_val y));
    destruct (Z.ltb_spec (byte_val y) (byte_val x)); try done; try lia.
  intros Hab Hba. f_equal; [apply byte_val_inj; lia|by apply IH].
Qed.

Lemma bytes_le_app p : ∀ a b, bytes_le (p ++ a) (p ++ b) = bytes_le a b.
Proof.
  induction p as [|x p IH]; intros a b; [done|]. cbn.
  by rewrite Z.ltb_irrefl.
Qed.

(** What lies between two strings that start with [p] starts with [p]. *)
Lemma bytes_between_prefix p : ∀ a b x,
  bytes_le (p ++ a) x = true → bytes_le x (p ++ b) = true →
  ∃ k, x = p ++ k.
Proof.
  induction p as [|y p IH]; intros a b x Hlo Hhi; [by exists x|].
  destruct x as [|z x]; [done|]. cbn in Hlo, Hhi.
  destruct (Z.ltb_spec (byte_val y) (byte_val z));
    destruct (Z.ltb_spec (byte_val z) (byte_val y)); try done; try lia.
  destruct (IH a b x Hlo Hhi) as [k ->]. exists k.
  cbn. f_equal. apply byte_val_inj. lia.
Qed.

#[export] Instance bytes_leq_total : Total bytes_leq.
Proof. intros a b. apply bytes_le_total. Qed.

#[export] Instance bytes_leq_trans : Transitive bytes_leq.
Proof. intros a b c. apply bytes_le_trans. Qed.

(** ** [InMemoryDb] *)

Lemma range_keys_lookup (d : InMemoryDb) (keys : list bytes) :
  (∀ k, k ∈ keys → is_Some (Db.kv d !! k)) →
  (omap (λ k, (λ v, (k, v)) <$> Db.kv d !! k) keys).*1 = keys.
Proof.
  induction keys as [|k keys IH]; intros Hall; [done|].
  destruct (Hall k) as [v Hv]; [apply list_elem_of_here|].
  cbn. rewrite Hv. cbn. f_equal. apply IH.
  intros k' Hk'. by apply Hall, list_elem_of_further.
Qed.

Lemma elem_of_range_keys (d : InMemoryDb) start end_ k :
  k ∈ merge_sort bytes_leq
        (filter (λ k, bytes_leq start k ∧ bytes_leq k end_)
                (map_to_list (Db.kv d)).*1)
  ↔ is_Some (Db.kv d !! k) ∧ bytes_leq start k ∧ bytes_leq k end_.
Proof.
  rewrite merge_sort_Permutation, list_elem_of_filter, list_elem_of_fmap. split.
  - intros [Hrange ([k' v] & -> & Hin)]. apply elem_of_map_to_list in Hin.
    split; [by exists v|done].
  - intros [[v Hv] Hrange]. split; [done|]. exists (k, v).
    split; [done|]. by apply elem_of_map_to_list.
Qed.

Lemma rangeIter_keys (d : InMemoryDb) (start end_ : bytes) :
  (rangeIter d start end_).*1
  = merge_sort bytes_leq
      (filter (λ k, bytes_leq start k ∧ bytes_leq k end_)
              (map_to_list (Db.kv d)).*1).
Proof.
  apply range_keys_lookup. intros k Hk. by apply elem_of_range_keys in Hk as [? _].
Qed.

Lemma elem_of_rangeIter (d : InMemoryDb) (start end_ : bytes) k v :
  (k, v) ∈ rangeIter d start end_
  ↔ Db.InMemoryDb_get d k = Some v
    ∧ bytes_le start k = true ∧ bytes_le k end_ = true.
Proof.
  unfold rangeIter. rewrite list_elem_of_omap. split.
  - intros (k' & Hk' & Hv). apply elem_of_range_keys in Hk' as [_ Hrange].
    destruct (Db.kv d !! k') as [v'|] eqn:Hl; [|done].
    cbn in Hv. injection Hv as -> ->. done.
  - intros [Hv Hrange]. exists k. unfold Db.InMemoryDb_get in Hv.
    rewrite Hv. split; [|done]. apply elem_of_range_keys. split; [by exists v|done].
Qed.

Lemma rangeIter_keys_sorted (d : InMemoryDb) (start end_ : bytes) :
  StronglySorted bytes_leq (rangeIter d start end_).*1.
Proof. rewrite rangeIter_keys. apply StronglySorted_merge_sort; apply _. Qed.

(** X2.  [rangeIter(start, end)] yields exactly the entries of the store
    whose key lies between [start] and [end], both ends included, each
    once, in ascending order of the keys. *)
Theorem rangeIter_sorted_range (d : InMemoryDb) (start end_ : bytes) :
  (∀ k v, (k, v) ∈ rangeIter d start end_
          ↔ Db.InMemoryDb_get d k = Some v
            ∧ bytes_le start k = true ∧ bytes_le k end_ = true)
  ∧ StronglySorted bytes_leq (rangeIter d start end_).*1
  ∧ NoDup (rangeIter d start end_).*1.
Proof.
  split; [intros k v; apply elem_of_rangeIter|].
  split; [apply rangeIter_keys_sorted|].
  rewrite rangeIter_keys, merge_sort_Permutation. apply NoDup_filter.
  apply NoDup_fst_map_to_list.
Qed.

(** X3.  [remove] raises [KeyError] for a key that is not in the store;
    for one that is, it takes the key away and leaves every other key as
    it was, so that removing it again raises. *)
Theorem remove_present_or_KeyError (d : InMemoryDb) (key : bytes) :
  (Db.InMemoryDb_get d key = None →
     InMemoryDb_remove d key = Raise (KeyError key))
  ∧ (is_Some (Db.InMemoryDb_get d key) →
     ∃ d', InMemoryDb_remove d key = Ok d'
           ∧ Db.InMemoryDb_get d' key = None
           ∧ InMemoryDb_contains d' key = false
           ∧ (∀ k, k ≠ key → Db.InMemoryDb_get d' k = Db.InMemoryDb_get d k)
           ∧ InMemoryDb_remove d' key = Raise (KeyError key)).
Proof.
  unfold InMemoryDb_remove, Db.InMemoryDb_get, InMemoryDb_contains. split.
  - by intros ->.
  - intros [v Hv]. rewrite Hv. eexists. split; [done|]. cbn.
    rewrite lookup_delete_eq. split; [done|]. split.
    + apply bool_decide_eq_false_2. by intros [? ?].
    + split; [|done]. intros k Hk. by rewrite lookup_delete_ne.
Qed.

Definition example_store : InMemoryDb :=
  InMemoryDb_put
    (InMemoryDb_put
       (InMemoryDb_put InMemoryDb_init (literal "b") (literal "2"))
       (literal "a") (literal "1"))
    (literal "c") (literal "3").

Example rangeIter_example :
  rangeIter example_store (literal "a") (literal "b")
  = [(literal "a", literal "1"); (literal "b", literal "2")].
Proof. vm_compute. reflexivity. Qed.

Lemma remove_present_or_KeyError_witness :
  InMemoryDb_remove example_store (literal "z") = Raise (KeyError (literal "z")).
Proof.
  apply (proj1 (remove_present_or_KeyError example_store (literal "z"))).
  by vm_compute.
Defined.

(** ** [ShardedDb] *)

Lemma ShardedDb_init_Ok id s :
  ShardedDb_init id = Ok s →
  0 ≤ id < 2 ^ 32 ∧ shardKey s = big_endian 4 id ∧ length (shardKey s) = 4%nat.
Proof.
  unfold ShardedDb_init, to_bytes.
  destruct (Z.leb_spec 0 id); [|done].
  destruct (Z.ltb_spec id (256 ^ Z.of_nat 4)); [|done].
  intros [= <-]. cbn [shardKey]. split; [|split; [done|reflexivity]].
  change (256 ^ Z.of_nat 4) with (2 ^ 32) in *. lia.
Qed.

Lemma shardKey_inj id1 id2 s1 s2 :
  ShardedDb_init id1 = Ok s1 → ShardedDb_init id2 = Ok s2 →
  shardKey s1 = shardKey s2 → id1 = id2.
Proof.
  intros (Hr1 & Hk1 & _)%ShardedDb_init_Ok (Hr2 & Hk2 & _)%ShardedDb_init_Ok Heq.
  rewrite Hk1, Hk2 in Heq.
  rewrite <- (int_from_big_endian 4 id1), <- (int_from_big_endian 4 id2), Heq;
    [done|..]; change (256 ^ Z.of_nat 4) with (2 ^ 32); lia.
Qed.

(** X4.  A [ShardedDb] can be made for the shard ids from 0 up to
    [2^32 - 1] and for no other ([OverflowError]); what is put through one
    view is read back through it, and changes nothing that the same view
    reads under another key or that a view of another shard id reads
    under any key of the shared store. *)
Theorem ShardedDb_views_are_separate
    (id1 id2 : Z) (db : InMemoryDb) (key value : bytes) :
  (id1 < 0 ∨ 2 ^ 32 ≤ id1 → ShardedDb_init id1 = Raise OverflowError)
  ∧ (0 ≤ id1 < 2 ^ 32 → ∃ s1, ShardedDb_init id1 = Ok s1)
  ∧ (∀ s1 s2,
       ShardedDb_init id1 = Ok s1 → ShardedDb_init id2 = Ok s2 → id1 ≠ id2 →
       ShardedDb_get s1 (ShardedDb_put s1 db key value) key = Some value
       ∧ ShardedDb_contains s1 (ShardedDb_put s1 db key value) key = true
       ∧ (∀ k, k ≠ key →
            ShardedDb_get s1 (ShardedDb_put s1 db key value) k
            = ShardedDb_get s1 db k)
       ∧ (∀ k, ShardedDb_get s2 (ShardedDb_put s1 db key value) k
               = ShardedDb_get s2 db k)).
Proof.
  split; [|split].
  - intros Hout. unfold ShardedDb_init. rewrite to_bytes_Raise; [done|].
    change (256 ^ Z.of_nat 4) with (2 ^ 32). lia.
  - intros Hin. unfold ShardedDb_init. rewrite to_bytes_Ok; [by eexists|].
    change (256 ^ Z.of_nat 4) with (2 ^ 32). lia.
  - intros s1 s2 H1 H2 Hne.
    unfold ShardedDb_get, ShardedDb_put, ShardedDb_contains, InMemoryDb_put,
      InMemoryDb_contains, Db.InMemoryDb_get. cbn.
    rewrite lookup_insert_eq. split; [done|]. split.
    + apply bool_decide_eq_true_2. by eexists.
    + split.
      * intros k Hk. rewrite lookup_insert_ne; [done|]. by intros ?%app_inv_head.
      * intros k. rewrite lookup_insert_ne; [done|]. intros Heq.
        apply app_inj_1 in Heq as [Heq _].
        -- by apply Hne, (shardKey_inj id1 id2 s1 s2).
        -- apply ShardedDb_init_Ok in H1 as (_ & _ & ->).
           by apply ShardedDb_init_Ok in H2 as (_ & _ & ->).
Qed.

Lemma ShardedDb_views_are_separate_witness :
  ∃ s1 s2,
    ShardedDb_init 1 = Ok s1 ∧ ShardedDb_init 2 = Ok s2
    ∧ ShardedDb_get s2 (ShardedDb_put s1 InMemoryDb_init (literal "k") (literal "v"))
        (literal "k") = None.
Proof.
  destruct (ShardedDb_views_are_separate 1 2 InMemoryDb_init (literal "k") (literal "v"))
    as (_ & _ & Hsep).
  eexists _, _. split; [reflexivity|]. split; [reflexivity|].
  eapply eq_trans.
  - eapply Hsep; [reflexivity|reflexivity|lia].
  - reflexivity.
Defined.

Lemma sorted_drop_prefix p (keys : list bytes) :
  Forall (λ k, ∃ k', k = p ++ k') keys →
  StronglySorted bytes_leq keys →
  StronglySorted bytes_leq (drop (length p) <$> keys).
Proof.
  intros Hp Hs. induction Hs as [|k keys Hs IH Hall]; cbn; [constructor|].
  apply Forall_cons in Hp as [[k' ->] Hp]. constructor; [by apply IH|].
  rewrite drop_app_length. apply Forall_fmap, Forall_forall. intros x Hx.
  rewrite Forall_forall in Hall. rewrite Forall_forall in Hp.
  pose proof (Hall x Hx) as Hle. destruct (Hp x Hx) as [x' ->].
  cbn. rewrite drop_app_length. unfold bytes_leq in *. by rewrite bytes_le_app in Hle.
Qed.

Lemma fst_drop_fmap n (l : list (bytes * bytes)) :
  ((λ '(k, v), (drop n k, v)) <$> l).*1 = drop n <$> l.*1.
Proof. induction l as [|[k v] l IH]; cbn; [done|]. by rewrite IH. Qed.

(** X5.  Through a [ShardedDb], [rangeIter(start, end)] yields exactly the
    entries that this view reads, under the keys between [start] and
    [end] (both included) as the view names them, in ascending order:
    nothing of another shard, and no key with the shard prefix left
    on. *)
Theorem ShardedDb_rangeIter_own_keys
    (id : Z) (s : ShardedDb) (db : InMemoryDb) (start end_ : bytes) :
  ShardedDb_init id = Ok s →
  (∀ k v, (k, v) ∈ ShardedDb_rangeIter s db start end_
          ↔ ShardedDb_get s db k = Some v
            ∧ bytes_le start k = true ∧ bytes_le k end_ = true)
  ∧ StronglySorted bytes_leq (ShardedDb_rangeIter s db start end_).*1.
Proof.
  intros (_ & _ & Hlen)%ShardedDb_init_Ok.
  assert (Hpre : ∀ k0 v0,
            (k0, v0) ∈ rangeIter db (shardKey s ++ start) (shardKey s ++ end_) →
            ∃ k, k0 = shardKey s ++ k).
  { intros k0 v0 (_ & Hlo & Hhi)%elem_of_rangeIter.
    by eapply bytes_between_prefix. }
  split.
  - intros k v. unfold ShardedDb_rangeIter, ShardedDb_get.
    rewrite list_elem_of_fmap. split.
    + intros ([k0 v0] & [= -> ->] & Hin).
      destruct (Hpre _ _ Hin) as [k ->].
      apply elem_of_rangeIter in Hin as (Hv & Hlo & Hhi).
      rewrite bytes_le_app in Hlo, Hhi.
      rewrite <- Hlen, drop_app_length. done.
    + intros (Hv & Hlo & Hhi). exists (shardKey s ++ k, v). split.
      * by rewrite <- Hlen, drop_app_length.
      * apply elem_of_rangeIter. by rewrite !bytes_le_app.
  - unfold ShardedDb_rangeIter.
    rewrite fst_drop_fmap, <- Hlen.
    apply sorted_drop_prefix; [|apply rangeIter_keys_sorted].
    apply Forall_forall. intros k0 Hk0.
    apply list_elem_of_fmap in Hk0 as ([k0' v0] & -> & Hin). by eapply Hpre.
Qed.

Lemma ShardedDb_rangeIter_own_keys_witness :
  ShardedDb_rangeIter (mkShardedDb 1 (big_endian 4 1))
    (ShardedDb_put (mkShardedDb 2 (big_endian 4 2))
       (ShardedDb_put (mkShardedDb 1 (big_endian 4 1)) InMemoryDb_init
          (literal "a") (literal "1"))
       (literal "a") (literal "2"))
    (literal "a") (literal "z")
  = [(literal "a", literal "1")]
  ∧ StronglySorted bytes_leq
      (ShardedDb_rangeIter (mkShardedDb 1 (big_endian 4 1)) InMemoryDb_init
         [] [Byte.xff]).*1.
Proof.
  split; [by vm_compute|].
  apply (ShardedDb_rangeIter_own_keys 1 (mkShardedDb 1 (big_endian 4 1))).
  reflexivity.
Defined.

(** ** The mixin on a store *)

(** What every store of [db.py] does: a put is read back, leaves the other
    keys, and [in] holds of the keys whose [get] is not [None]. *)
Class StoreLaws (D : Type) `{Store D} := {
  get_put_eq : ∀ d k v, store_get (store_put d k v) k = Some v;
  get_put_ne : ∀ d k k' v, k ≠ k' → store_get (store_put d k v) k' = store_get d k';
  contains_get : ∀ d k, store_contains d k = bool_decide (is_Some (store_get d k))
}.

#[export] Instance InMemoryDb_StoreLaws : StoreLaws InMemoryDb.
Proof.
  split; cbn; unfold Db.InMemoryDb_get, InMemoryDb_put, InMemoryDb_contains; cbn.
  - intros d k v. apply lookup_insert_eq.
  - intros d k k' v Hne. by apply lookup_insert_ne.
  - done.
Qed.

#[export] Instance OverlayDb_StoreLaws : StoreLaws OverlayDb.
Proof.
  split; cbn; unfold Db.get, Db.put, Db._has_key; cbn.
  - intros d k v. by rewrite lookup_insert_eq.
  - intros d k k' v Hne. by rewrite lookup_insert_ne.
  - intros d k. by destruct (Db.overlay d !! k).
Qed.

Lemma count_key_not_block_key h h' :
  literal "mblockTxCount_" ++ h' ≠ literal "mblock_" ++ h.
Proof. cbn. discriminate. Qed.

Lemma count_key_not_coinbase_key h h' :
  literal "mblockTxCount_" ++ h' ≠ literal "mblockCoinbaseTx_" ++ h.
Proof. cbn. discriminate. Qed.

Lemma block_key_not_coinbase_key h h' :
  literal "mblock_" ++ h' ≠ literal "mblockCoinbaseTx_" ++ h.
Proof. cbn. discriminate. Qed.

Section MixinProperties.

Context {D : Type} `{StoreLaws D}.
Context {MinorBlock Transaction : Type}.
Context (header_getHash : MinorBlock → bytes) (serialize : MinorBlock → bytes).
Context (txList : MinorBlock → list Transaction).
Context (tx_serialize : Transaction → bytes).

Lemma getMinorBlockTxCount_get (d : D) h :
  getMinorBlockTxCount d h =
    match store_get d (literal "mblockTxCount_" ++ h) with
    | Some value => int_from_bytes value
    | None => 0
    end.
Proof.
  unfold getMinorBlockTxCount. rewrite contains_get.
  by destruct (store_get d (literal "mblockTxCount_" ++ h)).
Qed.

(** X6.  [putMinorBlock] of a block with no transaction raises
    [IndexError] after the block itself has been written; of a block with
    at least one and fewer than [2^32] transactions it returns, and then
    [getMinorBlockTxCount] of its hash is the number of its transactions,
    the block is read back under its key, and the count of every other
    hash is what it was.  A hash with no count entry counts 0. *)
Theorem putMinorBlock_count_round_trip
    (d : D) (mBlock : MinorBlock) (mBlockHash : option bytes) :
  let h := default (header_getHash mBlock) mBlockHash in
  (txList mBlock = [] →
     putMinorBlock MinorBlock Transaction header_getHash serialize txList
       tx_serialize d mBlock mBlockHash
     = Failed IndexError (store_put d (literal "mblock_" ++ h) (serialize mBlock)))
  ∧ (txList mBlock ≠ [] → Z.of_nat (length (txList mBlock)) < 2 ^ 32 →
     ∃ d',
       putMinorBlock MinorBlock Transaction header_getHash serialize txList
         tx_serialize d mBlock mBlockHash = Done d'
       ∧ getMinorBlockTxCount d' h = Z.of_nat (length (txList mBlock))
       ∧ store_get d' (literal "mblock_" ++ h) = Some (serialize mBlock)
       ∧ (∀ h', h' ≠ h → getMinorBlockTxCount d' h' = getMinorBlockTxCount d h'))
  ∧ (store_get d (literal "mblockTxCount_" ++ h) = None →
     getMinorBlockTxCount d h = 0).
Proof.
  intros h. unfold putMinorBlock. fold h. split; [|split].
  - by intros ->.
  - intros Hne Hlt. destruct (txList mBlock) as [|coinbase rest] eqn:Htx; [done|].
    rewrite to_bytes_Ok by (change (256 ^ Z.of_nat 4) with (2 ^ 32); lia).
    eexists. split; [done|]. split; [|split].
    + rewrite getMinorBlockTxCount_get, get_put_eq.
      apply int_from_big_endian. change (256 ^ Z.of_nat 4) with (2 ^ 32). lia.
    + rewrite get_put_ne by apply count_key_not_block_key.
      rewrite get_put_ne by (apply not_eq_sym, block_key_not_coinbase_key).
      apply get_put_eq.
    + intros h' Hh'. rewrite !getMinorBlockTxCount_get.
      rewrite get_put_ne by (by intros ?%app_inv_head).
      rewrite get_put_ne by (apply not_eq_sym, count_key_not_coinbase_key).
      by rewrite get_put_ne by (apply not_eq_sym, count_key_not_block_key).
  - intros Hnone. by rewrite getMinorBlockTxCount_get, Hnone.
Qed.

End MixinProperties.

Lemma putMinorBlock_count_round_trip_witness :
  ∃ d', putMinorBlock (list bytes) bytes (λ _, literal "h") (@concat Byte.byte)
          id id InMemoryDb_init [literal "tx0"; literal "tx1"] None = Done d'
        ∧ getMinorBlockTxCount d' (literal "h") = 2.
Proof.
  destruct (putMinorBlock_count_round_trip (D := InMemoryDb)
              (λ _ : list bytes, literal "h") (@concat Byte.byte) id id
              InMemoryDb_init [literal "tx0"; literal "tx1"] None)
    as (_ & Hput & _).
  destruct Hput as (d' & Hd' & Hcount & _); [discriminate|by vm_compute|].
  by exists d'.
Defined.

(** X7.  A minor block written through an overlay stays in the overlay:
    [putMinorBlock] on an [OverlayDb] returns an overlay around the same
    wrapped store, unchanged, through which the count of the block's
    transactions is read back, while the wrapped store still gives the
    count it gave before. *)
Theorem overlay_putMinorBlock_is_temporary
    {MinorBlock Transaction : Type}
    (header_getHash : MinorBlock → bytes) (serialize : MinorBlock → bytes)
    (txList : MinorBlock → list Transaction)
    (tx_serialize : Transaction → bytes)
    (o : OverlayDb) (mBlock : MinorBlock) (mBlockHash : option bytes) :
  let h := default (header_getHash mBlock) mBlockHash in
  txList mBlock ≠ [] →
  Z.of_nat (length (txList mBlock)) < 2 ^ 32 →
  ∃ o',
    putMinorBlock MinorBlock Transaction header_getHash serialize txList
      tx_serialize o mBlock mBlockHash = Done o'
    ∧ Db._db o' = Db._db o
    ∧ getMinorBlockTxCount o' h = Z.of_nat (length (txList mBlock))
    ∧ getMinorBlockTxCount (Db._db o') h = getMinorBlockTxCount (Db._db o) h.
Proof.
  intros h Hne Hlt. unfold putMinorBlock. fold h.
  destruct (txList mBlock) as [|coinbase rest] eqn:Htx; [done|].
  rewrite to_bytes_Ok by (change (256 ^ Z.of_nat 4) with (2 ^ 32); lia).
  eexists. split; [done|]. split; [done|]. split; [|done].
  rewrite getMinorBlockTxCount_get, get_put_eq.
  apply int_from_big_endian. change (256 ^ Z.of_nat 4) with (2 ^ 32). lia.
Qed.

Lemma overlay_putMinorBlock_is_temporary_witness :
  ∃ o', putMinorBlock (list bytes) bytes (λ _, literal "h") (@concat Byte.byte)
          id id (Db.OverlayDb_init example_store)
          [literal "tx0"; literal "tx1"] None = Done o'
        ∧ Db._db o' = example_store
        ∧ getMinorBlockTxCount o' (literal "h") = 2
        ∧ getMinorBlockTxCount example_store (literal "h") = 0.
Proof.
  destruct (overlay_putMinorBlock_is_temporary
              (λ _ : list bytes, literal "h") (@concat Byte.byte) id id
              (Db.OverlayDb_init example_store)
              [literal "tx0"; literal "tx1"] None)
    as (o' & Ho' & Hdb & Hcount & _); [discriminate|by vm_compute|].
  exists o'. split; [exact Ho'|]. split; [exact Hdb|]. split; [exact Hcount|].
  by vm_compute.
Defined.

(** ** Transactions and the account index *)

(** [DbOpsMixin.MAX_TIMESTAMP]. *)
Definition MAX_TIMESTAMP : Z := 2 ^ 32 - 1.

Section Transactions.

Context {D : Type} `{Store D}.

(** [quarkchain.core] is not among the sources: transactions, their
    inputs and outputs, addresses, blocks and headers are what these
    functions read of them.  An input's [index] is an unsigned field. *)
Variables Transaction TxInput TxOutput Address ConsumedUtxo : Type.
Variables Block RootBlockHeader : Type.
Variable tx_getHash : Transaction → bytes.
Variable tx_serialize : Transaction → bytes.
Variable Transaction_deserialize : bytes → Result Transaction.
Variable inList : Transaction → list TxInput.
Variable outList : Transaction → list TxOutput.
Variable txin_hash : TxInput → bytes.
Variable txin_index : TxInput → nat.
Variable txin_serialize : TxInput → bytes.
Variable txout_address : TxOutput → Address.
Variable utxo_address : ConsumedUtxo → Address.
Variable addr_serialize : Address → bytes.
Variable header_createTime : Block → Z.
Variable header_serialize : Block → bytes.
Variable rootBlockHeader_serialize : RootBlockHeader → bytes.

(** [Constant.ADDRESS_LENGTH]. *)
Variable ADDRESS_LENGTH : nat.

(** The order in which Python iterates over the set made of the given
    addresses. *)
Variable set_iter : list Address → list Address.

(** [DbOpsMixin.getTxAndTimestamp(self, txHash)]:
<<
    value = self.get(b'tx_' + txHash)
    if not value:
        return None
    timestamp = int.from_bytes(value[:4], byteorder="big")
    return (Transaction.deserialize(value[4:]), timestamp)
>> *)
Definition getTxAndTimestamp (d : D) (txHash : bytes)
    : Result (option (Transaction * Z)) :=
  match store_get d (literal "tx_" ++ txHash) with
  | None => Ok None
  | Some value =>
      if bool_decide (value = []) then Ok None
      else
        let timestamp := int_from_bytes (take 4 value) in
        match Transaction_deserialize (drop 4 value) with
        | Ok tx => Ok (Some (tx, timestamp))
        | Raise e => Raise e
        end
  end.

(** [DbOpsMixin.getTx(self, txHash)]: [self.getTxAndTimestamp(txHash)[0]],
    a [TypeError] when there is no such transaction. *)
Definition getTx (d : D) (txHash : bytes) : Result Transaction :=
  match getTxAndTimestamp d txHash with
  | Ok (Some (tx, _)) => Ok tx
  | Ok None => Raise TypeError
  | Raise e => Raise e
  end.

(** The slow path of [__putTxToAccounts]:
<<
    for txInput in tx.inList:
        t = self.getTx(txInput.hash)
        addr = t.outList[txInput.index].address
        addrSet.add(addr)
>> *)
Fixpoint input_addresses (d : D) (inputs : list TxInput) : Result (list Address) :=
  match inputs with
  | [] => Ok []
  | txInput :: rest =>
      match getTx d (txin_hash txInput) with
      | Raise e => Raise e
      | Ok t =>
          match outList t !! txin_index txInput with
          | None => Raise IndexError
          | Some output =>
              match input_addresses d rest with
              | Raise e => Raise e
              | Ok addrs => Ok (txout_address output :: addrs)
              end
          end
      end
  end.

(** The key and the value of an entry of the account index. *)
Definition index_key (addr : Address) (timestampKey txHash : bytes) : bytes :=
  literal "addr_" ++ addr_serialize addr ++ timestampKey ++ txHash.

(** [DbOpsMixin.__putTxToAccounts(self, tx, txHash, createTime,
    consumedUtxoList=None)]. *)
Definition __putTxToAccounts (d : D) (tx : Transaction) (txHash : bytes)
    (createTime : Z) (consumedUtxoList : option (list ConsumedUtxo)) : Outcome D :=
  let inverseCreateTime := MAX_TIMESTAMP - createTime in
  match to_bytes inverseCreateTime 4 with
  | Raise e => Failed e d
  | Ok timestampKey =>
      match to_bytes createTime 4 with
      | Raise e => Failed e d
      | Ok timestampValue =>
          match match consumedUtxoList with
                | None => input_addresses d (inList tx)
                | Some consumed => Ok (utxo_address <$> consumed)
                end with
          | Raise e => Failed e d
          | Ok spenders =>
              let addrSet :=
                set_iter (spenders ++ (txout_address <$> outList tx)) in
              Done (foldl (λ d addr,
                             store_put d (index_key addr timestampKey txHash)
                               timestampValue)
                          d addrSet)
          end
      end
  end.

(** [DbOpsMixin.putTx(self, tx, block, rootBlockHeader=None, txHash=None,
    consumedUtxoList=None)]. *)
Definition putTx (d : D) (tx : Transaction) (block : Block)
    (rootBlockHeader : option RootBlockHeader) (txHash : option bytes)
    (consumedUtxoList : option (list ConsumedUtxo)) : Outcome D :=
  let txHash := default (tx_getHash tx) txHash in
  match to_bytes (header_createTime block) 4 with
  | Raise e => Failed e d
  | Ok time =>
      let d := store_put d (literal "tx_" ++ txHash) (time ++ tx_serialize tx) in
      let d := store_put d (literal "txBlockHeader_" ++ txHash)
                 (header_serialize block) in
      let d := match rootBlockHeader with
               | Some header =>
                   store_put d (literal "txRootBlockHeader_" ++ txHash)
                     (rootBlockHeader_serialize header)
               | None => d
               end in
      let d := foldl (λ d txIn,
                        store_put d (literal "spent_" ++ txin_serialize txIn) txHash)
                     d (inList tx) in
      __putTxToAccounts d tx txHash (header_createTime block) consumedUtxoList
  end.

(** [DbOpsMixin.getSpentTxHash(self, txIn)]. *)
Definition getSpentTxHash (d : D) (txIn : TxInput) : option bytes :=
  store_get d (literal "spent_" ++ txin_serialize txIn).

(** How a generator ended: it ran to its end, or an exception left it. *)
Definition Ending : Type := option Exn.

(** [DbOpsMixin.accountTxIter(self, address, limit=0)] on an
    [InMemoryDb], as what the generator yields and how it ends:
<<
    prefix = b'addr_'
    start = prefix + address.serialize()
    length = len(start)
    end = (int.from_bytes(start, byteorder="big") + 1).to_bytes(length, byteorder="big")
    done = 0
    for k, v in self.rangeIter(start, end):
        timestampStart = len(prefix) + Constant.ADDRESS_LENGTH
        timestampEnd = timestampStart + 4
        txHash = k[timestampEnd:]
        createTime = int.from_bytes(v, byteorder="big")
        yield (txHash, createTime)
        done += 1
        if 0 < limit <= done:
            raise StopIteration()
>>
    The ending [Some StopIteration] says that the [raise] was executed;
    what the consumer sees of it (the plain end of the iteration, or a
    [RuntimeError]) is the interpreter's business. *)
Definition accountTxIter (d : InMemoryDb) (address : Address) (limit : Z)
    : list (bytes * Z) * Ending :=
  let prefix := literal "addr_" in
  let start := prefix ++ addr_serialize address in
  let length_ := length start in
  match to_bytes (int_from_bytes start + 1) length_ with
  | Raise e => ([], Some e)
  | Ok end_ =>
      let timestampStart := (length prefix + ADDRESS_LENGTH)%nat in
      let timestampEnd := (timestampStart + 4)%nat in
      let items :=
        (λ '(k, v), (drop timestampEnd k, int_from_bytes v))
          <$> rangeIter d start end_ in
      if (0 <? limit) && (limit <=? Z.of_nat (length items))
      then (take (Z.to_nat limit) items, Some StopIteration)
      else (items, None)
  end.

End Transactions.

(** *** Byte strings of the same length compare as the numbers they
    spell *)

Lemma bytes_le_nil_r a : bytes_le a [] = true → a = [].
Proof. by destruct a. Qed.

Lemma bytes_le_prefix a r : bytes_le a (a ++ r) = true.
Proof.
  rewrite <- (app_nil_r a) at 1. by rewrite bytes_le_app.
Qed.

Lemma bytes_le_int a : ∀ b r s,
  length a = length b →
  (int_from_bytes a < int_from_bytes b → bytes_le (a ++ r) (b ++ s) = true)
  ∧ (int_from_bytes b < int_from_bytes a → bytes_le (a ++ r) (b ++ s) = false)
  ∧ (int_from_bytes a = int_from_bytes b → a = b).
Proof.
  induction a as [|x a IH]; intros [|y b] r s Hlen; try done.
  cbn in Hlen. injection Hlen as Hlen.
  rewrite !int_from_bytes_cons, <- Hlen. cbn [app bytes_le].
  pose proof (int_from_bytes_range a) as Ha.
  pose proof (int_from_bytes_range b) as Hb. rewrite <- Hlen in Hb.
  pose proof (byte_val_range x) as Hx. pose proof (byte_val_range y) as Hy.
  destruct (IH b r s Hlen) as (Hlt & Hgt & Heq).
  destruct (Z.ltb_spec (byte_val x) (byte_val y)) as [Hxy|Hxy].
  - split; [done|]. split; [nia|nia].
  - destruct (Z.ltb_spec (byte_val y) (byte_val x)) as [Hyx|Hyx].
    + split; [nia|]. split; [done|nia].
    + assert (byte_val x = byte_val y) as Hsame by lia.
      rewrite Hsame. split; [intros ?; apply Hlt; lia|].
      split; [intros ?; apply Hgt; lia|].
      intros ?. f_equal; [by apply byte_val_inj|apply Heq; lia].
Qed.

Lemma bytes_le_int_le a b r s :
  length a = length b → bytes_le (a ++ r) (b ++ s) = true →
  int_from_bytes a ≤ int_from_bytes b.
Proof.
  intros Hlen Hle. destruct (bytes_le_int a b r s Hlen) as (_ & Hgt & _).
  destruct (Z.lt_ge_cases (int_from_bytes b) (int_from_bytes a)) as [Hlt|]; [|lia].
  rewrite Hgt in Hle by done. done.
Qed.

Lemma bytes_le_int_lt a b r :
  length a = length b → r ≠ [] → bytes_le (a ++ r) b = true →
  int_from_bytes a < int_from_bytes b.
Proof.
  intros Hlen Hr Hle. rewrite <- (app_nil_r b) in Hle.
  pose proof (bytes_le_int_le a b r [] Hlen Hle) as Hint.
  destruct (bytes_le_int a b r [] Hlen) as (_ & _ & Heq).
  destruct (decide (int_from_bytes a = int_from_bytes b)) as [Hsame|]; [|lia].
  rewrite (Heq Hsame), bytes_le_app in Hle. by apply bytes_le_nil_r in Hle.
Qed.

(** Between two strings with the same first byte lie only strings with
    that first byte. *)
Lemma bytes_between_head a b k x :
  head a = Some x → head b = Some x →
  bytes_le a k = true → bytes_le k b = true → head k = Some x.
Proof.
  destruct a as [|x1 a]; [done|]. destruct b as [|x2 b]; [done|].
  intros [= ->] [= ->]. destruct k as [|z k]; [done|]. cbn.
  destruct (Z.ltb_spec (byte_val x) (byte_val z));
    destruct (Z.ltb_spec (byte_val z) (byte_val x)); try done; try lia.
  intros _ _. f_equal. apply byte_val_inj. lia.
Qed.

(** The end of the range of an account: the string after
    [b'addr_' + address], of the same length, also starting with [a]. *)
Lemma account_range_end (x : bytes) :
  let start := literal "addr_" ++ x in
  to_bytes (int_from_bytes start + 1) (length start)
    = Ok (big_endian (length start) (int_from_bytes start + 1))
  ∧ int_from_bytes (big_endian (length start) (int_from_bytes start + 1))
    = int_from_bytes start + 1
  ∧ head (big_endian (length start) (int_from_bytes start + 1))
    = Some Byte.x61.
Proof.
  intros start.
  set (rest2 := literal "dr_" ++ x).
  assert (Hstart : start = Byte.x61 :: Byte.x64 :: rest2) by done.
  pose proof (int_from_bytes_range rest2) as H2.
  assert (Hpos : 0 < 256 ^ Z.of_nat (length rest2)) by (apply Z.pow_pos_nonneg; lia).
  assert (Hint : int_from_bytes start
                 = 97 * (256 * 256 ^ Z.of_nat (length rest2))
                   + (100 * 256 ^ Z.of_nat (length rest2) + int_from_bytes rest2)).
  { rewrite Hstart, !int_from_bytes_cons. cbn [length].
    rewrite Nat2Z.inj_succ, Z.pow_succ_r by lia. done. }
  assert (Hlen : 256 ^ Z.of_nat (length start)
                 = 256 * (256 * 256 ^ Z.of_nat (length rest2))).
  { rewrite Hstart. cbn [length].
    rewrite !Nat2Z.inj_succ, !Z.pow_succ_r by lia. done. }
  assert (Hrange : 0 ≤ int_from_bytes start + 1 < 256 ^ Z.of_nat (length start))
    by (rewrite Hint, Hlen; nia).
  split; [by apply to_bytes_Ok|]. split; [by apply int_from_big_endian|].
  rewrite Hstart at 1. cbn [length big_endian head].
  rewrite Nat2Z.inj_succ, Z.pow_succ_r by lia. rewrite Hint.
  replace (97 * (256 * 256 ^ Z.of_nat (length rest2))
           + (100 * 256 ^ Z.of_nat (length rest2) + int_from_bytes rest2) + 1)
    with (97 * (256 * 256 ^ Z.of_nat (length rest2))
          + (100 * 256 ^ Z.of_nat (length rest2) + int_from_bytes rest2 + 1))
    by lia.
  rewrite Z.div_add_l by lia. rewrite Z.div_small by nia. done.
Qed.

(** *** Writing and reading a transaction *)

Section TransactionProperties.

Context {D : Type} `{StoreLaws D}.
Context {Transaction TxInput TxOutput Address ConsumedUtxo : Type}.
Context {Block RootBlockHeader : Type}.
Context (tx_getHash : Transaction → bytes) (tx_serialize : Transaction → bytes).
Context (Transaction_deserialize : bytes → Result Transaction).
Context (inList : Transaction → list TxInput).
Context (outList : Transaction → list TxOutput).
Context (txin_hash : TxInput → bytes) (txin_index : TxInput → nat).
Context (txin_serialize : TxInput → bytes).
Context (txout_address : TxOutput → Address).
Context (utxo_address : ConsumedUtxo → Address).
Context (addr_serialize : Address → bytes).
Context (header_createTime : Block → Z) (header_serialize : Block → bytes).
Context (rootBlockHeader_serialize : RootBlockHeader → bytes).
Context (set_iter : list Address → list Address).

Lemma get_foldl_put_other {X} (key val : X → bytes) xs : ∀ (d : D) k,
  (∀ x, x ∈ xs → key x ≠ k) →
  store_get (foldl (λ d x, store_put d (key x) (val x)) d xs) k = store_get d k.
Proof.
  induction xs as [|x xs IH]; intros d k Hne; cbn [foldl]; [done|].
  rewrite IH by (intros x' Hx'; by apply Hne, list_elem_of_further).
  apply get_put_ne, Hne, list_elem_of_here.
Qed.

Lemma get_foldl_put_const {X} (key : X → bytes) (v : bytes) xs : ∀ (d : D) k,
  (∃ x, x ∈ xs ∧ key x = k) ∨ store_get d k = Some v →
  store_get (foldl (λ d x, store_put d (key x) v) d xs) k = Some v.
Proof.
  induction xs as [|x xs IH]; intros d k Hk; cbn [foldl].
  - destruct Hk as [(x & Hx & _)|Hk]; [by apply elem_of_nil in Hx|done].
  - apply IH. destruct (decide (key x = k)) as [<-|Hne].
    + right. apply get_put_eq.
    + destruct Hk as [(x' & Hx' & Hkey)|Hk].
      * apply elem_of_cons in Hx' as [->|Hx']; [done|]. left. by exists x'.
      * right. by rewrite get_put_ne.
Qed.

(** X21.  [putTx] with the consumed outputs given raises [OverflowError]
    and writes nothing when the block's [createTime] is negative or does
    not fit four bytes; otherwise it returns, and then
    [getTxAndTimestamp] of the transaction's hash gives the transaction
    back (as [Transaction.deserialize] reads what [serialize] wrote) with
    the block's [createTime], [getTx] gives the transaction, and
    [getSpentTxHash] of each of its inputs gives its hash. *)
Theorem putTx_round_trip
    (d : D) (tx : Transaction) (block : Block)
    (rootBlockHeader : option RootBlockHeader) (txHash : option bytes)
    (consumed : list ConsumedUtxo) :
  let h := default (tx_getHash tx) txHash in
  let put :=
    putTx Transaction TxInput TxOutput Address ConsumedUtxo Block RootBlockHeader
      tx_getHash tx_serialize Transaction_deserialize inList outList txin_hash
      txin_index txin_serialize txout_address utxo_address addr_serialize
      header_createTime header_serialize rootBlockHeader_serialize set_iter
      d tx block rootBlockHeader txHash (Some consumed) in
  Transaction_deserialize (tx_serialize tx) = Ok tx →
  (header_createTime block < 0 ∨ 2 ^ 32 ≤ header_createTime block →
     put = Failed OverflowError d)
  ∧ (0 ≤ header_createTime block < 2 ^ 32 →
     ∃ d', put = Done d'
       ∧ getTxAndTimestamp Transaction Transaction_deserialize d' h
         = Ok (Some (tx, header_createTime block))
       ∧ getTx Transaction Transaction_deserialize d' h = Ok tx
       ∧ ∀ txIn, txIn ∈ inList tx →
           getSpentTxHash TxInput txin_serialize d' txIn = Some h).
Proof.
  intros h put Hround. subst put. unfold putTx. fold h. split.
  - intros Hout. rewrite to_bytes_Raise; [done|].
    change (256 ^ Z.of_nat 4) with (2 ^ 32). lia.
  - intros Hin.
    rewrite to_bytes_Ok by (change (256 ^ Z.of_nat 4) with (2 ^ 32); lia).
    unfold __putTxToAccounts, MAX_TIMESTAMP.
    rewrite !to_bytes_Ok by (change (256 ^ Z.of_nat 4) with (2 ^ 32); lia).
    match goal with
    | |- ∃ d', Done ?written = Done d' ∧ _ => exists written; set (d' := written)
    end.
    split; [done|].
    assert (Hvalue : store_get d' (literal "tx_" ++ h)
                     = Some (big_endian 4 (header_createTime block)
                             ++ tx_serialize tx)).
    { unfold d'.
      rewrite get_foldl_put_other by (intros addr _; cbn; discriminate).
      rewrite get_foldl_put_other by (intros txIn _; cbn; discriminate).
      destruct rootBlockHeader as [header|].
      - rewrite get_put_ne by (cbn; discriminate).
        rewrite get_put_ne by (cbn; discriminate). apply get_put_eq.
      - rewrite get_put_ne by (cbn; discriminate). apply get_put_eq. }
    assert (Hget : getTxAndTimestamp Transaction Transaction_deserialize d' h
                   = Ok (Some (tx, header_createTime block))).
    { unfold getTxAndTimestamp. rewrite Hvalue.
      rewrite bool_decide_eq_false_2 by (cbn; discriminate).
      rewrite (take_app_length' _ _ 4), (drop_app_length' _ _ 4)
        by (symmetry; apply big_endian_length).
      rewrite Hround, int_from_big_endian; [done|].
      change (256 ^ Z.of_nat 4) with (2 ^ 32). lia. }
    split; [exact Hget|]. split.
    + unfold getTx. by rewrite Hget.
    + intros txIn HtxIn. unfold getSpentTxHash, d'.
      rewrite get_foldl_put_other by (intros addr _; cbn; discriminate).
      apply (get_foldl_put_const (λ txIn, literal "spent_" ++ txin_serialize txIn)).
      left. by exists txIn.
Qed.

End TransactionProperties.

(** *** The account index *)

Lemma sorted_fst {A B} (R : relation A) (l : list (A * B)) :
  StronglySorted R l.*1 → StronglySorted (λ p q, R p.1 q.1) l.
Proof.
  induction l as [|p l IH]; cbn; intros Hs; [constructor|].
  apply StronglySorted_inv in Hs as [Hs Hall]. constructor; [by apply IH|].
  exact (proj1 (Forall_fmap fst (R p.1) l) Hall).
Qed.

Lemma sorted_fmap_on {A B} (R : relation A) (R' : relation B) (f : A → B) l :
  StronglySorted R l →
  (∀ x y, x ∈ l → y ∈ l → R x y → R' (f x) (f y)) →
  StronglySorted R' (f <$> l).
Proof.
  induction 1 as [|x l Hs IH Hall]; intros Hf; cbn; [constructor|].
  constructor.
  - apply IH. intros a b Ha Hb. by apply Hf; apply list_elem_of_further.
  - apply Forall_fmap, Forall_forall. intros y Hy.
    rewrite Forall_forall in Hall.
    apply Hf; [apply list_elem_of_here|by apply list_elem_of_further|by apply Hall].
Qed.

Section AccountIndex.

Context {Transaction TxInput TxOutput Address ConsumedUtxo : Type}.
Context (Transaction_deserialize : bytes → Result Transaction).
Context (inList : Transaction → list TxInput).
Context (outList : Transaction → list TxOutput).
Context (txin_hash : TxInput → bytes) (txin_index : TxInput → nat).
Context (txout_address : TxOutput → Address).
Context (utxo_address : ConsumedUtxo → Address).
Context (addr_serialize : Address → bytes).
Context (ADDRESS_LENGTH : nat).
Context (set_iter : list Address → list Address).

(** Every address serializes to [ADDRESS_LENGTH] bytes, and the set made
    of a list of addresses holds those addresses. *)
Hypothesis addr_length : ∀ addr, length (addr_serialize addr) = ADDRESS_LENGTH.
Hypothesis set_iter_elements : ∀ addrs addr, addr ∈ set_iter addrs ↔ addr ∈ addrs.

(** The key under which [__putTxToAccounts] files the transaction [h],
    confirmed at time [t], for the account [addr]. *)
Definition entry_key (addr : Address) (t : Z) (h : bytes) : bytes :=
  index_key Address addr_serialize addr (big_endian 4 (MAX_TIMESTAMP - t)) h.

(** A store in which every key that starts with the letter [a] is an
    entry of the account index: the keys of the blocks, transactions and
    spent outputs start with other letters. *)
Definition Indexed (d : InMemoryDb) : Prop :=
  ∀ k v, Db.kv d !! k = Some v →
    head k ≠ Some Byte.x61
    ∨ ∃ addr t h, 0 ≤ t ≤ MAX_TIMESTAMP ∧ k = entry_key addr t h
                  ∧ v = big_endian 4 t.

(** What [accountTxIter(address)] yields with no limit. *)
Definition account_txs (d : InMemoryDb) (address : Address) : list (bytes * Z) :=
  (accountTxIter Address addr_serialize ADDRESS_LENGTH d address 0).1.

Lemma MAX_TIMESTAMP_range t :
  0 ≤ t ≤ MAX_TIMESTAMP →
  0 ≤ t < 256 ^ Z.of_nat 4 ∧ 0 ≤ MAX_TIMESTAMP - t < 256 ^ Z.of_nat 4.
Proof.
  unfold MAX_TIMESTAMP. change (256 ^ Z.of_nat 4) with (2 ^ 32). lia.
Qed.

Lemma entry_key_start addr t h :
  entry_key addr t h
  = (literal "addr_" ++ addr_serialize addr)
      ++ big_endian 4 (MAX_TIMESTAMP - t) ++ h.
Proof using Type. unfold entry_key, index_key. by rewrite <- app_assoc. Qed.

Lemma entry_key_same addr1 addr2 t h :
  addr_serialize addr1 = addr_serialize addr2 →
  entry_key addr1 t h = entry_key addr2 t h.
Proof using Type. unfold entry_key, index_key. by intros ->. Qed.

Lemma entry_key_inj addr1 t1 h1 addr2 t2 h2 :
  0 ≤ t1 ≤ MAX_TIMESTAMP → 0 ≤ t2 ≤ MAX_TIMESTAMP →
  entry_key addr1 t1 h1 = entry_key addr2 t2 h2 →
  addr_serialize addr1 = addr_serialize addr2 ∧ t1 = t2 ∧ h1 = h2.
Proof using addr_length.
  intros Ht1 Ht2 Heq. unfold entry_key, index_key in Heq.
  apply app_inv_head in Heq.
  apply app_inj_1 in Heq as [Haddr Heq]; [|by rewrite !addr_length].
  apply app_inj_1 in Heq as [Htime Hh]; [|by rewrite !big_endian_length].
  split; [done|]. split; [|done].
  apply (f_equal int_from_bytes) in Htime.
  rewrite !int_from_big_endian in Htime by by apply MAX_TIMESTAMP_range.
  lia.
Qed.

Lemma entry_key_drop addr t h :
  drop (length (literal "addr_") + ADDRESS_LENGTH + 4) (entry_key addr t h) = h.
Proof using addr_length.
  unfold entry_key, index_key. rewrite !app_assoc.
  apply drop_app_length'.
  by rewrite !length_app, addr_length, big_endian_length.
Qed.

(** An entry lies in the range that [accountTxIter] scans for an address
    exactly when it is an entry of that address. *)
Lemma entry_in_range address addr t h :
  let start := literal "addr_" ++ addr_serialize address in
  let end_ := big_endian (length start) (int_from_bytes start + 1) in
  bytes_le start (entry_key addr t h) = true
  ∧ bytes_le (entry_key addr t h) end_ = true
  ↔ addr_serialize addr = addr_serialize address.
Proof using addr_length.
  intros start end_.
  destruct (account_range_end (addr_serialize address)) as (_ & Hend & _).
  fold start in Hend. fold end_ in Hend.
  assert (Hlen_end : length end_ = length start) by apply big_endian_length.
  set (other := literal "addr_" ++ addr_serialize addr).
  assert (Hlen : length other = length start)
    by (unfold other, start; by rewrite !length_app, !addr_length).
  rewrite entry_key_start. fold other.
  set (rest := big_endian 4 (MAX_TIMESTAMP - t) ++ h).
  assert (Hrest : rest ≠ []) by done.
  split.
  - intros [Hlo Hhi].
    rewrite <- (app_nil_r start) in Hlo.
    apply bytes_le_int_le in Hlo; [|done].
    apply bytes_le_int_lt in Hhi; [|by rewrite Hlen_end|done].
    destruct (bytes_le_int other start [] [] Hlen) as (_ & _ & Hsame).
    assert (other = start) as Heq by (apply Hsame; lia).
    by apply app_inv_head in Heq.
  - intros Hsame. assert (other = start) as -> by (unfold other; by rewrite Hsame).
    split; [apply bytes_le_prefix|].
    rewrite <- (app_nil_r end_).
    apply (bytes_le_int start end_ rest []); [done|lia].
Qed.

(** What the scan of an indexed store finds is entries of the address. *)
Lemma scanned_entry d address k v :
  let start := literal "addr_" ++ addr_serialize address in
  let end_ := big_endian (length start) (int_from_bytes start + 1) in
  Indexed d →
  (k, v) ∈ rangeIter d start end_ →
  ∃ t h, 0 ≤ t ≤ MAX_TIMESTAMP ∧ k = entry_key address t h
         ∧ v = big_endian 4 t.
Proof using addr_length.
  intros start end_ Hindexed (Hget & Hlo & Hhi)%elem_of_rangeIter.
  destruct (account_range_end (addr_serialize address)) as (_ & _ & Hhead).
  fold start in Hhead. fold end_ in Hhead.
  pose proof (bytes_between_head start end_ k Byte.x61 eq_refl Hhead Hlo Hhi)
    as Hk.
  destruct (Hindexed k v Hget) as [?|(addr & t & h & Ht & -> & ->)]; [done|].
  exists t, h. split; [done|]. split; [|done].
  apply entry_key_same. by apply (entry_in_range address addr t h).
Qed.

Lemma accountTxIter_unfold d address limit :
  let start := literal "addr_" ++ addr_serialize address in
  let end_ := big_endian (length start) (int_from_bytes start + 1) in
  let items :=
    (λ '(k, v), (drop (length (literal "addr_") + ADDRESS_LENGTH + 4) k,
                 int_from_bytes v))
      <$> rangeIter d start end_ in
  accountTxIter Address addr_serialize ADDRESS_LENGTH d address limit
  = if (0 <? limit) && (limit <=? Z.of_nat (length items))
    then (take (Z.to_nat limit) items, Some StopIteration)
    else (items, None).
Proof using Type.
  intros start end_ items. unfold accountTxIter.
  destruct (account_range_end (addr_serialize address)) as (Hto & _ & _).
  by rewrite Hto.
Qed.

Lemma elem_of_account_txs d address h t :
  Indexed d →
  (h, t) ∈ account_txs d address
  ↔ 0 ≤ t ≤ MAX_TIMESTAMP
    ∧ Db.kv d !! entry_key address t h = Some (big_endian 4 t).
Proof using addr_length.
  intros Hindexed. unfold account_txs. rewrite accountTxIter_unfold.
  cbn [andb Z.ltb Z.compare fst]. rewrite list_elem_of_fmap. split.
  - intros ([k v] & [= -> ->] & Hin).
    destruct (scanned_entry d address k v Hindexed Hin) as (t & h & Ht & -> & ->).
    apply elem_of_rangeIter in Hin as (Hget & _).
    rewrite entry_key_drop.
    rewrite int_from_big_endian by by apply MAX_TIMESTAMP_range. done.
  - intros [Ht Hget]. exists (entry_key address t h, big_endian 4 t). split.
    + rewrite entry_key_drop.
      by rewrite int_from_big_endian by by apply MAX_TIMESTAMP_range.
    + apply elem_of_rangeIter. split; [done|].
      by apply (entry_in_range address address t h).
Qed.

(** X22.  On a store whose keys starting with [a] are all entries of the
    account index, [accountTxIter(address)] with no limit runs to its end
    and yields exactly the transactions filed for the address, each with
    the time it was filed with, from the latest to the oldest.  With a
    limit above 0 it stops after that many, by the [raise] of its last
    line, if there are that many; otherwise it yields them all. *)
Theorem accountTxIter_latest_first
    (d : InMemoryDb) (address : Address) :
  Indexed d →
  let run := accountTxIter Address addr_serialize ADDRESS_LENGTH d address in
  (run 0).2 = None
  ∧ (∀ h t, (h, t) ∈ (run 0).1
            ↔ 0 ≤ t ≤ MAX_TIMESTAMP
              ∧ Db.InMemoryDb_get d (entry_key address t h) = Some (big_endian 4 t))
  ∧ StronglySorted (λ earlier later, later.2 ≤ earlier.2) (run 0).1
  ∧ (∀ limit, 0 < limit →
       run limit
       = if bool_decide (limit ≤ Z.of_nat (length (run 0).1))
         then (take (Z.to_nat limit) (run 0).1, Some StopIteration)
         else ((run 0).1, None)).
Proof using addr_length.
  intros Hindexed run. subst run. split; [|split; [|split]].
  - by rewrite accountTxIter_unfold.
  - intros h t. by apply elem_of_account_txs.
  - rewrite accountTxIter_unfold. cbn [andb Z.ltb Z.compare fst].
    eapply sorted_fmap_on; [apply sorted_fst, rangeIter_keys_sorted|].
    intros [k1 v1] [k2 v2] H1 H2 Hle. cbn [fst snd] in *.
    destruct (scanned_entry d address k1 v1 Hindexed H1) as (t1 & h1 & Ht1 & -> & ->).
    destruct (scanned_entry d address k2 v2 Hindexed H2) as (t2 & h2 & Ht2 & -> & ->).
    rewrite !int_from_big_endian by by apply MAX_TIMESTAMP_range.
    unfold bytes_leq in Hle. rewrite !entry_key_start, bytes_le_app in Hle.
    apply bytes_le_int_le in Hle; [|by rewrite !big_endian_length].
    rewrite !int_from_big_endian in Hle by by apply MAX_TIMESTAMP_range.
    lia.
  - intros limit Hlimit. rewrite !accountTxIter_unfold.
    cbn [andb Z.ltb Z.compare fst].
    match goal with
    | |- context [take _ ?l] => set (items := l)
    end.
    destruct (Z.ltb_spec 0 limit); [|lia]. cbn [andb].
    destruct (Z.leb_spec limit (Z.of_nat (length items))).
    + by rewrite bool_decide_eq_true_2.
    + rewrite bool_decide_eq_false_2; [done|]. by apply Z.lt_nge.
Qed.

Lemma Indexed_init : Indexed InMemoryDb_init.
Proof using Type.
  intros k v Hk. unfold InMemoryDb_init in Hk. cbn [Db.kv] in Hk.
  by rewrite lookup_empty in Hk.
Qed.

Lemma Indexed_put d addr t h :
  Indexed d → 0 ≤ t ≤ MAX_TIMESTAMP →
  Indexed (InMemoryDb_put d (entry_key addr t h) (big_endian 4 t)).
Proof using Type.
  intros Hindexed Ht k v. unfold InMemoryDb_put. cbn [Db.kv].
  destruct (decide (k = entry_key addr t h)) as [->|Hne].
  - rewrite lookup_insert_eq. intros [= <-]. right. by exists addr, t, h.
  - rewrite lookup_insert_ne by done. apply Hindexed.
Qed.

Lemma Indexed_put_all t h addrs : ∀ d,
  Indexed d → 0 ≤ t ≤ MAX_TIMESTAMP →
  Indexed (foldl (λ d addr,
                    store_put d
                      (index_key Address addr_serialize addr
                         (big_endian 4 (MAX_TIMESTAMP - t)) h)
                      (big_endian 4 t)) d addrs).
Proof using Type.
  induction addrs as [|addr addrs IH]; intros d Hindexed Ht; cbn [foldl]; [done|].
  apply IH; [|done]. by apply (Indexed_put d addr t h).
Qed.

(** X23.  [__putTxToAccounts] with the consumed outputs given raises
    [OverflowError] and writes nothing for a [createTime] that is negative
    or above [MAX_TIMESTAMP]; otherwise it returns, keeps the store an
    index, files the transaction for the address of every consumed output
    and of every output of the transaction, keeps what was filed for any
    address, and files nothing new for an address that serializes unlike
    all of those. *)
Theorem putTxToAccounts_files_transaction
    (d : InMemoryDb) (tx : Transaction) (h : bytes) (t : Z)
    (consumed : list ConsumedUtxo) :
  let put :=
    __putTxToAccounts Transaction TxInput TxOutput Address ConsumedUtxo
      Transaction_deserialize inList outList txin_hash txin_index
      txout_address utxo_address addr_serialize set_iter
      d tx h t (Some consumed) in
  let involved := (utxo_address <$> consumed) ++ (txout_address <$> outList tx) in
  Indexed d →
  (t < 0 ∨ MAX_TIMESTAMP < t → put = Failed OverflowError d)
  ∧ (0 ≤ t ≤ MAX_TIMESTAMP →
     ∃ d', put = Done d'
       ∧ Indexed d'
       ∧ (∀ addr, addr ∈ involved → (h, t) ∈ account_txs d' addr)
       ∧ (∀ addr entry, entry ∈ account_txs d addr → entry ∈ account_txs d' addr)
       ∧ (∀ addr entry,
            (∀ addr', addr' ∈ involved → addr_serialize addr' ≠ addr_serialize addr) →
            entry ∈ account_txs d' addr → entry ∈ account_txs d addr)).
Proof using addr_length set_iter_elements.
  intros put involved Hindexed. subst put. unfold __putTxToAccounts. split.
  - intros Hout. rewrite to_bytes_Raise; [done|].
    unfold MAX_TIMESTAMP in *. change (256 ^ Z.of_nat 4) with (2 ^ 32). lia.
  - intros Ht. destruct (MAX_TIMESTAMP_range t Ht) as [Hfits Hinverse].
    rewrite !to_bytes_Ok by done. fold involved.
    set (d' := foldl _ d (set_iter involved)).
    assert (Hnew : ∀ addr, addr ∈ involved →
              Db.kv d' !! entry_key addr t h = Some (big_endian 4 t)).
    { intros addr Haddr.
      change (store_get d' (entry_key addr t h) = Some (big_endian 4 t)).
      unfold d', entry_key.
      apply (get_foldl_put_const (D := InMemoryDb)
               (λ addr, index_key Address addr_serialize addr
                          (big_endian 4 (MAX_TIMESTAMP - t)) h)).
      left. exists addr. split; [by apply set_iter_elements|done]. }
    assert (Hold : ∀ k, (∀ addr, addr ∈ involved → entry_key addr t h ≠ k) →
              Db.kv d' !! k = Db.kv d !! k).
    { intros k Hk.
      change (store_get d' k = store_get d k). unfold d'.
      apply (get_foldl_put_other (D := InMemoryDb)
               (λ addr, index_key Address addr_serialize addr
                          (big_endian 4 (MAX_TIMESTAMP - t)) h)
               (λ _, big_endian 4 t)).
      intros addr Haddr. by apply Hk, set_iter_elements. }
    assert (Hindexed' : Indexed d') by by apply Indexed_put_all.
    exists d'. split; [done|]. split; [done|]. split; [|split].
    + intros addr Haddr. apply elem_of_account_txs; [done|]. split; [done|].
      by apply Hnew.
    + intros addr [h0 t0] [Ht0 Hget]%elem_of_account_txs; [|done].
      apply elem_of_account_txs; [done|]. split; [done|].
      destruct (decide (entry_key addr t0 h0
                        ∈ (λ addr', entry_key addr' t h) <$> involved))
        as [Hin|Hnot].
      * apply list_elem_of_fmap in Hin as (addr' & Heq & Haddr').
        apply entry_key_inj in Heq as (Hsame & -> & ->); [|done..].
        rewrite (entry_key_same addr addr') by done.
        by apply Hnew.
      * rewrite Hold; [done|]. intros addr' Haddr' Heq. apply Hnot.
        apply list_elem_of_fmap. by exists addr'.
    + intros addr [h0 t0] Hunlike [Ht0 Hget]%elem_of_account_txs; [|done].
      apply elem_of_account_txs; [done|]. split; [done|].
      rewrite <- Hold; [done|]. intros addr' Haddr' Heq.
      apply entry_key_inj in Heq as (Hsame & _); [|done..].
      by apply (Hunlike addr').
Qed.

End AccountIndex.

(** *** A small chain *)

(** Addresses of one byte; a transaction is the list of the addresses it
    pays to, has one input, and is hashed by its own bytes; a block is its
    [createTime]. *)
Definition example_addr_serialize (addr : Byte.byte) : bytes := [addr].

Definition example_putTx (d : InMemoryDb) (tx : bytes) (createTime : Z)
    (consumed : list Byte.byte) : Outcome InMemoryDb :=
  putTx bytes bytes Byte.byte Byte.byte Byte.byte Z unit
    id id Ok (λ tx, [literal "in" ++ tx]) id id (λ _, 0%nat) id id id
    example_addr_serialize id (λ _, literal "header") (λ _, literal "root")
    remove_dups d tx createTime None None (Some consumed).

Definition example_putTxToAccounts (d : InMemoryDb) (tx h : bytes) (t : Z)
    (consumed : list Byte.byte) : Outcome InMemoryDb :=
  __putTxToAccounts bytes bytes Byte.byte Byte.byte Byte.byte
    Ok (λ tx, [literal "in" ++ tx]) id id (λ _, 0%nat) id id
    example_addr_serialize remove_dups d tx h t (Some consumed).

Definition example_accountTxIter (d : InMemoryDb) (address : Byte.byte)
    (limit : Z) : list (bytes * Z) * Ending :=
  accountTxIter Byte.byte example_addr_serialize 1 d address limit.

(** An index with two transactions filed for the address [A], the second
    one confirmed later. *)
Definition example_index : InMemoryDb :=
  InMemoryDb_put
    (InMemoryDb_put InMemoryDb_init
       (entry_key example_addr_serialize Byte.x41 5 (literal "first"))
       (big_endian 4 5))
    (entry_key example_addr_serialize Byte.x41 9 (literal "second"))
    (big_endian 4 9).

Example accountTxIter_example :
  example_accountTxIter example_index Byte.x41 0
    = ([(literal "second", 9); (literal "first", 5)], None)
  ∧ example_accountTxIter example_index Byte.x41 1
    = ([(literal "second", 9)], Some StopIteration)
  ∧ example_accountTxIter example_index Byte.x42 0 = ([], None).
Proof. repeat split; vm_compute; reflexivity. Qed.

Lemma putTx_round_trip_witness :
  ∃ d', example_putTx InMemoryDb_init [Byte.x41; Byte.x42] 7 [Byte.x43] = Done d'
        ∧ getTxAndTimestamp bytes Ok d' [Byte.x41; Byte.x42]
          = Ok (Some ([Byte.x41; Byte.x42], 7))
        ∧ getSpentTxHash bytes id d' (literal "in" ++ [Byte.x41; Byte.x42])
          = Some [Byte.x41; Byte.x42].
Proof.
  destruct (putTx_round_trip (D := InMemoryDb)
              id id Ok (λ tx, [literal "in" ++ tx]) id id (λ _, 0%nat) id id id
              example_addr_serialize id (λ _ : Z, literal "header")
              (λ _ : unit, literal "root") remove_dups
              InMemoryDb_init [Byte.x41; Byte.x42] 7 None None [Byte.x43]
              eq_refl)
    as [_ Hok].
  destruct Hok as (d' & Hput & Hget & _ & Hspent); [unfold id; lia|].
  exists d'. split; [exact Hput|]. split; [exact Hget|].
  apply Hspent, list_elem_of_here.
Defined.

Lemma accountTxIter_latest_first_witness :
  StronglySorted (λ earlier later : bytes * Z, later.2 ≤ earlier.2)
    (example_accountTxIter example_index Byte.x41 0).1.
Proof.
  refine (proj1 (proj2 (proj2
    (accountTxIter_latest_first example_addr_serialize 1 _
       example_index Byte.x41 _)))).
  - intros addr. reflexivity.
  - apply Indexed_put; [apply Indexed_put; [apply Indexed_init|]|];
      unfold MAX_TIMESTAMP; lia.
Defined.

Lemma putTxToAccounts_files_transaction_witness :
  ∃ d', example_putTxToAccounts example_index [Byte.x42] (literal "third") 7
          [Byte.x41] = Done d'
        ∧ (literal "third", 7) ∈ (example_accountTxIter d' Byte.x41 0).1
        ∧ (literal "third", 7) ∈ (example_accountTxIter d' Byte.x42 0).1.
Proof.
  destruct (putTxToAccounts_files_transaction (Transaction := bytes)
              (TxInput := bytes)
              Ok (λ tx, [literal "in" ++ tx]) id id (λ _, 0%nat) id id
              example_addr_serialize 1 remove_dups
              (λ addr, eq_refl) (λ addrs addr, elem_of_remove_dups addrs addr)
              example_index [Byte.x42] (literal "third") 7 [Byte.x41])
    as [_ Hok].
  - apply Indexed_put; [apply Indexed_put; [apply Indexed_init|]|];
      unfold MAX_TIMESTAMP; lia.
  - destruct Hok as (d' & Hput & _ & Hfiled & _); [unfold MAX_TIMESTAMP; lia|].
    exists d'. split; [exact Hput|]. split.
    + apply (Hfiled Byte.x41). apply list_elem_of_here.
    + apply (Hfiled Byte.x42). apply list_elem_of_further, list_elem_of_here.
Defined.

End DbOps.
